(** * Seelie: a shallow embedding of [seelie.py]

    The development follows the layout of the script: Python-level helpers
    (printing, sets, dictionaries, [os.path]), the entity classes
    ([SeeliePath], [SeelieRef], [SeelieProject]), the two synchronizers
    ([GitSync], [RSync]) and the traversal engine ([Seelie.apply] with its
    nested helper [apply_project]).  The operating system (file system,
    child processes, clock) is an oracle record [OS] over an abstract world
    state; every theorem holds for every such oracle. *)

From Stdlib Require Import List String Ascii Bool Arith ZArith Lia.
From Stdlib Require Import Sorting.Sorted Sorting.Permutation Sorting.Mergesort Orders.
Import ListNotations.

Open Scope string_scope.
Open Scope list_scope.

Set Implicit Arguments.

(* ================================================================= *)
(** ** Python-level helpers *)

(** [str.lower()] on the ASCII range.  The script compares lowered tags and
    attribute values with ASCII literals without the letter k, for which
    byte-wise ASCII lowering decides the same equalities.  The colour names
    of [color_print] include [black]: there the model is [str.lower] for
    names of the ASCII range only (the Kelvin sign lowers to k). *)
Definition lower_ascii (c : ascii) : ascii :=
  let n := nat_of_ascii c in
  if ((65 <=? n) && (n <=? 90))%nat then ascii_of_nat (n + 32) else c.

Fixpoint lower (s : string) : string :=
  match s with
  | EmptyString => EmptyString
  | String c s' => String (lower_ascii c) (lower s')
  end.

Definition cat (a b : string) : string := String.append a b.

Definition tab : string := String (ascii_of_nat 9) EmptyString.
Definition esc : string := String (ascii_of_nat 27) EmptyString.

(** ['%d' % n] for a natural number. *)
Fixpoint digits_aux (fuel n : nat) (acc : string) : string :=
  match fuel with
  | 0 => acc
  | S fuel' =>
      let d := ascii_of_nat (48 + n mod 10) in
      let acc' := String d acc in
      if (n / 10 =? 0)%nat then acc' else digits_aux fuel' (n / 10) acc'
  end.

Definition str_of_nat (n : nat) : string := digits_aux (S n) n EmptyString.

(** [str(x)] for a value that is a string or [None]. *)
Definition str_of_opt (o : option string) : string :=
  match o with Some s => s | None => "None" end.

(** [x or default] for a value that is a string or [None]: the empty string
    is falsy as well. *)
Definition str_or (o : option string) (d : string) : string :=
  match o with
  | Some s => if String.eqb s "" then d else s
  | None => d
  end.

Definition opt_str_eqb (a b : option string) : bool :=
  match a, b with
  | Some x, Some y => String.eqb x y
  | None, None => true
  | _, _ => false
  end.

(** Exceptions the script can raise or let through. *)
Inductive exn : Type :=
  | TypeError | ValueError | KeyError | IndexError
  | NotImplementedError
  | OSError (msg : string).

(* ================================================================= *)
(** ** The entity classes *)

Record SeeliePath : Type := mkPath {
  path : string;
  tool : option string;
  origin : option string
}.

Record SeelieRef : Type := mkRef { ref_name : option string }.

Inductive item : Type :=
  | IPath (p : SeeliePath)
  | IRef (r : SeelieRef).

Record SeelieProject : Type := mkProject {
  name : option string;
  items : list item;
  auto : bool
}.

Definition SeeliePath_eqb (p q : SeeliePath) : bool :=
  String.eqb (path p) (path q)
  && opt_str_eqb (tool p) (tool q)
  && opt_str_eqb (origin p) (origin q).

(** Python values that meet in [==] and [in] tests of the script.  None of the
    classes defines [__eq__] or [__hash__]: a string never equals an object,
    and two objects are equal when they are the same object.  Objects carry no
    address here, so sameness of two [SeeliePath] objects is read as equality
    of their fields; [error_paths_add_fresh] below shows the engine never adds
    a path object whose fields are already in the set, so the reading is not
    observable. *)
Inductive pyval : Type :=
  | VNone
  | VStr (s : string)
  | VPath (p : SeeliePath)
  | VProject (p : SeelieProject).

Definition py_eqb (a b : pyval) : bool :=
  match a, b with
  | VNone, VNone => true
  | VStr x, VStr y => String.eqb x y
  | VPath p, VPath q => SeeliePath_eqb p q
  | _, _ => false
  end.

(** [x in container] for a list or a set. *)
Definition py_in (x : pyval) (l : list pyval) : bool := existsb (py_eqb x) l.

Definition VOpt (o : option string) : pyval :=
  match o with Some s => VStr s | None => VNone end.

(** [set.add]: sets are kept as duplicate-free lists in insertion order; the
    script reads them through [in], truthiness and [sorted] only. *)
Definition set_add {A} (inj : A -> pyval) (x : A) (s : list A) : list A :=
  if py_in (inj x) (map inj s) then s else s ++ [x].

(** [s |= set(l)] *)
Definition set_union {A} (inj : A -> pyval) (s l : list A) : list A :=
  fold_left (fun acc x => set_add inj x acc) l s.

(* ----------------------------------------------------------------- *)
(** *** Dictionaries with string-or-None keys *)

Definition dict (V : Type) : Type := list (option string * V).

Fixpoint dict_get {V} (k : option string) (d : dict V) : option V :=
  match d with
  | [] => None
  | (k', v) :: d' => if opt_str_eqb k k' then Some v else dict_get k d'
  end.

(** [d[k] = v] *)
Fixpoint dict_set {V} (k : option string) (v : V) (d : dict V) : dict V :=
  match d with
  | [] => [(k, v)]
  | (k', v') :: d' =>
      if opt_str_eqb k k' then (k', v) :: d' else (k', v') :: dict_set k v d'
  end.

(** [d.pop(k)] when the key is present *)
Fixpoint dict_pop {V} (k : option string) (d : dict V) : dict V :=
  match d with
  | [] => []
  | (k', v') :: d' =>
      if opt_str_eqb k k' then d' else (k', v') :: dict_pop k d'
  end.

(** [k in d] *)
Definition dict_mem {V} (k : option string) (d : dict V) : bool :=
  match dict_get k d with Some _ => true | None => false end.

(** [dict(pairs)] *)
Definition dict_of {V} (pairs : list (option string * V)) : dict V :=
  fold_left (fun d kv => dict_set (fst kv) (snd kv) d) pairs [].

(** [attrib.get(key, default)] on the attributes of an XML element. *)
Fixpoint attrib_get (key : string) (a : list (string * string)) : option string :=
  match a with
  | [] => None
  | (k, v) :: a' => if String.eqb key k then Some v else attrib_get key a'
  end.

(* ----------------------------------------------------------------- *)
(** *** [sorted] on strings *)

Module StringLe <: TotalLeBool.
Definition t := string.
Definition leb := String.leb.
Lemma leb_total : forall a1 a2, leb a1 a2 = true \/ leb a2 a1 = true.
Proof. exact String.leb_total. Qed.
End StringLe.

Module StringSort := Sort StringLe.

Definition sorted_str (l : list string) : list string := StringSort.sort l.

Fixpoint all_some (l : list (option string)) : option (list string) :=
  match l with
  | [] => Some []
  | Some s :: l' =>
      match all_some l' with Some r => Some (s :: r) | None => None end
  | None :: _ => None
  end.

(** [sorted(s)] for a set of names that may hold [None]: comparing [None]
    with a string is a [TypeError]; a lone element is never compared. *)
Definition sorted_names (l : list (option string))
  : list (option string) + exn :=
  match all_some l with
  | Some ss => inl (map Some (sorted_str ss))
  | None =>
      match l with
      | [None] => inl [None]
      | _ => inr TypeError
      end
  end.

(* ================================================================= *)
(** ** Effects: a state and exception monad *)

(** A computation over a state [S] returns, raises, or stops for a reason of
    type [X]: [X] is empty for the code of the script proper and [unit] where
    the embedding bounds a recursion by fuel. *)
Inductive outcome (X A : Type) : Type :=
  | Ok (a : A)
  | Raise (e : exn)
  | Stop (x : X).
Arguments Ok {X A} a.
Arguments Raise {X A} e.
Arguments Stop {X A} x.

Definition M (X S A : Type) : Type := S -> outcome X A * S.

Definition ret {X S A} (a : A) : M X S A := fun s => (Ok a, s).

Definition raise {X S A} (e : exn) : M X S A := fun s => (Raise e, s).

Definition bind {X S A B} (m : M X S A) (k : A -> M X S B) : M X S B :=
  fun s =>
    match m s with
    | (Ok a, s') => k a s'
    | (Raise e, s') => (Raise e, s')
    | (Stop x, s') => (Stop x, s')
    end.

Declare Scope monad_scope.
Delimit Scope monad_scope with monad.
Notation "x <- m ;; k" := (bind m (fun x => k))
  (at level 100, m at next level, right associativity) : monad_scope.
Notation "m ;;; k" := (bind m (fun _ => k))
  (at level 100, right associativity) : monad_scope.
Open Scope monad_scope.

Definition when {X S} (b : bool) (m : M X S unit) : M X S unit :=
  if b then m else ret tt.

(** [for x in l: body(x)] threading an accumulator. *)
Fixpoint foldM {X S A B} (f : B -> A -> M X S B) (l : list A) (b : B)
  : M X S B :=
  match l with
  | [] => ret b
  | x :: l' => b' <- f b x ;; foldM f l' b'
  end.

(* ================================================================= *)
(** ** The operating system *)

Inductive stream : Type := Stdout | Stderr.

(** What [subprocess.check_output] can do. *)
Inductive co_result : Type :=
  | CoOutput (output : string)
  | CoCalledProcessError
  | CoOSError.

(** The oracle: [None] from [getcwd] and [chdir] is an [OSError] ([IOError]
    is the same class in Python 3); [call] gives the exit status of the child
    or the message of the [OSError] raised when it cannot be started. *)
Record OS (W : Type) : Type := mkOS {
  expanduser : string -> string;
  isdir : string -> W -> bool;
  getcwd : W -> option string;
  chdir : string -> W -> option W;
  call : list string -> W -> (Z + string) * W;
  check_output : list string -> W -> co_result * W;
  gethostname : W -> string;
  strftime : string -> W -> string
}.

(** World and what was written to the two streams, oldest first. *)
Record sys (W : Type) : Type := mkSys {
  world : W;
  out : list (stream * string)
}.

(** Bookkeeping of the engine, not data of the script: which project bodies
    were entered and which backend calls were made, oldest first. *)
Inductive mark : Type :=
  | MVisit (i : nat)
  | MSync (t : option string) (mode : string) (p : string).

Record io (W : Type) : Type := mkIo {
  io_sys : sys W;
  trace : list mark
}.

(** Computations of the script, and of the engine with its fuel. *)
Definition Sys (W A : Type) : Type := M Empty_set (sys W) A.
Definition Eng (W A : Type) : Type := M unit (io W) A.

Definition lift {W A} (m : Sys W A) : Eng W A :=
  fun s =>
    match m (io_sys s) with
    | (Ok a, y) => (Ok a, mkIo y (trace s))
    | (Raise e, y) => (Raise e, mkIo y (trace s))
    | (Stop x, y) => match x with end
    end.

Definition tell {W} (m : mark) : Eng W unit :=
  fun s => (Ok tt, mkIo (io_sys s) (trace s ++ [m])).

Definition nl : string := String (ascii_of_nat 10) EmptyString.

(** [print(text, sep='', end='', file=f)] *)
Definition write {W} (f : stream) (text : string) : Sys W unit :=
  fun s => (Ok tt, mkSys (world s) (out s ++ [(f, text)])).

(** [sep.join(values)] *)
Definition join_with (sep : string) (values : list string) : string :=
  String.concat sep values.

(** [print] of several values with [sep], [end] and [file] given. *)
Definition print {W} (values : list string) (sep end_ : string) (f : stream)
  : Sys W unit :=
  write f (cat (join_with sep values) end_).

Definition color_code (color : option string) : string + exn :=
  match color with
  | None => inl (cat esc "[0m")
  | Some c =>
      let c := lower c in
      if String.eqb c "black" then inl (cat esc "[90m")
      else if String.eqb c "red" then inl (cat esc "[91m")
      else if String.eqb c "green" then inl (cat esc "[92m")
      else if String.eqb c "yellow" then inl (cat esc "[93m")
      else if String.eqb c "blue" then inl (cat esc "[94m")
      else if String.eqb c "purple" then inl (cat esc "[95m")
      else if String.eqb c "cyan" then inl (cat esc "[96m")
      else if String.eqb c "white" then inl (cat esc "[97m")
      else inr ValueError
  end.

Definition color_print {W} (values : list string) (color : option string)
    (sep end_ : string) (f : stream) : Sys W unit :=
  match color_code color with
  | inr e => raise e
  | inl code =>
      print [code] "" "" f ;;;
      print values sep end_ f ;;;
      print [cat esc "[0m"] "" "" f
  end.

Definition project_print {W} values sep end_ f : Sys W unit :=
  color_print values None sep end_ f.
Definition path_print {W} values sep end_ f : Sys W unit :=
  color_print values (Some "blue") sep end_ f.
Definition reference_print {W} values sep end_ f : Sys W unit :=
  color_print values (Some "cyan") sep end_ f.
Definition unknown_print {W} values sep end_ f : Sys W unit :=
  color_print values (Some "purple") sep end_ f.
Definition success_print {W} values sep end_ f : Sys W unit :=
  color_print values (Some "green") sep end_ f.
Definition error_print {W} values sep end_ f : Sys W unit :=
  color_print values (Some "red") sep end_ f.

(** Truthiness of the [verbose] argument, an integer or a boolean. *)
Definition truthy (v : Z) : bool := negb (Z.eqb v 0).

(** [try: m except OSError as e: h e] *)
Definition try_OSError {X S A} (m : M X S A) (h : string -> M X S A)
  : M X S A :=
  fun s =>
    match m s with
    | (Raise (OSError msg), s') => h msg s'
    | r => r
    end.

(* ================================================================= *)
(** ** [os.path] on POSIX *)

Definition sep : string := "/".

(** [s.split('/')] *)
Fixpoint split_sep (s : string) : list string :=
  match s with
  | EmptyString => [EmptyString]
  | String c s' =>
      if Ascii.eqb c "/"%char then EmptyString :: split_sep s'
      else
        match split_sep s' with
        | [] => [String c EmptyString]
        | h :: t => String c h :: t
        end
  end.

(** [s.endswith('/')] *)
Fixpoint endswith_sep (s : string) : bool :=
  match s with
  | EmptyString => false
  | String c EmptyString => Ascii.eqb c "/"%char
  | String _ s' => endswith_sep s'
  end.

(** One round of the loop of [posixpath.normpath] over the components. *)
Definition normpath_step (initial_slashes : nat) (new_comps : list string)
    (comp : string) : list string :=
  if String.eqb comp "" || String.eqb comp "." then new_comps
  else if negb (String.eqb comp "..")
          || ((initial_slashes =? 0)%nat && match new_comps with [] => true | _ => false end)
          || match new_comps with
             | [] => false
             | _ => String.eqb (last new_comps "") ".."
             end
       then new_comps ++ [comp]
       else match new_comps with
            | [] => new_comps
            | _ => removelast new_comps
            end.

(** [posixpath.normpath] of the Python standard library. *)
Definition normpath (p : string) : string :=
  if String.eqb p "" then "."
  else
    let initial_slashes :=
      if String.prefix sep p then
        if String.prefix "//" p && negb (String.prefix "///" p) then 2 else 1
      else 0 in
    let comps := fold_left (normpath_step initial_slashes) (split_sep p) [] in
    let joined := join_with sep comps in
    let r :=
      match initial_slashes with
      | 0 => joined
      | 1 => cat "/" joined
      | _ => cat "//" joined
      end in
    if String.eqb r "" then "." else r.

(** [posixpath.join(a, b)] of the Python standard library, two arguments. *)
Definition path_join (a b : string) : string :=
  if String.prefix sep b then b
  else if String.eqb a "" || endswith_sep a then cat a b
  else cat a (cat sep b).

(* ================================================================= *)
(** ** XML elements, as [xml.etree.ElementTree] hands them over *)

#[warnings="-register-all"]
Inductive element : Type :=
  | Element (tag : string) (attrib : list (string * string))
            (text : option string) (children : list element).

Definition el_tag (e : element) : string :=
  match e with Element t _ _ _ => t end.
Definition el_attrib (e : element) : list (string * string) :=
  match e with Element _ a _ _ => a end.
Definition el_text (e : element) : option string :=
  match e with Element _ _ t _ => t end.
Definition el_children (e : element) : list element :=
  match e with Element _ _ _ c => c end.

Section WithOS.

Variable W : Type.
Variable os : OS W.

Definition isdirM (p : string) : Sys W bool :=
  fun s => (Ok (isdir os p (world s)), s).

Definition getcwdM : Sys W string :=
  fun s =>
    match getcwd os (world s) with
    | Some d => (Ok d, s)
    | None => (Raise (OSError ""), s)
    end.

Definition chdirM (p : string) : Sys W unit :=
  fun s =>
    match chdir os p (world s) with
    | Some w' => (Ok tt, mkSys w' (out s))
    | None => (Raise (OSError ""), s)
    end.

(** [subprocess.call(args, ...)]: an argument that is [None] is rejected with
    a [TypeError] before any child is started; the result is the exit
    status. *)
Definition subprocess_call (args : list (option string)) : Sys W Z :=
  match all_some args with
  | None => raise TypeError
  | Some a =>
      fun s =>
        match call os a (world s) with
        | (inl code, w') => (Ok code, mkSys w' (out s))
        | (inr msg, w') => (Raise (OSError msg), mkSys w' (out s))
        end
  end.

(** [error = error or subprocess.call(args)], as truthiness. *)
Definition or_call (error : bool) (args : list (option string))
  : Sys W bool :=
  if error then ret true
  else code <- subprocess_call args ;; ret (negb (Z.eqb code 0)).

(* ----------------------------------------------------------------- *)
(** *** [SeeliePath.__init__] *)

Definition SeeliePath_init (p : option string) (tool origin : option string)
  : Sys W SeeliePath :=
  match p with
  | None => raise TypeError
  | Some p =>
      let self_path := normpath (expanduser os p) in
      d <- isdirM self_path ;;
      let self_path := if d then path_join self_path "" else self_path in
      ret (mkPath self_path tool origin)
  end.

(* ----------------------------------------------------------------- *)
(** *** [SeelieProject.__init__] *)

(** The attributes [self.name] and [self.items] while the children are
    scanned. *)
Definition scan : Type := (option string * list item)%type.

Definition is_some {A} (o : option A) : bool :=
  match o with Some _ => true | None => false end.

Definition SeelieProject_child (verbose : Z) (i : nat) (self : scan)
    (child : element) : Sys W scan :=
  let '(self_name, self_items) := self in
  let t := lower (el_tag child) in
  if String.eqb t "name" then
    when (truthy verbose && is_some self_name)
      (print [cat "Duplicate name definition for project #"
                (cat (str_of_nat i) ":");
              cat "'" (cat (str_of_opt self_name)
                (cat "' and '" (cat (str_of_opt (el_text child)) "'")))]
         " " nl Stderr) ;;;
    ret (el_text child, self_items)
  else if String.eqb t "path" then
    let tool := attrib_get "tool" (el_attrib child) in
    let origin := attrib_get "origin" (el_attrib child) in
    p <- SeeliePath_init (el_text child) tool origin ;;
    ret (self_name, self_items ++ [IPath p])
  else if String.eqb t "reference" then
    ret (self_name, self_items ++ [IRef (mkRef (el_text child))])
  else
    when (truthy verbose)
      (print [cat "Ignored project #" (cat (str_of_nat i)
                (cat " child with tag '" (cat (el_tag child) "'")))]
         " " nl Stderr) ;;;
    ret self.

Definition SeelieProject_init (node : element) (verbose : Z) (i : nat)
  : Sys W SeelieProject :=
  let a := match attrib_get "auto" (el_attrib node) with
           | Some v => v
           | None => "true"
           end in
  let self_auto :=
    if String.eqb (lower a) "false" || String.eqb a "0" then false else true in
  self <- foldM (SeelieProject_child verbose i) (el_children node) (None, []) ;;
  when (truthy verbose && negb (is_some (fst self)))
    (print [cat "No name set for project #" (str_of_nat i)] " " nl Stderr) ;;;
  ret (mkProject (fst self) (snd self) self_auto).

(** [Seelie.xml_to_projects]; the accumulator is the counter [i] and the list
    [projs]. *)
Definition xml_to_projects_step (verbose : Z) (acc : nat * list SeelieProject)
    (proj : element) : Sys W (nat * list SeelieProject) :=
  let '(i, projs) := acc in
  let i := i + 1 in
  if negb (String.eqb (lower (el_tag proj)) "project") then
    when (truthy verbose)
      (print [cat "Ignored seelie child " (cat (str_of_nat i)
                (cat ", tag='" (cat (el_tag proj) "'")))]
         " " nl Stderr) ;;;
    ret (i, projs)
  else
    cur <- SeelieProject_init proj verbose i ;;
    ret (i, projs ++ [cur]).

Definition xml_to_projects (root : element) (verbose : Z)
  : Sys W (list SeelieProject) :=
  r <- foldM (xml_to_projects_step verbose) (el_children root) (0, []) ;;
  ret (snd r).

(* ================================================================= *)
(** ** Synchronizers *)

(** What [Seelie.apply] calls on a synchronizer: [update(path, src, merge,
    verbose)], [push(path, dest, verbose)] and [resolve(path, verbose)], each
    giving the truthiness of the returned error value. *)
Record Sync : Type := mkSync {
  update : string -> option string -> bool -> bool -> Sys W bool;
  push : string -> option string -> bool -> Sys W bool;
  resolve : string -> bool -> Sys W bool
}.

Definition or_default (o : option string) (d : string) : string :=
  match o with Some s => s | None => d end.

(** [try: os.chdir(os.path.expanduser(path)) except IOError: error = True] *)
Definition chdir_or_error (p : string) : Sys W bool :=
  try_OSError (chdirM (expanduser os p) ;;; ret false) (fun _ => ret true).

Definition GitSync_update (p : string) (src : option string)
    (merge verbose : bool) : Sys W bool :=
  let src := or_default src "origin" in
  here <- getcwdM ;;
  error <- chdir_or_error p ;;
  when verbose (print [cat esc "[97m"] "" "" Stdout) ;;;
  error <- (if merge
            then or_call error
                   [Some "git"; Some "pull"; Some src; Some "master"]
            else or_call error
                   [Some "git"; Some "pull"; Some "--rebase"; Some src;
                    Some "master"]) ;;
  when verbose (print [cat esc "[0m"] "" "" Stdout) ;;;
  chdirM here ;;;
  ret error.

(** The [try] block around [git status --porcelain]: [status] stays the
    truthy ['changes?'] when the call is skipped or fails. *)
Definition git_status (error : bool) : Sys W (bool * bool) :=
  if error then ret (true, error)
  else
    fun s =>
      match check_output os ["git"; "status"; "--porcelain"] (world s) with
      | (CoOutput o, w') =>
          (Ok (negb (String.eqb o ""), error), mkSys w' (out s))
      | (CoCalledProcessError, w') => (Ok (true, true), mkSys w' (out s))
      | (CoOSError, w') => (Raise (OSError ""), mkSys w' (out s))
      end.

Definition commit_message : Sys W string :=
  fun s =>
    (Ok (cat "seelie commit from "
           (cat (gethostname os (world s))
              (cat " at " (strftime os "%F %T %Z" (world s))))), s).

Definition GitSync_push (p : string) (dest : option string) (verbose : bool)
  : Sys W bool :=
  let dest := or_default dest "origin" in
  here <- getcwdM ;;
  error <- chdir_or_error p ;;
  when verbose (print [cat esc "[97m"] "" "" Stdout) ;;;
  error <- or_call error [Some "git"; Some "add"; Some "--all"] ;;
  r <- git_status error ;;
  let '(status, error) := r in
  error <- (if status then
              error <- (if error then ret true
                        else msg <- commit_message ;;
                             or_call false
                               [Some "git"; Some "commit"; Some "-m"; Some msg]) ;;
              or_call error [Some "git"; Some "push"; Some dest; Some "master"]
            else ret error) ;;
  when verbose (print [cat esc "[0m"] "" "" Stdout) ;;;
  chdirM here ;;;
  ret error.

Definition GitSync_resolve (p : string) (verbose : bool) : Sys W bool :=
  raise NotImplementedError.

Definition GitSync : Sync :=
  mkSync GitSync_update GitSync_push GitSync_resolve.

Definition rsync_flags (verbose : bool) : string :=
  if verbose then cat "-au" "v" else "-au".

(** The [try] block shared by [RSync.update] and [RSync.push]. *)
Definition rsync_call (verbose : bool) (args : list (option string))
  : Sys W bool :=
  try_OSError
    (code <- subprocess_call args ;; ret (negb (Z.eqb code 0)))
    (fun emsg =>
       when verbose (error_print [emsg] " " nl Stdout) ;;;
       ret true).

Definition RSync_update (p : string) (src : option string)
    (merge verbose : bool) : Sys W bool :=
  let cmd := "rsync" in
  let flags := rsync_flags verbose in
  let opts := "--delete" in
  when verbose (print [cat esc "[97m"] "" "" Stdout) ;;;
  rsync_call verbose [Some cmd; Some flags; Some opts; src; Some p].

Definition RSync_push (p : string) (dest : option string) (verbose : bool)
  : Sys W bool :=
  let cmd := "rsync" in
  let flags := rsync_flags verbose in
  let opts := "--delete" in
  when verbose (print [cat esc "[97m"] "" "" Stdout) ;;;
  rsync_call verbose [Some cmd; Some flags; Some opts; Some p; dest].

Definition RSync_resolve (p : string) (verbose : bool) : Sys W bool :=
  raise NotImplementedError.

Definition RSync : Sync := mkSync RSync_update RSync_push RSync_resolve.

(** The default dictionary of synchronizers of [Seelie.__init__]. *)
Definition default_sync : dict Sync :=
  dict_of [(Some "git", GitSync); (Some "rsync", RSync); (None, GitSync)].

(* ================================================================= *)
(** ** The registry: [Seelie.__init__] *)

Record Seelie : Type := mkSeelie {
  sync : dict Sync;
  projects : list SeelieProject;
  names : dict nat;
  autos : list (option string)
}.

(** The part of [Seelie.__init__] after the projects were read. *)
Definition Seelie_of_projects (sy : dict Sync) (projs : list SeelieProject)
  : Seelie :=
  let nm := dict_of (combine (map name projs) (seq 0 (List.length projs))) in
  let nm := if dict_mem None nm then dict_pop None nm else nm in
  mkSeelie sy projs nm (map name (filter auto projs)).

Definition Seelie_init (root : element) (sy : option (dict Sync))
    (verbose : Z) : Sys W Seelie :=
  let sy := match sy with Some d => d | None => default_sync end in
  if negb (String.eqb (lower (el_tag root)) "seelie") then raise TypeError
  else
    projs <- xml_to_projects root verbose ;;
    ret (Seelie_of_projects sy projs).

End WithOS.

(* ================================================================= *)
(** ** The traversal engine: [Seelie.apply] *)

(** The five local variables of [apply] that [apply_project] closes over. *)
Record state : Type := mkState {
  visited_paths : list string;
  visited_projects : list bool;
  error_paths : list SeeliePath;
  error_projects : list bool;
  unknown_projects : list (option string)
}.

Definition set_visited_paths (st : state) v : state :=
  mkState v (visited_projects st) (error_paths st) (error_projects st)
    (unknown_projects st).
Definition set_visited_projects (st : state) v : state :=
  mkState (visited_paths st) v (error_paths st) (error_projects st)
    (unknown_projects st).
Definition set_error_paths (st : state) v : state :=
  mkState (visited_paths st) (visited_projects st) v (error_projects st)
    (unknown_projects st).
Definition set_error_projects (st : state) v : state :=
  mkState (visited_paths st) (visited_projects st) (error_paths st) v
    (unknown_projects st).
Definition set_unknown_projects (st : state) v : state :=
  mkState (visited_paths st) (visited_projects st) (error_paths st)
    (error_projects st) v.

(** [l[i] = v] for [i] in range. *)
Fixpoint upd {A} (i : nat) (v : A) (l : list A) : list A :=
  match l, i with
  | [], _ => []
  | _ :: l', 0 => v :: l'
  | x :: l', S i' => x :: upd i' v l'
  end.

Section Engine.

Variable W : Type.

(** [l[i]], an [IndexError] out of range. *)
Definition index {X A S} (l : list A) (i : nat) : M X S A :=
  match nth_error l i with
  | Some x => ret x
  | None => raise IndexError
  end.

(** [l[i] = v], an [IndexError] out of range. *)
Definition store {X A S} (l : list A) (i : nat) (v : A) : M X S (list A) :=
  if (i <? List.length l)%nat then ret (upd i v l) else raise IndexError.

(** [d[k]], a [KeyError] when the key is missing. *)
Definition lookup {X V S} (d : dict V) (k : option string) : M X S V :=
  match dict_get k d with
  | Some v => ret v
  | None => raise KeyError
  end.

Definition out_of_fuel {S A} : M unit S A := fun s => (Stop tt, s).

Variable self : Seelie W.
Variable mode : string.
Variable verbose : Z.
(** The keyword arguments [apply] forwards to the synchronizer: the wrapper
    [update] passes [merge], the wrappers [push] and [resolve] pass none, and
    for these two modes [merge] is not used.  A direct call of [apply] with
    other arguments, which the synchronizers refuse with a [TypeError], is
    not modelled. *)
Variable merge : bool.

(** The [SeeliePath] branch of the loop body of [apply_project]. *)
Definition apply_path (it : SeeliePath) (st : state)
  : Eng W (state * bool) :=
  if py_in (VStr (path it)) (map VStr (visited_paths st)) then
    ret (st, py_in (VStr (path it)) (map VPath (error_paths st)))
  else
    when (Z.eqb verbose 1)
      (lift (path_print [tab; path it] "" "" Stdout ;;;
             project_print ["... "] "" "" Stdout)) ;;;
    let st := set_visited_paths st (set_add VStr (path it) (visited_paths st)) in
    sy <- lookup (sync self) (tool it) ;;
    error <-
      (if String.eqb mode "update" then
         tell (MSync (tool it) mode (path it)) ;;;
         lift (update sy (path it) (origin it) merge (Z.ltb 1 verbose))
       else if String.eqb mode "push" then
         tell (MSync (tool it) mode (path it)) ;;;
         lift (push sy (path it) (origin it) (Z.ltb 1 verbose))
       else if String.eqb mode "resolve" then
         tell (MSync (tool it) mode (path it)) ;;;
         lift (resolve sy (path it) (Z.ltb 1 verbose))
       else raise ValueError) ;;
    when (Z.ltb 1 verbose)
      (lift (path_print [tab; path it; " "] "" "" Stdout)) ;;;
    if error : bool then
      let st := set_error_paths st (set_add VPath it (error_paths st)) in
      when (truthy verbose) (lift (error_print ["failed!"] " " nl Stdout)) ;;;
      ret (st, true)
    else
      when (truthy verbose) (lift (success_print ["ok"] " " nl Stdout)) ;;;
      ret (st, false).

(** One round of [for item in self.projects[i]], given what the recursive call
    does; the accumulator is the captured state and [any_error]. *)
Definition apply_item (visit : nat -> state -> Eng W (state * bool))
    (acc : state * bool) (it : item) : Eng W (state * bool) :=
  let '(st, any_error) := acc in
  r <- match it with
       | IPath p => apply_path p st
       | IRef r =>
           if dict_mem (ref_name r) (names self) then
             j <- lookup (names self) (ref_name r) ;;
             visit j st
           else
             ret (set_unknown_projects st
                    (set_add VOpt (ref_name r) (unknown_projects st)), true)
       end ;;
  let '(st, error) := r in
  ret (st, any_error || error).

(** The nested helper [apply_project]; [fuel] bounds the depth of the
    recursion through references. *)
Fixpoint apply_project (fuel : nat) (i : nat) (st : state)
  : Eng W (state * bool) :=
  match fuel with
  | 0 => out_of_fuel
  | S fuel' =>
      v <- index (visited_projects st) i ;;
      if v : bool then
        e <- index (error_projects st) i ;;
        ret (st, e)
      else
        tell (MVisit i) ;;;
        vp <- store (visited_projects st) i true ;;
        let st := set_visited_projects st vp in
        when (truthy verbose)
          (p <- index (projects self) i ;;
           lift (project_print
                   [str_or (name p) (cat "project #" (str_of_nat (i + 1)))]
                   " " nl Stdout)) ;;;
        p <- index (projects self) i ;;
        r <- foldM (apply_item (apply_project fuel')) (items p) (st, false) ;;
        let '(st, any_error) := r in
        ep <- store (error_projects st) i any_error ;;
        ret (set_error_projects st ep, any_error)
  end.

(** The state [apply] starts from. *)
Definition initial_state : state :=
  let n := List.length (projects self) in
  mkState [] (repeat false n) [] (repeat false n) [].

(** The list of project indices to deal with, and the unknown selectors. *)
Definition select (selectors : option (list string))
  : Eng W (list nat * list (option string)) :=
  match selectors with
  | None =>
      ps <- foldM (fun acc n => j <- lookup (names self) n ;; ret (acc ++ [j]))
              (autos self) [] ;;
      ret (ps, [])
  | Some l =>
      ps <- foldM (fun acc n =>
                     if dict_mem (Some n) (names self)
                     then j <- lookup (names self) (Some n) ;; ret (acc ++ [j])
                     else ret acc) l [] ;;
      ret (ps, set_union VOpt []
                 (map Some (filter (fun n => negb (dict_mem (Some n) (names self))) l)))
  end.

(** Enough fuel for any chain of references: one more than there are
    projects ([apply_project_fuel] below). *)
Definition depth : nat := S (List.length (projects self)).

(** [apply] up to the end of the loop over the requested projects. *)
Definition traverse (selectors : option (list string))
  : Eng W (list nat * state) :=
  sel <- select selectors ;;
  let '(ps, unknown) := sel in
  let st := set_unknown_projects initial_state unknown in
  st <- foldM (fun st i => r <- apply_project depth i st ;; ret (fst r)) ps st ;;
  ret (ps, st).

(** The report at the end of [apply]. *)
Definition forM_ {X A S} (l : list A) (f : A -> M X S unit) : M X S unit :=
  foldM (fun _ x => f x) l tt.

Definition report_unknown (st : state) : Eng W unit :=
  match unknown_projects st with
  | [] => ret tt
  | _ =>
      lift (unknown_print ["unknown projects or references:"] " " nl Stdout) ;;;
      match sorted_names (unknown_projects st) with
      | inr e => raise e
      | inl l =>
          forM_ l (fun n =>
            lift (unknown_print [cat tab (str_of_opt n)] " " nl Stderr))
      end
  end.

Definition errors_of (selectors : option (list string)) (ps : list nat)
    (st : state) : Eng W (list string) :=
  match selectors with
  | None =>
      foldM (fun acc i =>
               e <- index (error_projects st) i ;;
               if e : bool then
                 p <- index (projects self) i ;;
                 ret (acc ++ [str_or (name p)
                                (cat "seelie project #" (str_of_nat (i + 1)))])
               else ret acc) ps []
  | Some l =>
      foldM (fun acc n =>
               if py_in (VStr n) (map VProject (projects self)) then
                 j <- lookup (names self) (Some n) ;;
                 e <- index (error_projects st) j ;;
                 if e : bool then ret (acc ++ [n]) else ret acc
               else ret acc) l []
  end.

Definition report_errors (errors : list string) : Eng W unit :=
  match errors with
  | [] => ret tt
  | _ =>
      lift (error_print ["projects with errors:"] " " nl Stderr) ;;;
      forM_ errors (fun n => lift (error_print [cat tab n] " " nl Stderr))
  end.

Definition report_paths (st : state) : Eng W unit :=
  match error_paths st with
  | [] => ret tt
  | _ =>
      lift (error_print ["repositories with errors:"] " " nl Stderr) ;;;
      forM_ (sorted_str (map path (error_paths st)))
        (fun p => lift (error_print [cat tab p] " " nl Stderr))
  end.

Definition report (selectors : option (list string)) (ps : list nat)
    (st : state) : Eng W unit :=
  if truthy verbose then
    report_unknown st ;;;
    errors <- errors_of selectors ps st ;;
    report_errors errors ;;;
    report_paths st
  else ret tt.

Definition Seelie_apply (selectors : option (list string)) : Eng W unit :=
  r <- traverse selectors ;;
  report selectors (fst r) (snd r).

End Engine.

(** The three wrappers of [apply]. *)
Definition Seelie_update {W} (self : Seelie W) (selectors : option (list string))
    (verbose : Z) (merge : bool) : Eng W unit :=
  Seelie_apply self "update" verbose merge selectors.
Definition Seelie_push {W} (self : Seelie W) (selectors : option (list string))
    (verbose : Z) : Eng W unit :=
  Seelie_apply self "push" verbose false selectors.
Definition Seelie_resolve {W} (self : Seelie W)
    (selectors : option (list string)) (verbose : Z) : Eng W unit :=
  Seelie_apply self "resolve" verbose false selectors.

(** What the engine's bookkeeping says: bodies entered, paths handed to a
    backend. *)
Fixpoint visit_log (t : list mark) : list nat :=
  match t with
  | [] => []
  | MVisit i :: t' => i :: visit_log t'
  | MSync _ _ _ :: t' => visit_log t'
  end.

Fixpoint sync_log (t : list mark) : list string :=
  match t with
  | [] => []
  | MVisit _ :: t' => sync_log t'
  | MSync _ _ p :: t' => p :: sync_log t'
  end.

(** Weakest precondition of a computation for three postconditions: normal
    return, exception, stop. *)
Definition wp {X S A} (m : M X S A) (Q : A -> S -> Prop)
    (E : exn -> S -> Prop) (O : X -> S -> Prop) (s : S) : Prop :=
  match m s with
  | (Ok a, s') => Q a s'
  | (Raise e, s') => E e s'
  | (Stop x, s') => O x s'
  end.

(** ** Specification vocabulary *)

Definition is_mode (mode : string) : bool :=
  String.eqb mode "update" || String.eqb mode "push"
  || String.eqb mode "resolve".

(** The state after a path was handed to its backend, by the returned error
    value. *)
Definition after_path (it : SeeliePath) (st : state) (error : bool) : state :=
  let st1 := set_visited_paths st (visited_paths st ++ [path it]) in
  if error then set_error_paths st1 (set_add VPath it (error_paths st))
  else st1.

(** How the path branch returns: the path was seen before, and nothing
    happens; or it is handed to a backend, once. *)
Definition path_post {W} (self : Seelie W) (mode : string) (it : SeeliePath)
    (st : state) (s : io W) (r : state * bool) (s' : io W) : Prop :=
  (In (path it) (visited_paths st) /\ r = (st, false) /\ s' = s) \/
  (~ In (path it) (visited_paths st) /\ is_mode mode = true /\
   dict_get (tool it) (sync self) <> None /\
   trace s' = trace s ++ [MSync (tool it) mode (path it)] /\
   fst r = after_path it st (snd r)).

(** How the path branch raises: no backend for the tool, no such mode, or
    whatever the backend raises. *)
Definition path_exc {W} (self : Seelie W) (mode : string) (it : SeeliePath)
    (st : state) (s : io W) (e : exn) (s' : io W) : Prop :=
  ~ In (path it) (visited_paths st) /\
  ((e = KeyError /\ dict_get (tool it) (sync self) = None /\
    trace s' = trace s) \/
   (e = ValueError /\ is_mode mode = false /\
    dict_get (tool it) (sync self) <> None /\ trace s' = trace s) \/
   (is_mode mode = true /\ dict_get (tool it) (sync self) <> None /\
    trace s' = trace s ++ [MSync (tool it) mode (path it)])).

(** Reading the two lists of flags. *)
Definition visited (st : state) (i : nat) : bool :=
  nth i (visited_projects st) false.
Definition failed (st : state) (i : nat) : bool :=
  nth i (error_projects st) false.

Fixpoint count_false (l : list bool) : nat :=
  match l with
  | [] => 0
  | b :: l' => (if b then 0 else 1) + count_false l'
  end.

(** Projects not yet visited: what the recursion through references uses
    up. *)
Definition unvisited (st : state) : nat := count_false (visited_projects st).

(** Visited projects stay visited. *)
Definition vis_le (st st' : state) : Prop :=
  List.length (visited_projects st') = List.length (visited_projects st) /\
  forall j, visited st j = true -> visited st' j = true.

(** The bookkeeping agrees with the state: a logged body has its project
    marked, a logged backend call has its path marked, nothing is logged
    twice, and the failing path objects have distinct, visited paths. *)
Definition log_inv {W} (st : state) (s : io W) : Prop :=
  (forall i, In i (visit_log (trace s)) -> visited st i = true) /\
  NoDup (visit_log (trace s)) /\
  (forall p, In p (sync_log (trace s)) -> In p (visited_paths st)) /\
  NoDup (sync_log (trace s)) /\
  (forall x, In x (error_paths st) -> In (path x) (visited_paths st)) /\
  NoDup (map path (error_paths st)).

Definition log_nodup {W} (s : io W) : Prop :=
  NoDup (visit_log (trace s)) /\ NoDup (sync_log (trace s)).

(** The selection, as plain list functions: the indices of given keys, all
    of which must be known, and the indices of the known selectors. *)
Fixpoint lookup_all {V} (d : dict V) (ks : list (option string))
  : option (list V) :=
  match ks with
  | [] => Some []
  | k :: ks' =>
      match dict_get k d, lookup_all d ks' with
      | Some v, Some vs => Some (v :: vs)
      | _, _ => None
      end
  end.

Definition known {V} (d : dict V) (l : list string) : list V :=
  flat_map (fun n => match dict_get (Some n) d with
                     | Some j => [j]
                     | None => []
                     end) l.

Definition unknown {V} (d : dict V) (l : list string) : list (option string) :=
  set_union VOpt []
    (map Some (filter (fun n => negb (dict_mem (Some n) d)) l)).

(** Every index in the name map refers to a project. *)
Definition names_ok {W} (self : Seelie W) : Prop :=
  forall k j, dict_get k (names self) = Some j -> j < List.length (projects self).

(** Both lists of flags have one entry per project. *)
Definition wf {W} (self : Seelie W) (st : state) : Prop :=
  List.length (visited_projects st) = List.length (projects self) /\
  List.length (error_projects st) = List.length (projects self).

(** What the loop leaves behind for an item it has handled: the path is
    marked, the referenced project is marked, the unknown name is recorded. *)
Definition settled {W} (self : Seelie W) (st : state) (it : item) : Prop :=
  match it with
  | IPath q => In (path q) (visited_paths st)
  | IRef r =>
      match dict_get (ref_name r) (names self) with
      | Some j => visited st j = true
      | None => In (ref_name r) (unknown_projects st)
      end
  end.

Definition unknown_ref {W} (self : Seelie W) (it : item) : Prop :=
  exists r, it = IRef r /\ dict_get (ref_name r) (names self) = None.

(** What holds of a project once its visit has returned. *)
Definition finished {W} (self : Seelie W) (st : state) (j : nat) : Prop :=
  forall p, nth_error (projects self) j = Some p ->
    (forall it, In it (items p) -> settled self st it) /\
    ((exists it, In it (items p) /\ unknown_ref self it) -> failed st j = true).

(** Some project holds a reference that resolves to project [j]. *)
Definition referenced {W} (self : Seelie W) (j : nat) : Prop :=
  exists p r, In p (projects self) /\ In (IRef r) (items p) /\
    dict_get (ref_name r) (names self) = Some j.

(** How the state grows along a run. *)
Definition ext {W} (self : Seelie W) (mode : string) (st st' : state) : Prop :=
  vis_le st st' /\ wf self st' /\
  incl (visited_paths st) (visited_paths st') /\
  incl (unknown_projects st) (unknown_projects st') /\
  (is_mode mode = false -> visited_paths st' = visited_paths st) /\
  (forall j, visited st j = true -> failed st' j = failed st j).

(** The projects visited between two states are finished and lie in [J]. *)
Definition fresh {W} (self : Seelie W) (st st' : state) (J : nat -> Prop) : Prop :=
  forall j, visited st j = false -> visited st' j = true ->
    finished self st' j /\ J j.

(** The loop invariant of a project body after the items [done]. *)
Definition body_inv {W} (self : Seelie W) (mode : string) (st1 : state)
    (done : list item) (acc : state * bool) : Prop :=
  ext self mode st1 (fst acc) /\
  fresh self st1 (fst acc) (referenced self) /\
  (forall it, In it done -> settled self (fst acc) it) /\
  ((exists it, In it done /\ unknown_ref self it) -> snd acc = true).

(** A computation of the script that returns whatever the world is. *)
Definition returns {W A} (m : Sys W A) : Prop :=
  forall y, exists a y', m y = (Ok a, y').

(** A computation of the engine that leaves the bookkeeping alone and
    does not stop. *)
Definition keeps_trace {W A} (m : Eng W A) : Prop :=
  forall s, wp m (fun _ s' => trace s' = trace s)
              (fun _ s' => trace s' = trace s) (fun _ _ => False) s.

(** A component of a normalized path: not empty, no separator at its end. *)
Definition comp_ok (c : string) : Prop := c <> "" /\ endswith_sep c = false.

(** ** A small world for examples *)

(** An operating system without state: every directory can be entered, no
    path is a directory, and every child process exits with [code]. *)
Definition demo_os (code : Z) : OS unit :=
  mkOS (fun p => p) (fun _ _ => false) (fun _ => Some "/")
    (fun _ w => Some w) (fun _ w => (inl code, w))
    (fun _ w => (CoOutput "", w)) (fun _ => "host") (fun _ _ => "now").

Definition start : io unit := mkIo (mkSys tt []) [].

(** Two projects that reference each other. *)
Definition cycle_projects : list SeelieProject :=
  [mkProject (Some "A") [IRef (mkRef (Some "B"))] true;
   mkProject (Some "B") [IRef (mkRef (Some "A"))] true].

(** Two projects that hold the same path. *)
Definition shared_path_projects : list SeelieProject :=
  [mkProject (Some "p1") [IPath (mkPath "/tmp/x" None None)] true;
   mkProject (Some "p2") [IPath (mkPath "/tmp/x" None None)] true].

(** A project without items, and one with an unknown reference. *)
Definition empty_project : list SeelieProject :=
  [mkProject (Some "a") [] true].

Definition dangling_projects : list SeelieProject :=
  [mkProject (Some "a") [IRef (mkRef (Some "nowhere"))] true].

(** The value a list of pairs gives a key when later pairs win. *)
Fixpoint assoc_last {V} (k : option string) (pairs : list (option string * V))
  : option V :=
  match pairs with
  | [] => None
  | (k', v) :: rest =>
      match assoc_last k rest with
      | Some v' => Some v'
      | None => if opt_str_eqb k k' then Some v else None
      end
  end.

(** No two projects carry the same name; every automatic project has one;
    no project holds a reference. *)
Definition distinct_names (projs : list SeelieProject) : Prop :=
  forall i j a,
    nth_error (map name projs) i = Some (Some a) ->
    nth_error (map name projs) j = Some (Some a) -> i = j.

Definition auto_named (projs : list SeelieProject) : Prop :=
  forall p, In p projs -> auto p = true -> name p <> None.

Definition no_references (projs : list SeelieProject) : Prop :=
  forall p r, In p projs -> ~ In (IRef r) (items p).

(** The indices of the automatic projects, in order, counting from [m]. *)
Fixpoint auto_from (m : nat) (projs : list SeelieProject) : list nat :=
  match projs with
  | [] => []
  | p :: rest => (if auto p then [m] else []) ++ auto_from (S m) rest
  end.

(** Two projects with one name, the first automatic, the second not. *)
Definition twin_projects : list SeelieProject :=
  [mkProject (Some "a") [] true; mkProject (Some "a") [] false].

(** The registry of the selector example: [a] automatic, [b] not. *)
Definition ab_projects : list SeelieProject :=
  [mkProject (Some "a") [IPath (mkPath "/tmp/a" None None)] true;
   mkProject (Some "b") [IPath (mkPath "/tmp/b" None None)] false].

(** A project with an rsync path that names no origin. *)
Definition rsync_projects : list SeelieProject :=
  [mkProject (Some "backup") [IPath (mkPath "/data" (Some "rsync") None)] true].

(** A project with a path for a tool nobody registered. *)
Definition svn_projects : list SeelieProject :=
  [mkProject (Some "old") [IPath (mkPath "/srv/old" (Some "svn") None)] true].

(** The children of a project element that set its name, and the text of
    the first and of the last of them. *)
Definition is_name_child (c : element) : bool :=
  String.eqb (lower (el_tag c)) "name".

Definition first_name (children : list element) : option string :=
  match filter is_name_child children with
  | c :: _ => el_text c
  | [] => None
  end.

Definition last_name (children : list element) : option string :=
  match rev (filter is_name_child children) with
  | c :: _ => el_text c
  | [] => None
  end.

(** A project element with two name children. *)
Definition two_names : element :=
  Element "project" [] None
    [Element "name" [] (Some "a") []; Element "name" [] (Some "b") []].

(** A world where the root and [/home/u/proj] are directories and [~] is
    [/home/u]. *)
Definition home_os : OS unit :=
  mkOS (fun p => if String.eqb p "~/proj" then "/home/u/proj" else p)
    (fun p _ => String.eqb p "/" || String.eqb p "//"
                || String.eqb p "/home/u/proj")
    (fun _ => Some "/") (fun _ w => Some w) (fun _ w => (inl 0%Z, w))
    (fun _ w => (CoOutput "", w)) (fun _ => "host") (fun _ _ => "now").

(** ** The report, line by line *)

(** What [color_print] writes for one value. *)
Definition colored (code : string) (f : stream) (text : string)
  : list (stream * string) :=
  [(f, code); (f, text); (f, cat esc "[0m")].

Definition purple : string := cat esc "[95m".
Definition red : string := cat esc "[91m".

(** A heading and one indented line per entry, or nothing for no entry. *)
Definition listing (code : string) (f : stream) (heading : string)
    (entries : list string) : list (stream * string) :=
  match entries with
  | [] => []
  | _ => colored code f (cat heading nl)
         ++ flat_map (fun n => colored code Stderr (cat (cat tab n) nl)) entries
  end.

Definition summary_lines (unknown_sorted errors paths_sorted : list string)
  : list (stream * string) :=
  listing purple Stdout "unknown projects or references:" unknown_sorted
  ++ listing red Stderr "projects with errors:" errors
  ++ listing red Stderr "repositories with errors:" paths_sorted.

(** How a requested project is called in the report. *)
Definition display_name {W} (self : Seelie W) (i : nat) : string :=
  match nth_error (projects self) i with
  | Some p => str_or (name p) (cat "seelie project #" (str_of_nat (i + 1)))
  | None => ""
  end.

(** The requested projects that ended in error, as the report calls them. *)
Definition failing_projects {W} (self : Seelie W) (ps : list nat) (st : state)
  : list string :=
  map (display_name self) (filter (failed st) ps).

(** The state with more lines written. *)
Definition emit {W} (s : io W) (lines : list (stream * string)) : io W :=
  mkIo (mkSys (world (io_sys s)) (out (io_sys s) ++ lines)) (trace s).

(** An automatic project that references one that is not. *)
Definition ref_projects : list SeelieProject :=
  [mkProject (Some "a") [IRef (mkRef (Some "b"))] true;
   mkProject (Some "b") [] false].

(* ================================================================= *)
(** ** The configuration, read as plain functions *)

(** The tags [SeelieProject.__init__] and [xml_to_projects] look for. *)
Definition is_path_child (c : element) : bool :=
  String.eqb (lower (el_tag c)) "path".

Definition is_reference_child (c : element) : bool :=
  String.eqb (lower (el_tag c)) "reference".

Definition is_project_child (c : element) : bool :=
  String.eqb (lower (el_tag c)) "project".

(** A path child without text: [SeeliePath] cannot be built from it. *)
Definition textless_path (c : element) : bool :=
  is_path_child c && negb (is_some (el_text c)).

(** The path string a [SeeliePath] keeps for the text [t] in the world
    [w]. *)
Definition stored_path {W} (os : OS W) (w : W) (t : string) : string :=
  let n := normpath (expanduser os t) in
  if isdir os n w then path_join n "" else n.

(** The items one child of a project element adds. *)
Definition items_of {W} (os : OS W) (w : W) (c : element) : list item :=
  if is_path_child c then
    match el_text c with
    | Some t =>
        [IPath (mkPath (stored_path os w t)
                  (attrib_get "tool" (el_attrib c))
                  (attrib_get "origin" (el_attrib c)))]
    | None => []
    end
  else if is_reference_child c then [IRef (mkRef (el_text c))]
  else [].

(** The automatic flag an [auto] attribute stands for. *)
Definition auto_of (node : element) : bool :=
  match attrib_get "auto" (el_attrib node) with
  | Some v => negb (String.eqb (lower v) "false" || String.eqb v "0")
  | None => true
  end.

(** The project a project element stands for, when it has one. *)
Definition project_of {W} (os : OS W) (w : W) (node : element)
  : option SeelieProject :=
  if existsb textless_path (el_children node) then None
  else Some (mkProject (last_name (el_children node))
               (flat_map (items_of os w) (el_children node))
               (auto_of node)).

(** All of a list of optional values, or nothing. *)
Fixpoint collect {A} (l : list (option A)) : option (list A) :=
  match l with
  | [] => Some []
  | Some x :: l' =>
      match collect l' with Some r => Some (x :: r) | None => None end
  | None :: _ => None
  end.

Definition load_projects {W} (os : OS W) (w : W) (root : element)
  : option (list SeelieProject) :=
  collect (map (project_of os w) (filter is_project_child (el_children root))).

(** A project element that cannot be read. *)
Definition broken_project (c : element) : bool :=
  is_project_child c && existsb textless_path (el_children c).

(** What reading the configuration may do to the world and the streams:
    the world stays, and what is written are warnings on the error stream,
    none of them in quiet mode. *)
Definition warned {W} (verbose : Z) (y y' : sys W) : Prop :=
  world y' = world y /\
  exists lines,
    out y' = out y ++ lines /\
    Forall (fun l => fst l = Stderr) lines /\
    (truthy verbose = false -> lines = []).

(** A project element with a path, a reference, a comment-like child and a
    name, and a configuration around it. *)
Definition sample_project : element :=
  Element "Project" [("auto", "False")] None
    [Element "path" [("tool", "rsync"); ("origin", "host:/srv")]
       (Some "~/proj") [];
     Element "note" [] (Some "ignored") [];
     Element "REFERENCE" [] (Some "other") [];
     Element "name" [] (Some "mine") []].

Definition sample_config : element :=
  Element "seelie" [] None
    [Element "settings" [] None [];
     sample_project;
     Element "project" [] None [Element "name" [] (Some "other") []]].

(* ================================================================= *)
(** ** A record of what the synchronizers ask of the operating system *)

(** A directory entered, a child process started with [subprocess.call]
    (with its exit status, or the message of the [OSError] when it could not
    be started), a child process run with [subprocess.check_output]. *)
Inductive event : Type :=
  | Chdir (p : string)
  | Call (args : list string) (status : Z + string)
  | CheckOutput (args : list string) (result : co_result).

(** Any operating system, keeping such a record beside its world. *)
Definition logged {W} (os : OS W) : OS (W * list event) :=
  mkOS (expanduser os)
    (fun p w => isdir os p (fst w))
    (fun w => getcwd os (fst w))
    (fun p w =>
       match chdir os p (fst w) with
       | Some w' => Some (w', snd w ++ [Chdir p])
       | None => None
       end)
    (fun args w =>
       let '(r, w') := call os args (fst w) in
       (r, (w', snd w ++ [Call args r])))
    (fun args w =>
       let '(r, w') := check_output os args (fst w) in
       (r, (w', snd w ++ [CheckOutput args r])))
    (fun w => gethostname os (fst w))
    (fun fmt w => strftime os fmt (fst w)).

(** The record kept so far. *)
Definition events {W} (y : sys (W * list event)) : list event :=
  snd (world y).

(** The commands of [GitSync]. *)
Definition git_pull (src : option string) (merge : bool) : list string :=
  if merge then ["git"; "pull"; or_default src "origin"; "master"]
  else ["git"; "pull"; "--rebase"; or_default src "origin"; "master"].

Definition git_add : list string := ["git"; "add"; "--all"].
Definition git_status_cmd : list string := ["git"; "status"; "--porcelain"].
Definition git_commit (message : string) : list string :=
  ["git"; "commit"; "-m"; message].
Definition git_push (dest : option string) : list string :=
  ["git"; "push"; or_default dest "origin"; "master"].

(** The error value of an exit status. *)
Definition failed_status (status : Z + string) : bool :=
  match status with
  | inl code => negb (Z.eqb code 0)
  | inr _ => true
  end.

(** The message of the commit [GitSync.push] makes. *)
Definition commit_text (host time : string) : string :=
  cat "seelie commit from " (cat host (cat " at " time)).

(** What a run added to the record. *)
Definition ran {W} (y y' : sys (W * list event)) (added : list event) : Prop :=
  events y' = events y ++ added.

(** What [GitSync] writes itself around the output of git when it is
    verbose: the code for white before, the reset code after. *)
Definition bracket (v : bool) : list (stream * string) :=
  if v then [(Stdout, cat esc "[97m"); (Stdout, cat esc "[0m")] else [].

(** What [RSync] writes itself when it is verbose: the code for white, and
    the message of the [OSError] when rsync could not be started. *)
Definition rsync_lines (v : bool) (status : Z + string)
  : list (stream * string) :=
  if v then
    (Stdout, cat esc "[97m")
    :: match status with
       | inl _ => []
       | inr msg => colored red Stdout (cat msg nl)
       end
  else [].

(* ================================================================= *)
(** ** What a run keeps *)

(** A synchronizer that writes nothing itself when it is not verbose. *)
Definition quiet_sync {W} (sy : Sync W) : Prop :=
  forall p o m y,
    out (snd (update sy p o m false y)) = out y /\
    out (snd (push sy p o false y)) = out y /\
    out (snd (resolve sy p false y)) = out y.

(** A path string that is the path of an item of a visited project. *)
Definition owned {W} (self : Seelie W) (st : state) (x : string) : Prop :=
  exists j p q,
    visited st j = true /\ nth_error (projects self) j = Some p /\
    In (IPath q) (items p) /\ path q = x.

(** The backend calls are the visited paths, in order; only visited
    projects are flagged; visited paths and failing path objects belong to
    visited projects. *)
Definition sync_inv {W} (self : Seelie W) (st : state) (s : io W) : Prop :=
  sync_log (trace s) = visited_paths st /\
  (forall j, failed st j = true -> visited st j = true) /\
  (forall x, In x (visited_paths st) -> owned self st x) /\
  (forall q, In q (error_paths st) ->
     In (path q) (visited_paths st) /\
     exists j p, visited st j = true /\
                 nth_error (projects self) j = Some p /\
                 In (IPath q) (items p)).

(* ================================================================= *)
(** ** Colour names *)

(** The colour names [color_print] knows, in the order of their codes:
    the code of the n-th name is 90 + n. *)
Definition known_colors : list string :=
  ["black"; "red"; "green"; "yellow"; "blue"; "purple"; "cyan"; "white"].

(** The first position of a string in a list. *)
Fixpoint position (x : string) (l : list string) : option nat :=
  match l with
  | [] => None
  | a :: l' =>
      if String.eqb x a then Some 0
      else match position x l' with Some n => Some (S n) | None => None end
  end.

(* ================================================================= *)
(** ** Plain paths *)

(** A string without separator. *)
Fixpoint sep_free (c : string) : bool :=
  match c with
  | EmptyString => true
  | String a c' => negb (Ascii.eqb a "/"%char) && sep_free c'
  end.

(** A component that [normpath] keeps as it is: a name, neither empty nor
    [.] nor [..]. *)
Definition plain (c : string) : bool :=
  negb (String.eqb c "") && negb (String.eqb c ".")
  && negb (String.eqb c "..") && sep_free c.

(* ================================================================= *)
(** ** A path and its synchronizer *)

(** The call [apply_project] makes on the synchronizer of a path, by the
    mode; none for a mode that is not known. *)
Definition backend_call {W} (sy : Sync W) (mode : string) (merge : bool)
    (verbose : Z) (it : SeeliePath) : option (Sys W bool) :=
  if String.eqb mode "update" then
    Some (update sy (path it) (origin it) merge (Z.ltb 1 verbose))
  else if String.eqb mode "push" then
    Some (push sy (path it) (origin it) (Z.ltb 1 verbose))
  else if String.eqb mode "resolve" then
    Some (resolve sy (path it) (Z.ltb 1 verbose))
  else None.

Definition blue : string := cat esc "[94m".

(** The streams when the synchronizer is called: at verbosity 1 the path
    has been announced. *)
Definition announced {W} (verbose : Z) (it : SeeliePath) (y : sys W) : sys W :=
  if Z.eqb verbose 1 then
    mkSys (world y)
      (out y ++ colored blue Stdout (cat tab (path it))
             ++ colored (cat esc "[0m") Stdout "... ")
  else y.

(* ================================================================= *)
(** ** What a run hands over, blames and raises *)

(** A path object that is an item of some project. *)
Definition item_of {W} (self : Seelie W) (q : SeeliePath) : Prop :=
  exists j p, nth_error (projects self) j = Some p /\ In (IPath q) (items p).

(** A path object that is an item of a visited project. *)
Definition held {W} (self : Seelie W) (st : state) (q : SeeliePath) : Prop :=
  exists j p,
    visited st j = true /\ nth_error (projects self) j = Some p /\
    In (IPath q) (items p).

(** A path object that is an item of a visited project that is flagged with
    an error. *)
Definition flagged {W} (self : Seelie W) (st : state) (q : SeeliePath)
  : Prop :=
  exists j p,
    nth_error (projects self) j = Some p /\ In (IPath q) (items p) /\
    visited st j = true /\ failed st j = true.

(** The same, for a project visited between two states. *)
Definition blamed {W} (self : Seelie W) (st st' : state) (q : SeeliePath)
  : Prop :=
  exists j p,
    nth_error (projects self) j = Some p /\ In (IPath q) (items p) /\
    visited st j = false /\ visited st' j = true /\ failed st' j = true.

(** Visited projects stay visited and keep their error flag. *)
Definition keep (st st' : state) : Prop :=
  vis_le st st' /\
  forall j, visited st j = true -> failed st' j = failed st j.

(** What a visit leaves: a failing path is an old one, or the visit returns
    an error and a project visited meanwhile is flagged for it. *)
Definition visit_post {W} (self : Seelie W) (st : state) (r : state * bool)
  : Prop :=
  keep st (fst r) /\
  forall q, In q (error_paths (fst r)) ->
    In q (error_paths st) \/ (snd r = true /\ blamed self st (fst r) q).

(** The same while the items of project [p] are handled. *)
Definition body_post {W} (self : Seelie W) (p : SeelieProject) (st1 : state)
    (acc : state * bool) : Prop :=
  keep st1 (fst acc) /\
  forall q, In q (error_paths (fst acc)) ->
    In q (error_paths st1) \/
    (snd acc = true /\
     (blamed self st1 (fst acc) q \/ In (IPath q) (items p))).

(** An exception of a run that is the exception of a path being
    processed. *)
Definition raised_by_path {W} (self : Seelie W) (mode : string) (verbose : Z)
    (merge : bool) (e : exn) (s' : io W) : Prop :=
  exists q st s1,
    item_of self q /\ ~ In (path q) (visited_paths st) /\
    apply_path self mode verbose merge q st s1 = (Raise e, s').

(** Every path handed to a synchronizer is the path of an item of a visited
    project that is not [bad], and so is every failing path. *)
Definition handed_ok {W} (self : Seelie W) (bad : SeeliePath -> Prop)
    (st : state) : Prop :=
  (forall x, In x (visited_paths st) ->
     exists q, held self st q /\ path q = x /\ ~ bad q) /\
  (forall q, In q (error_paths st) -> held self st q /\ ~ bad q).

(** Synchronizers whose verdict on a path, when they return, depends on
    the path only. *)
Definition reports {W} (self : Seelie W) (mode : string) (merge : bool)
    (verbose : Z) (verdict : string -> bool) : Prop :=
  forall q sy0 b y error y',
    item_of self q ->
    dict_get (tool q) (sync self) = Some sy0 ->
    backend_call sy0 mode merge verbose q = Some b ->
    b y = (Ok error, y') -> error = verdict (path q).

(** The projects a selection reaches: the requested ones, and those a
    reached project refers to by a known name. *)
Inductive reaches {W} (self : Seelie W) (ps : list nat) : nat -> Prop :=
  | reaches_requested i : In i ps -> reaches self ps i
  | reaches_reference i p r j :
      reaches self ps i ->
      nth_error (projects self) i = Some p ->
      In (IRef r) (items p) ->
      dict_get (ref_name r) (names self) = Some j ->
      reaches self ps j.

(** A project whose second path, reached through a reference, is an rsync
    path that names no origin. *)
Definition rsync_late_projects : list SeelieProject :=
  [mkProject (Some "main")
     [IPath (mkPath "/srv/a" (Some "rsync") (Some "host:/a"));
      IRef (mkRef (Some "side"))] true;
   mkProject (Some "side")
     [IPath (mkPath "/srv/b" (Some "rsync") (Some "host:/b"));
      IPath (mkPath "/data" (Some "rsync") None)] false].

(** A string of the ASCII range, on which [lower] is [str.lower]. *)
Definition is_ascii (s : string) : bool :=
  forallb (fun c => (nat_of_ascii c <? 128)%nat) (list_ascii_of_string s).

(* ================================================================= *)
(** * Facts *)

(** ** Equality tests and membership *)

Lemma opt_str_eqb_spec a b : reflect (a = b) (opt_str_eqb a b).
Proof.
  destruct a as [x|], b as [y|]; simpl; try (constructor; congruence).
  destruct (String.eqb_spec x y); constructor; congruence.
Qed.

Lemma SeeliePath_eqb_spec p q : reflect (p = q) (SeeliePath_eqb p q).
Proof.
  destruct p as [a b c], q as [a' b' c']; unfold SeeliePath_eqb; simpl.
  destruct (String.eqb_spec a a'); simpl; [|constructor; congruence].
  destruct (opt_str_eqb_spec b b'); simpl; [|constructor; congruence].
  destruct (opt_str_eqb_spec c c'); simpl; constructor; congruence.
Qed.

Lemma py_in_str (x : string) (l : list string) :
  py_in (VStr x) (map VStr l) = true <-> In x l.
Proof.
  unfold py_in. induction l as [|y l IH]; simpl.
  - split; [discriminate | tauto].
  - rewrite Bool.orb_true_iff, IH.
    destruct (String.eqb_spec x y); intuition congruence.
Qed.

Lemma py_in_str_false (x : string) (l : list string) :
  py_in (VStr x) (map VStr l) = false <-> ~ In x l.
Proof.
  rewrite <- py_in_str. destruct (py_in _ _); intuition congruence.
Qed.

(** A string is never found in a set of path objects. *)
Lemma py_in_str_paths (x : string) (l : list SeeliePath) :
  py_in (VStr x) (map VPath l) = false.
Proof. unfold py_in. induction l; simpl; auto. Qed.

(** A string is never found in a list of project objects. *)
Lemma py_in_str_projects (x : string) (l : list SeelieProject) :
  py_in (VStr x) (map VProject l) = false.
Proof. unfold py_in. induction l; simpl; auto. Qed.

Lemma py_in_path (x : SeeliePath) (l : list SeeliePath) :
  py_in (VPath x) (map VPath l) = true <-> In x l.
Proof.
  unfold py_in. induction l as [|y l IH]; simpl.
  - split; [discriminate | tauto].
  - rewrite Bool.orb_true_iff, IH.
    destruct (SeeliePath_eqb_spec x y); intuition congruence.
Qed.

Lemma py_in_opt (x : option string) (l : list (option string)) :
  py_in (VOpt x) (map VOpt l) = true <-> In x l.
Proof.
  unfold py_in. induction l as [|y l IH]; simpl.
  - split; [discriminate | tauto].
  - rewrite Bool.orb_true_iff, IH.
    destruct x as [x|], y as [y|]; simpl; try (intuition congruence).
    destruct (String.eqb_spec x y); intuition congruence.
Qed.

Lemma set_add_str_fresh (x : string) (l : list string) :
  ~ In x l -> set_add VStr x l = l ++ [x].
Proof.
  intros H. unfold set_add. apply py_in_str_false in H. now rewrite H.
Qed.

Lemma set_add_path_fresh (x : SeeliePath) (l : list SeeliePath) :
  ~ In x l -> set_add VPath x l = l ++ [x].
Proof.
  intros H. unfold set_add.
  destruct (py_in (VPath x) (map VPath l)) eqn:E; auto.
  apply py_in_path in E. contradiction.
Qed.

Lemma set_add_opt_in (x y : option string) (l : list (option string)) :
  In y (set_add VOpt x l) <-> y = x \/ In y l.
Proof.
  unfold set_add. destruct (py_in (VOpt x) (map VOpt l)) eqn:E.
  - apply py_in_opt in E. intuition congruence.
  - rewrite in_app_iff. simpl. intuition congruence.
Qed.

(** ** Rules for [wp] *)

Section Rules.

Context {X S : Type}.
Variable E : exn -> S -> Prop.
Variable O : X -> S -> Prop.

Lemma wp_ret {A} (a : A) (Q : A -> S -> Prop) s :
  Q a s -> wp (ret a) Q E O s.
Proof. auto. Qed.

Lemma wp_raise {A} e (Q : A -> S -> Prop) s :
  E e s -> wp (raise e) Q E O s.
Proof. auto. Qed.

Lemma wp_bind {A B} (m : M X S A) (k : A -> M X S B) Q s :
  wp m (fun a => wp (k a) Q E O) E O s -> wp (bind m k) Q E O s.
Proof.
  unfold wp, bind. destruct (m s) as [[a|e|x] s']; auto.
Qed.

Lemma wp_when (b : bool) (m : M X S unit) Q s :
  (b = true -> wp m Q E O s) -> (b = false -> Q tt s) ->
  wp (when b m) Q E O s.
Proof.
  intros H1 H2. destruct b; simpl; [apply H1|apply H2]; reflexivity.
Qed.

Lemma wp_index {A} (l : list A) i (Q : A -> S -> Prop) s :
  (forall x, nth_error l i = Some x -> Q x s) ->
  (nth_error l i = None -> E IndexError s) ->
  wp (index l i) Q E O s.
Proof.
  unfold index. destruct (nth_error l i); intros H1 H2; [apply H1|apply H2]; auto.
Qed.

Lemma wp_store {A} (l : list A) i v (Q : list A -> S -> Prop) s :
  (i < List.length l -> Q (upd i v l) s) ->
  (List.length l <= i -> E IndexError s) ->
  wp (store l i v) Q E O s.
Proof.
  unfold store. destruct (Nat.ltb_spec i (List.length l)); intros H1 H2;
    [apply H1|apply H2]; auto.
Qed.

Lemma wp_lookup {V} (d : dict V) k (Q : V -> S -> Prop) s :
  (forall v, dict_get k d = Some v -> Q v s) ->
  (dict_get k d = None -> E KeyError s) ->
  wp (lookup d k) Q E O s.
Proof.
  unfold lookup. destruct (dict_get k d); intros H1 H2; [apply H1|apply H2]; auto.
Qed.

(** The loop rule: the invariant may depend on the items already handled. *)
Lemma wp_foldM {A B} (f : B -> A -> M X S B) (I : list A -> B -> S -> Prop) :
  forall l pre b s,
    I pre b s ->
    (forall done x rest b s,
        pre ++ l = done ++ x :: rest -> I done b s ->
        wp (f b x) (I (done ++ [x])) E O s) ->
    wp (foldM f l b) (I (pre ++ l)) E O s.
Proof.
  induction l as [|x l IH]; intros pre b s HI Hstep; simpl.
  - rewrite app_nil_r. exact HI.
  - apply wp_bind.
    pose proof (Hstep pre x l b s eq_refl HI) as Hx.
    unfold wp at 1. unfold wp in Hx.
    destruct (f b x s) as [[b'|e|y] s']; auto.
    replace (pre ++ x :: l) with ((pre ++ [x]) ++ l)
      by (rewrite <- app_assoc; reflexivity).
    apply IH; auto.
    intros done x0 rest b0 s0 Heq. apply Hstep with (rest := rest).
    rewrite <- Heq, <- app_assoc. reflexivity.
Qed.

End Rules.

Lemma wp_mono {X S A} (m : M X S A) (Q Q' : A -> S -> Prop)
    (E E' : exn -> S -> Prop) (O O' : X -> S -> Prop) s :
  wp m Q E O s ->
  (forall a s', Q a s' -> Q' a s') ->
  (forall e s', E e s' -> E' e s') ->
  (forall x s', O x s' -> O' x s') ->
  wp m Q' E' O' s.
Proof.
  unfold wp. destruct (m s) as [[a|e|x] s']; auto.
Qed.

Lemma wp_lift {W A} (m : Sys W A) (Q : A -> io W -> Prop) E O s :
  (forall a y, m (io_sys s) = (Ok a, y) -> Q a (mkIo y (trace s))) ->
  (forall e y, m (io_sys s) = (Raise e, y) -> E e (mkIo y (trace s))) ->
  wp (lift m) Q E O s.
Proof.
  unfold wp, lift. destruct (m (io_sys s)) as [[a|e|[]] y]; auto.
Qed.

Lemma wp_tell {W} (k : mark) (Q : unit -> io W -> Prop) E O s :
  Q tt (mkIo (io_sys s) (trace s ++ [k])) -> wp (tell k) Q E O s.
Proof. auto. Qed.

(** ** Printing never raises *)

Lemma returns_ret {W A} (a : A) : returns (ret a : Sys W A).
Proof. intros y. exists a, y. reflexivity. Qed.

Lemma returns_bind {W A B} (m : Sys W A) (k : A -> Sys W B) :
  returns m -> (forall a, returns (k a)) -> returns (bind m k).
Proof.
  intros Hm Hk y. destruct (Hm y) as (a & y1 & E1).
  destruct (Hk a y1) as (b & y2 & E2).
  exists b, y2. unfold bind. now rewrite E1.
Qed.

Lemma returns_print {W} values sp en f : returns (@print W values sp en f).
Proof. intros y. eexists _, _. reflexivity. Qed.

Lemma returns_color_print {W} values color code sp en f :
  color_code color = inl code -> returns (@color_print W values color sp en f).
Proof.
  intros Hc. unfold color_print. rewrite Hc.
  repeat (apply returns_bind; [apply returns_print|intros _]).
  apply returns_print.
Qed.

Lemma returns_project_print {W} v sp en f : returns (@project_print W v sp en f).
Proof. eapply returns_color_print. reflexivity. Qed.
Lemma returns_path_print {W} v sp en f : returns (@path_print W v sp en f).
Proof. eapply returns_color_print. reflexivity. Qed.
Lemma returns_unknown_print {W} v sp en f : returns (@unknown_print W v sp en f).
Proof. eapply returns_color_print. reflexivity. Qed.
Lemma returns_success_print {W} v sp en f : returns (@success_print W v sp en f).
Proof. eapply returns_color_print. reflexivity. Qed.
Lemma returns_error_print {W} v sp en f : returns (@error_print W v sp en f).
Proof. eapply returns_color_print. reflexivity. Qed.

Create HintDb returns.
#[export] Hint Resolve returns_ret returns_print returns_project_print
  returns_path_print returns_unknown_print returns_success_print
  returns_error_print : returns.
#[export] Hint Extern 2 (returns (bind _ _)) =>
  (apply returns_bind; [|intro]) : returns.

Lemma wp_lift_returns {W A} (m : Sys W A) (Q : A -> io W -> Prop) E O s :
  returns m ->
  (forall a y, Q a (mkIo y (trace s))) ->
  wp (lift m) Q E O s.
Proof.
  intros Hm HQ. apply wp_lift.
  - intros a y _. apply HQ.
  - intros e y He. destruct (Hm (io_sys s)) as (a & y' & Ha). congruence.
Qed.

(** A progress message guarded by the verbosity level leaves the trace as it
    is. *)
Lemma wp_when_print {W} (b : bool) (m : Sys W unit)
    (Q : unit -> io W -> Prop) E O s :
  returns m ->
  (forall y, Q tt (mkIo y (trace s))) ->
  wp (when b (lift m)) Q E O s.
Proof.
  intros Hm HQ. apply wp_when; intros _.
  - apply wp_lift_returns; auto. intros []. apply HQ.
  - destruct s as [y t]. apply HQ.
Qed.

(** ** The path branch *)

Section PathFacts.

Variable W : Type.
Variable self : Seelie W.
Variable mode : string.
Variable verbose : Z.
Variable merge : bool.

Ltac path_tail :=
  apply wp_bind, wp_when_print; [auto with returns|]; intros ?;
  match goal with
  | |- wp (if ?e then _ else _) _ _ _ _ =>
      destruct e;
      (apply wp_bind, wp_when_print; [auto with returns|]; intros ?;
       apply wp_ret; right; simpl; auto)
  end.

Lemma apply_path_spec (it : SeeliePath) (st : state) (s : io W) :
  wp (apply_path self mode verbose merge it st)
    (path_post self mode it st s) (path_exc self mode it st s)
    (fun _ _ => False) s.
Proof.
  unfold apply_path, path_post, path_exc.
  destruct (py_in (VStr (path it)) (map VStr (visited_paths st))) eqn:Hin.
  - apply wp_ret. left. apply py_in_str in Hin.
    rewrite py_in_str_paths. auto.
  - apply py_in_str_false in Hin.
    apply wp_bind, wp_when_print; [auto with returns|]. intros y0.
    apply wp_bind, wp_lookup; [intros sy Hsy|intros Hsy].
    2:{ split; auto. }
    assert (Hsy' : dict_get (tool it) (sync self) <> None) by congruence.
    rewrite (set_add_str_fresh _ _ Hin).
    unfold is_mode.
    apply wp_bind.
    destruct (String.eqb mode "update"); [|destruct (String.eqb mode "push");
      [|destruct (String.eqb mode "resolve")]]; simpl;
    try (apply wp_bind, wp_tell, wp_lift; simpl;
         [intros error y _; path_tail
         |intros e y _; split; auto]).
    apply wp_raise. split; auto. right; left. auto.
Qed.

End PathFacts.

(** ** Lists of flags *)

Lemma length_upd {A} i (v : A) l : List.length (upd i v l) = List.length l.
Proof.
  revert i; induction l as [|x l IH]; intros [|i]; simpl; auto.
Qed.

Lemma nth_upd_same {A} i (v d : A) l :
  i < List.length l -> nth i (upd i v l) d = v.
Proof.
  revert i; induction l as [|x l IH]; intros [|i]; simpl; intros H;
    try lia; auto. apply IH. lia.
Qed.

Lemma nth_upd_other {A} i j (v d : A) l :
  i <> j -> nth j (upd i v l) d = nth j l d.
Proof.
  revert i j; induction l as [|x l IH]; intros [|i] [|j]; simpl; intros H;
    try congruence; auto.
Qed.

Lemma nth_error_nth_default {A} (l : list A) i x d :
  nth_error l i = Some x -> i < List.length l /\ nth i l d = x.
Proof.
  intros H. split.
  - apply nth_error_Some. congruence.
  - now apply nth_error_nth.
Qed.

Lemma count_false_upd i l :
  i < List.length l -> nth i l false = false ->
  S (count_false (upd i true l)) = count_false l.
Proof.
  revert i; induction l as [|x l IH]; intros [|i]; simpl; intros H1 H2;
    try lia.
  - subst. reflexivity.
  - pose proof (IH i ltac:(lia) H2). destruct x; simpl; lia.
Qed.

Lemma count_false_mono l : forall l',
  List.length l' = List.length l ->
  (forall j, nth j l false = true -> nth j l' false = true) ->
  count_false l' <= count_false l.
Proof.
  induction l as [|x l IH]; intros [|x' l']; simpl; intros HL H;
    try discriminate; auto.
  assert (count_false l' <= count_false l).
  { apply IH; [lia|]. intros j Hj. apply (H (S j)). exact Hj. }
  specialize (H 0). simpl in H.
  destruct x, x'; simpl; try lia; try (specialize (H eq_refl); discriminate).
Qed.

Lemma visit_log_app t1 t2 : visit_log (t1 ++ t2) = visit_log t1 ++ visit_log t2.
Proof.
  induction t1 as [|[i|a b c] t1 IH]; simpl; auto. now rewrite IH.
Qed.

Lemma sync_log_app t1 t2 : sync_log (t1 ++ t2) = sync_log t1 ++ sync_log t2.
Proof.
  induction t1 as [|[i|a b c] t1 IH]; simpl; auto. now rewrite IH.
Qed.

Lemma NoDup_snoc {A} (l : list A) x : NoDup l -> ~ In x l -> NoDup (l ++ [x]).
Proof.
  intros Hl Hx. apply NoDup_app.
  - exact Hl.
  - constructor; [intros []|constructor].
  - intros a Ha [Hb|[]]. subst. contradiction.
Qed.

Lemma vis_le_refl st : vis_le st st.
Proof. split; auto. Qed.

Lemma vis_le_trans st1 st2 st3 : vis_le st1 st2 -> vis_le st2 st3 -> vis_le st1 st3.
Proof. intros [L1 H1] [L2 H2]. split; [congruence|auto]. Qed.

Lemma vis_le_unvisited st st' : vis_le st st' -> unvisited st' <= unvisited st.
Proof. intros [L H]. apply count_false_mono; auto. Qed.

(** ** The invariant of the traversal *)

Section EngineFacts.

Variable W : Type.
Variable self : Seelie W.
Variable mode : string.
Variable verbose : Z.
Variable merge : bool.

Lemma after_path_flags it st e :
  visited_projects (after_path it st e) = visited_projects st /\
  error_projects (after_path it st e) = error_projects st /\
  unknown_projects (after_path it st e) = unknown_projects st /\
  visited_paths (after_path it st e) = visited_paths st ++ [path it].
Proof. unfold after_path. destruct e; simpl; auto. Qed.

Lemma log_inv_nodup st (s : io W) : log_inv st s -> log_nodup s.
Proof. unfold log_inv, log_nodup. tauto. Qed.

Lemma log_inv_path it st s r s' :
  log_inv st s -> path_post self mode it st s r s' ->
  log_inv (fst r) s' /\ vis_le st (fst r).
Proof.
  intros Hinv [(Hin & -> & ->)|(Hin & Hm & Hsy & Ht & Hr)].
  - split; [exact Hinv|apply vis_le_refl].
  - destruct r as [st' e]. simpl in Hr. subst st'. simpl.
    destruct (after_path_flags it st e) as (F1 & F2 & F3 & F4).
    destruct Hinv as (I1 & I2 & I3 & I4 & I5 & I6).
    split; [|split; [now rewrite F1|unfold visited; now rewrite F1]].
    unfold log_inv. rewrite Ht, visit_log_app, sync_log_app. simpl.
    rewrite app_nil_r, F4. unfold visited. rewrite F1.
    repeat split; auto.
    + intros p Hp. apply in_app_iff in Hp. apply in_app_iff.
      destruct Hp as [Hp|Hp]; auto.
    + apply NoDup_snoc; auto.
    + intros x Hx. apply in_app_iff. unfold after_path in Hx.
      destruct e; simpl in Hx; auto.
      unfold set_add in Hx.
      destruct (py_in (VPath it) (map VPath (error_paths st))); auto.
      apply in_app_iff in Hx. destruct Hx as [Hx|[<-|[]]]; simpl; auto.
    + unfold after_path. destruct e; simpl; auto.
      rewrite set_add_path_fresh.
      * rewrite map_app. simpl. apply NoDup_snoc; auto.
        intros Hp. apply in_map_iff in Hp. destruct Hp as (x & Hx1 & Hx2).
        apply Hin. rewrite <- Hx1. auto.
      * intros Hx. apply Hin. auto.
Qed.

Lemma log_nodup_path it st s e s' :
  log_inv st s -> path_exc self mode it st s e s' -> log_nodup s'.
Proof.
  intros (I1 & I2 & I3 & I4 & I5 & I6) (Hin & H). unfold log_nodup.
  destruct H as [(_ & _ & ->)|[(_ & _ & _ & ->)|(_ & _ & ->)]]; auto.
  rewrite visit_log_app, sync_log_app. simpl. rewrite app_nil_r.
  split; auto. apply NoDup_snoc; auto.
Qed.

Lemma apply_item_inv (visit : nat -> state -> Eng W (state * bool))
    (st0 : state) :
  (forall j st s, log_inv st s -> vis_le st0 st ->
     wp (visit j st)
       (fun r s' => log_inv (fst r) s' /\ vis_le st (fst r))
       (fun _ s' => log_nodup s') (fun _ _ => False) s) ->
  forall acc it s, log_inv (fst acc) s -> vis_le st0 (fst acc) ->
    wp (apply_item self mode verbose merge visit acc it)
      (fun r s' => log_inv (fst r) s' /\ vis_le st0 (fst r))
      (fun _ s' => log_nodup s') (fun _ _ => False) s.
Proof.
  intros Hvisit [st any] it s Hinv Hle. simpl in Hinv, Hle.
  unfold apply_item. apply wp_bind.
  destruct it as [p|r].
  - eapply wp_mono; [apply apply_path_spec| | |auto].
    + intros [st' e] s' Hp. apply wp_ret. simpl.
      destruct (log_inv_path Hinv Hp) as [H1 H2]. simpl in *.
      split; auto. eapply vis_le_trans; eauto.
    + intros e s' He. eapply log_nodup_path; eauto.
  - destruct (dict_mem (ref_name r) (names self)).
    + apply wp_bind, wp_lookup.
      * intros j _. eapply wp_mono; [apply Hvisit; auto| | |auto].
        -- intros [st' e] s' [H1 H2]. apply wp_ret. simpl in *.
           split; auto. eapply vis_le_trans; eauto.
        -- auto.
      * intros _. eapply log_inv_nodup; eauto.
    + apply wp_ret. apply wp_ret. simpl. split; auto.
Qed.

Lemma apply_project_inv fuel : forall i st s,
  log_inv st s -> unvisited st < fuel ->
  wp (apply_project self mode verbose merge fuel i st)
    (fun r s' => log_inv (fst r) s' /\ vis_le st (fst r))
    (fun _ s' => log_nodup s') (fun _ _ => False) s.
Proof.
  induction fuel as [|fuel IH]; intros i st s Hinv Hfuel; [lia|].
  simpl. apply wp_bind, wp_index.
  2:{ intros _. eapply log_inv_nodup; eauto. }
  intros [|] Hv.
  { apply wp_bind, wp_index.
    - intros e _. apply wp_ret. simpl. split; auto. apply vis_le_refl.
    - intros _. eapply log_inv_nodup; eauto. }
  destruct (nth_error_nth_default _ _ false Hv) as [Hlt Hnth].
  apply wp_bind, wp_tell, wp_bind, wp_store; [intros _|lia].
  set (st1 := set_visited_projects st (upd i true (visited_projects st))).
  set (s1 := mkIo (io_sys s) (trace s ++ [MVisit i])).
  assert (Hle1 : vis_le st st1).
  { split; simpl; [apply length_upd|].
    intros j Hj. unfold visited in *. simpl.
    destruct (Nat.eq_dec i j) as [<-|Hij]; [congruence|].
    now rewrite nth_upd_other. }
  assert (Hinv1 : log_inv st1 s1).
  { destruct Hinv as (I1 & I2 & I3 & I4 & I5 & I6).
    unfold log_inv, s1. simpl. rewrite visit_log_app, sync_log_app. simpl.
    rewrite app_nil_r. repeat split; auto.
    - intros j Hj. apply in_app_iff in Hj. destruct Hj as [Hj|[<-|[]]].
      + apply Hle1. auto.
      + unfold visited. simpl. now apply nth_upd_same.
    - apply NoDup_snoc; auto. intros Hi. apply I1 in Hi.
      unfold visited in Hi. congruence. }
  assert (Hfuel1 : unvisited st1 < fuel).
  { unfold unvisited in *. simpl.
    pose proof (count_false_upd _ Hlt Hnth). lia. }
  clearbody st1 s1.
  assert (Hprint : forall (Q : unit -> io W -> Prop),
    (forall s2, trace s2 = trace s1 -> Q tt s2) ->
    wp (when (truthy verbose)
          (p <- index (projects self) i ;;
           lift (project_print
                   [str_or (name p) (cat "project #" (str_of_nat (i + 1)))]
                   " " nl Stdout)))
      Q (fun _ s' => log_nodup s') (fun _ _ => False) s1).
  { intros Q HQ. apply wp_when; intros _; [|apply HQ; auto].
    apply wp_bind, wp_index.
    - intros p _. apply wp_lift_returns; [auto with returns|].
      intros [] y. apply HQ. reflexivity.
    - intros _. eapply log_inv_nodup; eauto. }
  apply wp_bind, Hprint. intros s2 Hs2.
  assert (Hinv2 : log_inv st1 s2).
  { unfold log_inv in *. rewrite Hs2. exact Hinv1. }
  apply wp_bind, wp_index.
  2:{ intros _. eapply log_inv_nodup; eauto. }
  intros p Hp. apply wp_bind.
  eapply wp_mono;
    [apply (wp_foldM (fun _ s' => log_nodup s') (fun _ _ => False)
              (apply_item self mode verbose merge
                 (apply_project self mode verbose merge fuel))
              (fun _ r s' => log_inv (fst r) s' /\ vis_le st1 (fst r))
              (items p) [] (st1, false) s2)
    | | |]; simpl; auto.
  - split; auto. apply vis_le_refl.
  - intros done x rest b s3 _ [H1 H2].
    apply apply_item_inv; auto.
    intros j st' s' Hinv' Hle'. apply IH; auto.
    pose proof (vis_le_unvisited Hle'). lia.
  - intros [st3 any] s3 [H1 H2]. simpl in *.
    apply wp_bind, wp_store.
    + intros Hlen. apply wp_ret. simpl. split.
      * exact H1.
      * eapply vis_le_trans; [exact Hle1|]. exact H2.
    + intros _. eapply log_inv_nodup; eauto.
Qed.

End EngineFacts.

(** ** Selection *)

Section SelectFacts.

Variable W : Type.
Variable self : Seelie W.

Lemma select_auto_loop (ks : list (option string)) : forall acc (s : io W),
  foldM (fun acc n => j <- lookup (names self) n ;; ret (acc ++ [j])) ks acc s
  = match lookup_all (names self) ks
      return outcome unit (list nat) * io W with
    | Some ps => (Ok (acc ++ ps), s)
    | None => (Raise KeyError, s)
    end.
Proof.
  induction ks as [|k ks IH]; intros acc s; simpl.
  - now rewrite app_nil_r.
  - unfold bind at 1. unfold bind at 1. unfold lookup at 1.
    destruct (dict_get k (names self)) as [j|]; simpl; auto.
    rewrite IH. destruct (lookup_all (names self) ks); auto.
    now rewrite <- app_assoc.
Qed.

Lemma select_known_loop (l : list string) : forall acc (s : io W),
  foldM (fun acc n =>
           if dict_mem (Some n) (names self)
           then j <- lookup (names self) (Some n) ;; ret (acc ++ [j])
           else ret acc) l acc s
  = ((Ok (acc ++ known (names self) l), s)
     : outcome unit (list nat) * io W).
Proof.
  induction l as [|n l IH]; intros acc s; simpl.
  - now rewrite app_nil_r.
  - unfold bind at 1. unfold dict_mem, lookup.
    destruct (dict_get (Some n) (names self)) as [j|]; simpl.
    + rewrite IH. now rewrite <- app_assoc.
    + now rewrite IH.
Qed.

Lemma select_None (s : io W) :
  select self None s
  = match lookup_all (names self) (autos self)
      return outcome unit (list nat * list (option string)) * io W with
    | Some ps => (Ok (ps, []), s)
    | None => (Raise KeyError, s)
    end.
Proof.
  unfold select. unfold bind. rewrite select_auto_loop.
  destruct (lookup_all (names self) (autos self)); reflexivity.
Qed.

Lemma select_Some (l : list string) (s : io W) :
  select self (Some l) s
  = ((Ok (known (names self) l, unknown (names self) l), s)
     : outcome unit (list nat * list (option string)) * io W).
Proof.
  unfold select. unfold bind. rewrite select_known_loop. reflexivity.
Qed.

Lemma wp_select selectors (Q : list nat * list (option string) -> io W -> Prop)
    E O s :
  (forall r, fst (select self selectors s) = Ok r -> Q r s) ->
  E KeyError s ->
  wp (select self selectors) Q E O s.
Proof.
  intros HQ HE. unfold wp. destruct selectors as [l|].
  - rewrite select_Some in *. apply HQ. reflexivity.
  - rewrite select_None in *.
    destruct (lookup_all (names self) (autos self)); auto.
Qed.

End SelectFacts.

(** ** Code that leaves the bookkeeping alone *)

Lemma keeps_ret {W A} (a : A) : keeps_trace (ret a : Eng W A).
Proof. intros s. reflexivity. Qed.

Lemma keeps_raise {W A} e : keeps_trace (raise e : Eng W A).
Proof. intros s. reflexivity. Qed.

Lemma keeps_bind {W A B} (m : Eng W A) (k : A -> Eng W B) :
  keeps_trace m -> (forall a, keeps_trace (k a)) -> keeps_trace (bind m k).
Proof.
  intros Hm Hk s. apply wp_bind.
  eapply wp_mono; [apply Hm| | |auto]; simpl; auto.
  intros a s' Hs'. eapply wp_mono; [apply Hk| | |auto]; simpl; congruence.
Qed.

Lemma keeps_lift {W A} (m : Sys W A) : keeps_trace (lift m).
Proof. intros s. apply wp_lift; auto. Qed.

Lemma keeps_index {W A} (l : list A) i : keeps_trace (index l i : Eng W A).
Proof. intros s. apply wp_index; auto. Qed.

Lemma keeps_lookup {W V} (d : dict V) k : keeps_trace (lookup d k : Eng W V).
Proof. intros s. apply wp_lookup; auto. Qed.

Lemma keeps_when {W} b (m : Eng W unit) : keeps_trace m -> keeps_trace (when b m).
Proof. intros Hm. destruct b; simpl; auto. apply keeps_ret. Qed.

Lemma keeps_foldM {W A B} (f : B -> A -> Eng W B) l :
  (forall b x, keeps_trace (f b x)) -> forall b, keeps_trace (foldM f l b).
Proof.
  intros Hf. induction l as [|x l IH]; intros b; simpl.
  - apply keeps_ret.
  - apply keeps_bind; auto.
Qed.

Lemma keeps_if {W A} (b : bool) (m1 m2 : Eng W A) :
  keeps_trace m1 -> keeps_trace m2 -> keeps_trace (if b then m1 else m2).
Proof. destruct b; auto. Qed.

Create HintDb keeps.
#[export] Hint Resolve keeps_ret keeps_raise keeps_lift keeps_index
  keeps_lookup keeps_when keeps_foldM keeps_if : keeps.
#[export] Hint Extern 2 (keeps_trace (bind _ _)) =>
  (apply keeps_bind; [|intro]) : keeps.

Section ReportFacts.

Variable W : Type.
Variable self : Seelie W.
Variable verbose : Z.

Lemma keeps_report_unknown st : keeps_trace (report_unknown (W := W) st).
Proof.
  unfold report_unknown. destruct (unknown_projects st); auto with keeps.
  apply keeps_bind; [auto with keeps|intros _].
  destruct (sorted_names _); [|auto with keeps].
  unfold forM_. apply keeps_foldM. auto with keeps.
Qed.

Lemma keeps_errors_of selectors ps st :
  keeps_trace (errors_of self selectors ps st).
Proof.
  unfold errors_of. destruct selectors as [l|].
  - apply keeps_foldM. intros acc n.
    destruct (py_in _ _); [|auto with keeps].
    apply keeps_bind; [auto with keeps|intros j].
    apply keeps_bind; [auto with keeps|intros [|]]; auto with keeps.
  - apply keeps_foldM. intros acc i.
    apply keeps_bind; [auto with keeps|intros [|]]; auto with keeps.
Qed.

Lemma keeps_report_errors errors : keeps_trace (report_errors (W := W) errors).
Proof.
  unfold report_errors. destruct errors; auto with keeps.
  apply keeps_bind; [auto with keeps|intros _].
  unfold forM_. apply keeps_foldM. auto with keeps.
Qed.

Lemma keeps_report_paths st : keeps_trace (report_paths (W := W) st).
Proof.
  unfold report_paths. destruct (error_paths st); auto with keeps.
  apply keeps_bind; [auto with keeps|intros _].
  unfold forM_. apply keeps_foldM. auto with keeps.
Qed.

Lemma keeps_report selectors ps st :
  keeps_trace (report self verbose selectors ps st).
Proof.
  unfold report. destruct (truthy verbose); [|auto with keeps].
  apply keeps_bind; [apply keeps_report_unknown|intros _].
  apply keeps_bind; [apply keeps_errors_of|intros errors].
  apply keeps_bind; [apply keeps_report_errors|intros _].
  apply keeps_report_paths.
Qed.

End ReportFacts.

(** ** The whole run *)

Section RunFacts.

Variable W : Type.
Variable self : Seelie W.
Variable mode : string.
Variable verbose : Z.
Variable merge : bool.

Lemma count_false_repeat n : count_false (repeat false n) = n.
Proof. induction n; simpl; auto. Qed.

Lemma unvisited_initial : unvisited (initial_state self) = List.length (projects self).
Proof. apply count_false_repeat. Qed.

Lemma log_inv_initial (y : sys W) unk :
  log_inv (set_unknown_projects (initial_state self) unk) (mkIo y []).
Proof.
  unfold log_inv. simpl. repeat split; try constructor; intros ? [].
Qed.

Lemma traverse_inv selectors (y : sys W) :
  wp (traverse self mode verbose merge selectors)
    (fun r s' => log_inv (snd r) s' /\ vis_le (initial_state self) (snd r))
    (fun _ s' => log_nodup s') (fun _ _ => False) (mkIo y []).
Proof.
  unfold traverse. apply wp_bind, wp_select.
  2:{ split; constructor. }
  intros [ps unk] _. apply wp_bind.
  set (st0 := set_unknown_projects (initial_state self) unk).
  eapply wp_mono;
    [apply (wp_foldM (fun _ s' => log_nodup s') (fun _ _ => False)
              (fun st i =>
                 r <- apply_project self mode verbose merge (depth self) i st ;;
                 ret (fst r))
              (fun _ st s' => log_inv st s' /\ vis_le (initial_state self) st)
              ps [] st0 (mkIo y []))
    | | |]; cbv beta; auto.
  - split; [apply log_inv_initial|]. split; auto.
  - intros done i rest st s _ [H1 H2]. apply wp_bind.
    eapply wp_mono; [apply apply_project_inv; auto| | |auto]; cbv beta; auto.
    + pose proof (vis_le_unvisited H2). rewrite unvisited_initial in *.
      unfold depth. lia.
    + intros [st' e] s' [H3 H4]. apply wp_ret. split; auto.
      eapply vis_le_trans; eauto.
Qed.

Lemma apply_inv selectors (y : sys W) :
  wp (Seelie_apply self mode verbose merge selectors)
    (fun _ s' => log_nodup s') (fun _ s' => log_nodup s')
    (fun _ _ => False) (mkIo y []).
Proof.
  unfold Seelie_apply. apply wp_bind.
  eapply wp_mono; [apply traverse_inv| | |auto]; simpl; auto.
  intros [ps st] s' [H _]. simpl in *.
  apply log_inv_nodup in H.
  eapply wp_mono; [apply keeps_report| | |auto]; simpl; auto;
    unfold log_nodup in *; intros; congruence.
Qed.

End RunFacts.

(** ** Finished projects *)

Section Completion.

Variable W : Type.
Variable self : Seelie W.
Variable mode : string.
Variable verbose : Z.
Variable merge : bool.
Hypothesis Hnames : names_ok self.

(** What an exception of a run can be. *)
Variable PE : exn -> Prop.
Hypothesis HPE : forall it st (s : io W) e s',
  path_exc self mode it st s e s' -> PE e.

Lemma ext_refl st : wf self st -> ext self mode st st.
Proof.
  intros H. unfold ext. repeat split; auto using vis_le_refl, incl_refl;
    apply H.
Qed.

Lemma ext_trans st1 st2 st3 :
  ext self mode st1 st2 -> ext self mode st2 st3 -> ext self mode st1 st3.
Proof.
  intros (A1 & A2 & A3 & A4 & A5 & A6) (B1 & B2 & B3 & B4 & B5 & B6).
  unfold ext. repeat split; try apply B2.
  - destruct A1, B1. congruence.
  - intros j Hj. apply B1, A1, Hj.
  - eapply incl_tran; eauto.
  - eapply incl_tran; eauto.
  - intros Hm. rewrite B5, A5; auto.
  - intros j Hj. rewrite B6; auto. apply A1, Hj.
Qed.

Lemma settled_ext st st' it :
  ext self mode st st' -> settled self st it -> settled self st' it.
Proof.
  intros (A1 & A2 & A3 & A4 & A5 & A6). destruct it as [q|r]; simpl.
  - apply A3.
  - destruct (dict_get (ref_name r) (names self)); [apply A1|apply A4].
Qed.

Lemma finished_ext st st' j :
  ext self mode st st' -> visited st j = true ->
  finished self st j -> finished self st' j.
Proof.
  intros Hext Hv Hfin p Hp. destruct (Hfin p Hp) as [H1 H2]. split.
  - intros it Hit. eapply settled_ext; eauto.
  - intros Hu. destruct Hext as (_ & _ & _ & _ & _ & A6). rewrite A6; auto.
Qed.

Lemma fresh_trans st1 st2 st3 (J : nat -> Prop) :
  fresh self st1 st2 J -> fresh self st2 st3 J -> ext self mode st2 st3 ->
  fresh self st1 st3 J.
Proof.
  intros F1 F2 Hext j Hj1 Hj3.
  destruct (visited st2 j) eqn:Hj2.
  - destruct (F1 j Hj1 Hj2) as [Hf HJ]. split; auto.
    eapply finished_ext; eauto.
  - apply F2; auto.
Qed.

Lemma fresh_weaken st st' (J J' : nat -> Prop) :
  (forall j, J j -> J' j) -> fresh self st st' J -> fresh self st st' J'.
Proof. intros HJ F j H1 H2. destruct (F j H1 H2). auto. Qed.

Lemma fresh_same st st' (J : nat -> Prop) :
  visited_projects st' = visited_projects st -> fresh self st st' J.
Proof. intros H j H1 H2. unfold visited in *. congruence. Qed.

Lemma ext_after_path it st e :
  wf self st -> (e = true \/ e = false -> is_mode mode = true) ->
  ext self mode st (after_path it st e).
Proof.
  intros Hwf Hm.
  destruct (after_path_flags it st e) as (F1 & F2 & F3 & F4).
  unfold ext, vis_le, wf, visited, failed. rewrite F1, F2, F3, F4.
  repeat split; auto using incl_refl; try apply Hwf.
  - apply incl_appl, incl_refl.
  - intros Hf. rewrite Hm in Hf; [discriminate|destruct e; auto].
Qed.

Lemma apply_item_done (visit : nat -> state -> Eng W (state * bool))
    (st1 : state) (p : SeelieProject) :
  In p (projects self) ->
  (forall j st s, wf self st -> j < List.length (projects self) ->
     wp (visit j st)
       (fun r _ => ext self mode st (fst r) /\ visited (fst r) j = true /\
                   fresh self st (fst r) (fun j' => j' = j \/ referenced self j'))
       (fun e _ => PE e) (fun _ _ => True) s) ->
  forall done it rest acc s,
    items p = done ++ it :: rest ->
    body_inv self mode st1 done acc ->
    wp (apply_item self mode verbose merge visit acc it)
      (fun r _ => body_inv self mode st1 (done ++ [it]) r)
      (fun e _ => PE e) (fun _ _ => True) s.
Proof.
  intros Hp Hvisit done it rest [st any] s Hitems (B1 & B2 & B3 & B4).
  simpl in B1, B2, B3, B4.
  assert (Hwf : wf self st) by apply B1.
  unfold apply_item. apply wp_bind.
  assert (Hfin : forall st' e,
    ext self mode st st' -> fresh self st st' (referenced self) ->
    settled self st' it -> (unknown_ref self it -> e = true) ->
    body_inv self mode st1 (done ++ [it]) (st', any || e)).
  { intros st' e Hext Hfresh Hset Hunk. unfold body_inv. simpl.
    split; [eapply ext_trans; eauto|].
    split; [eapply fresh_trans; eauto|].
    split.
    - intros x Hx. apply in_app_iff in Hx. destruct Hx as [Hx|[<-|[]]]; auto.
      eapply settled_ext; eauto.
    - intros (x & Hx & Hu). apply in_app_iff in Hx.
      destruct Hx as [Hx|[<-|[]]].
      + rewrite B4; eauto.
      + rewrite (Hunk Hu). apply orb_true_r. }
  destruct it as [q|r].
  - eapply wp_mono; [apply apply_path_spec| | |auto]; cbv beta.
    + intros [st' e] s' Hpost. apply wp_ret.
      destruct Hpost as [(Hin & Heq & _)|(Hin & Hm & Hsy & Ht & Hr)].
      * inversion Heq; subst. apply Hfin; auto.
        -- apply ext_refl; auto.
        -- apply fresh_same; auto.
        -- intros (r & Hr & _). discriminate.
      * simpl in Hr. subst st'. apply Hfin.
        -- apply ext_after_path; auto.
        -- apply fresh_same. apply after_path_flags.
        -- simpl. destruct (after_path_flags q st e) as (_ & _ & _ & F4).
           rewrite F4. apply in_app_iff. simpl. auto.
        -- intros (r & Hr & _). discriminate.
    + intros e s' He. eapply HPE; eauto.
  - unfold dict_mem, lookup.
    destruct (dict_get (ref_name r) (names self)) as [j|] eqn:Hj.
    + apply wp_bind, wp_ret.
      eapply wp_mono; [apply Hvisit; eauto| | |auto]; cbv beta; auto.
      intros [st' e] s' (V1 & V2 & V3). apply wp_ret. simpl in *.
      apply Hfin; auto.
      * eapply fresh_weaken; [|exact V3]. intros j' [->|Hj']; auto.
        exists p, r. repeat split; auto. rewrite Hitems.
        apply in_app_iff. simpl. auto.
      * simpl. now rewrite Hj.
      * intros (r' & Hr' & Hu). inversion Hr'; subst. congruence.
    + apply wp_ret, wp_ret. apply Hfin.
      * unfold ext, vis_le, wf, visited, failed. simpl.
        repeat split; auto using incl_refl; try apply Hwf.
        intros x Hx. apply set_add_opt_in. auto.
      * apply fresh_same. reflexivity.
      * simpl. rewrite Hj. simpl. apply set_add_opt_in. auto.
      * reflexivity.
Qed.

Lemma settled_same st st' it :
  visited_paths st' = visited_paths st ->
  visited_projects st' = visited_projects st ->
  unknown_projects st' = unknown_projects st ->
  settled self st it -> settled self st' it.
Proof.
  intros H1 H2 H3. destruct it as [q|r]; simpl; unfold visited.
  - now rewrite H1.
  - now rewrite H2, H3.
Qed.

Lemma apply_project_done fuel : forall i st s,
  wf self st -> i < List.length (projects self) ->
  wp (apply_project self mode verbose merge fuel i st)
    (fun r _ => ext self mode st (fst r) /\ visited (fst r) i = true /\
                fresh self st (fst r) (fun j => j = i \/ referenced self j))
    (fun e _ => PE e) (fun _ _ => True) s.
Proof.
  induction fuel as [|fuel IH]; intros i st s Hwf Hi; [exact I|].
  simpl. destruct Hwf as [Hw1 Hw2].
  assert (Hwf : wf self st) by (split; auto).
  destruct (nth_error (visited_projects st) i) as [v|] eqn:Hv.
  2:{ apply nth_error_None in Hv. lia. }
  destruct (nth_error_nth_default _ _ false Hv) as [_ Hnth].
  apply wp_bind, wp_index; [|congruence].
  intros v' Hv'. assert (v' = v) by congruence. subst v'. destruct v.
  { apply wp_bind, wp_index.
    - intros e _. apply wp_ret. simpl. split; [apply ext_refl; auto|].
      split; auto. apply fresh_same. reflexivity.
    - intros Hn. apply nth_error_None in Hn. lia. }
  apply wp_bind, wp_tell, wp_bind, wp_store; [intros _|lia].
  set (st1 := set_visited_projects st (upd i true (visited_projects st))).
  assert (Hv1 : forall j,
    visited st1 j = if Nat.eqb i j then true else visited st j).
  { intros j. unfold visited, st1. simpl.
    destruct (Nat.eqb_spec i j) as [<-|Hij].
    - apply nth_upd_same. lia.
    - now apply nth_upd_other. }
  assert (Hwf1 : wf self st1).
  { split; simpl; auto. now rewrite length_upd. }
  destruct (nth_error (projects self) i) as [p|] eqn:Hp.
  2:{ apply nth_error_None in Hp. lia. }
  assert (Hpin : In p (projects self)) by (eapply nth_error_In; eauto).
  match goal with
  | |- wp (bind (when _ _) ?k) ?Q ?E ?O _ =>
      assert (Hrest : forall s2 : io W, wp (k tt) Q E O s2)
  end.
  2:{ apply wp_bind, wp_when; intros _; [|apply Hrest].
      apply wp_bind, wp_index; [intros p' _|congruence].
      apply wp_lift_returns; [auto with returns|].
      intros [] y. apply Hrest. }
  intros s2. cbv beta.
  apply wp_bind, wp_index; [|congruence].
  intros p' Hp'. assert (p' = p) by congruence. subst p'.
  apply wp_bind.
  eapply wp_mono;
    [apply (wp_foldM (fun e _ => PE e) (fun _ _ => True)
              (apply_item self mode verbose merge
                 (apply_project self mode verbose merge fuel))
              (fun done r _ => body_inv self mode st1 done r)
              (items p) [] (st1, false))
    | | |]; cbv beta; auto.
  - unfold body_inv. simpl. split; [apply ext_refl; auto|].
    split; [apply fresh_same; reflexivity|].
    split; [intros ? []|intros (? & [] & _)].
  - intros done x rest b s3 Hitems HI.
    eapply apply_item_done; eauto.
  - intros [st3 any] s3 (B1 & B2 & B3 & B4). simpl in B1, B2, B3, B4.
    assert (Hwf3 : wf self st3) by apply B1.
    apply wp_bind, wp_store; [intros _|destruct Hwf3; lia].
    apply wp_ret. cbv beta. unfold fst.
    set (st4 := set_error_projects st3 (upd i any (error_projects st3))).
    assert (Hf4 : forall j,
      failed st4 j = if Nat.eqb i j then any else failed st3 j).
    { intros j. unfold failed, st4. simpl.
      destruct (Nat.eqb_spec i j) as [<-|Hij].
      - apply nth_upd_same. destruct Hwf3; lia.
      - now apply nth_upd_other. }
    assert (Hset4 : forall it, settled self st3 it -> settled self st4 it).
    { intros it. apply settled_same; reflexivity. }
    assert (Hvi3 : visited st3 i = true).
    { apply B1. rewrite Hv1, Nat.eqb_refl. reflexivity. }
    destruct B1 as (A1 & A2 & A3 & A4 & A5 & A6).
    split; [|split; [exact Hvi3|]].
    + unfold ext. repeat split.
      * unfold st4. simpl. destruct A1 as [L _]. rewrite L.
        unfold st1. simpl. apply length_upd.
      * intros j Hj. change (visited st3 j = true). apply A1.
        rewrite Hv1. destruct (Nat.eqb i j); auto.
      * unfold st4. simpl. apply Hwf3.
      * unfold st4. simpl. rewrite length_upd. apply Hwf3.
      * exact A3.
      * exact A4.
      * exact A5.
      * intros j Hj. rewrite Hf4.
        destruct (Nat.eqb_spec i j) as [<-|Hij].
        -- unfold visited in Hj. congruence.
        -- rewrite A6; auto. rewrite Hv1. destruct (Nat.eqb i j); auto.
    + intros j Hj Hj4. change (visited st3 j = true) in Hj4.
      destruct (Nat.eqb_spec i j) as [<-|Hij].
      * split; [|auto]. intros p2 Hp2. assert (p2 = p) by congruence.
        subst p2. split.
        -- intros it Hit. apply Hset4, B3, Hit.
        -- intros Hu. rewrite Hf4, Nat.eqb_refl. apply B4, Hu.
      * assert (Hj1 : visited st1 j = false).
        { rewrite Hv1. destruct (Nat.eqb_spec i j); congruence. }
        destruct (B2 j Hj1 Hj4) as [Hfin Href]. split; [|auto].
        intros p2 Hp2. destruct (Hfin p2 Hp2) as [H1 H2]. split.
        -- intros it Hit. apply Hset4, H1, Hit.
        -- intros Hu. rewrite Hf4.
           destruct (Nat.eqb_spec i j); [congruence|]. apply H2, Hu.
Qed.

End Completion.

(** ** The name map *)

Lemma dict_get_vals {V} k (d : dict V) v :
  dict_get k d = Some v -> In v (map snd d).
Proof.
  induction d as [|[k' v'] d IH]; simpl; [discriminate|].
  destruct (opt_str_eqb k k'); intros H; [left; congruence|auto].
Qed.

Lemma dict_set_vals {V} k (v v' : V) d :
  In v (map snd (dict_set k v' d)) -> v = v' \/ In v (map snd d).
Proof.
  induction d as [|[k0 v0] d IH]; simpl.
  - intuition.
  - destruct (opt_str_eqb k k0); simpl; intuition.
Qed.

Lemma dict_pop_vals {V} k (v : V) d :
  In v (map snd (dict_pop k d)) -> In v (map snd d).
Proof.
  induction d as [|[k0 v0] d IH]; simpl; auto.
  destruct (opt_str_eqb k k0); simpl; intuition.
Qed.

Lemma dict_fold_vals {V} (pairs : list (option string * V)) : forall d v,
  In v (map snd (fold_left (fun d kv => dict_set (fst kv) (snd kv) d) pairs d)) ->
  In v (map snd pairs) \/ In v (map snd d).
Proof.
  induction pairs as [|[k0 v0] pairs IH]; intros d v H; simpl in *; auto.
  apply IH in H. destruct H as [H|H]; auto.
  apply dict_set_vals in H. intuition.
Qed.

Lemma names_ok_of_projects {W} (sy : dict (Sync W)) projs :
  names_ok (Seelie_of_projects sy projs).
Proof.
  intros k j H. apply dict_get_vals in H. simpl in H.
  assert (Hin : In j (map snd (dict_of
            (combine (map name projs) (seq 0 (List.length projs)))))).
  { destruct (dict_mem None _); auto. now apply dict_pop_vals in H. }
  apply dict_fold_vals in Hin. destruct Hin as [Hin|[]].
  apply in_map_iff in Hin. destruct Hin as ([k' j'] & <- & Hin).
  apply in_combine_r in Hin. apply in_seq in Hin. simpl. lia.
Qed.

Lemma lookup_all_in {V} (d : dict V) ks : forall vs v,
  lookup_all d ks = Some vs -> In v vs -> exists k, dict_get k d = Some v.
Proof.
  induction ks as [|k ks IH]; simpl; intros vs v H Hv.
  - inversion H; subst. destruct Hv.
  - destruct (dict_get k d) as [v0|] eqn:Hk; [|discriminate].
    destruct (lookup_all d ks) as [vs0|]; [|discriminate].
    inversion H; subst. destruct Hv as [<-|Hv]; eauto.
Qed.

Lemma known_in {V} (d : dict V) l v :
  In v (known d l) <-> exists n, In n l /\ dict_get (Some n) d = Some v.
Proof.
  unfold known. rewrite in_flat_map. split.
  - intros (n & Hn & Hv). exists n. split; auto.
    destruct (dict_get (Some n) d); simpl in Hv; intuition congruence.
  - intros (n & Hn & Hv). exists n. split; auto. rewrite Hv. simpl. auto.
Qed.

Lemma select_in_names {W} (self : Seelie W) selectors (s : io W) ps unk i :
  fst (select self selectors s) = Ok (ps, unk) -> In i ps ->
  exists k, dict_get k (names self) = Some i.
Proof.
  destruct selectors as [l|].
  - rewrite select_Some. simpl. intros H Hi. inversion H; subst.
    apply known_in in Hi. destruct Hi as (n & _ & Hn). eauto.
  - rewrite select_None.
    destruct (lookup_all (names self) (autos self)) eqn:E; simpl;
      [|discriminate].
    intros H Hi. inversion H; subst. eapply lookup_all_in; eauto.
Qed.

(** ** The whole run, project by project *)

Section RunCompletion.

Variable W : Type.
Variable self : Seelie W.
Variable mode : string.
Variable verbose : Z.
Variable merge : bool.
Hypothesis Hnames : names_ok self.

Variable PE : exn -> Prop.
Hypothesis HPE : forall it st (s : io W) e s',
  path_exc self mode it st s e s' -> PE e.

Lemma visited_initial unk j :
  visited (set_unknown_projects (initial_state self) unk) j = false.
Proof.
  unfold visited. simpl. generalize (List.length (projects self)).
  revert j. intros j n. revert j. induction n; intros [|j]; simpl; auto.
Qed.

Lemma wf_initial unk : wf self (set_unknown_projects (initial_state self) unk).
Proof. split; simpl; apply repeat_length. Qed.

Lemma traverse_done selectors (s : io W) :
  wp (traverse self mode verbose merge selectors)
    (fun r _ =>
       exists unk,
         fst (select self selectors s) = Ok (fst r, unk) /\
         ext self mode (set_unknown_projects (initial_state self) unk) (snd r) /\
         (forall i, In i (fst r) -> visited (snd r) i = true) /\
         (forall j, visited (snd r) j = true ->
            finished self (snd r) j /\ (In j (fst r) \/ referenced self j)))
    (fun e _ => e = KeyError \/ PE e) (fun _ _ => True) s.
Proof.
  unfold traverse. apply wp_bind, wp_select; [|auto].
  intros [ps unk] Hsel. apply wp_bind.
  set (st0 := set_unknown_projects (initial_state self) unk).
  eapply wp_mono;
    [apply (wp_foldM (fun e _ => e = KeyError \/ PE e) (fun _ _ => True)
              (fun st i =>
                 r <- apply_project self mode verbose merge (depth self) i st ;;
                 ret (fst r))
              (fun done st _ =>
                 ext self mode st0 st /\
                 (forall i, In i done -> visited st i = true) /\
                 fresh self st0 st (fun j => In j ps \/ referenced self j))
              ps [] st0 s)
    | | |]; cbv beta; auto.
  - split; [apply ext_refl, wf_initial|].
    split; [intros ? []|apply fresh_same; reflexivity].
  - intros done i rest st s1 Hps (H1 & H2 & H3). simpl in Hps.
    assert (Hi : In i ps).
    { rewrite Hps. apply in_app_iff. simpl. auto. }
    assert (Hlt : i < List.length (projects self)).
    { destruct (@select_in_names W self selectors s ps unk i Hsel Hi)
        as (k & Hk). eauto. }
    apply wp_bind.
    eapply wp_mono;
      [eapply apply_project_done with (PE := PE); eauto; apply H1
      | | |auto]; cbv beta; auto.
    intros [st' e] s' (V1 & V2 & V3). apply wp_ret. simpl in *.
    split; [eapply ext_trans; eauto|]. split.
    + intros x Hx. apply in_app_iff in Hx. destruct Hx as [Hx|[<-|[]]]; auto.
      apply V1. auto.
    + eapply fresh_trans; eauto.
      eapply fresh_weaken; [|exact V3]. intros j [->|Hj]; auto.
  - intros st s1 (H1 & H2 & H3). apply wp_ret. simpl.
    exists unk. split; [auto|]. split; [exact H1|].
    split; [intros i Hi; apply H2; auto|].
    intros j Hj. apply H3; auto. apply visited_initial.
Qed.

End RunCompletion.

(** ** Reading a [wp] fact at a known result *)

Lemma wp_Ok_inv {X S A} (m : M X S A) Q E O s a s' :
  wp m Q E O s -> m s = (Ok a, s') -> Q a s'.
Proof. unfold wp. intros H Hm. now rewrite Hm in H. Qed.

Lemma set_union_opt_in (l s : list (option string)) x :
  In x (set_union VOpt s l) <-> In x s \/ In x l.
Proof.
  unfold set_union. revert s. induction l as [|y l IH]; intros s; simpl.
  - tauto.
  - rewrite IH, set_add_opt_in. intuition congruence.
Qed.

Lemma unknown_in {V} (d : dict V) l n :
  In n l -> dict_get (Some n) d = None -> In (Some n) (unknown d l).
Proof.
  intros Hn Hd. unfold unknown. apply set_union_opt_in. right.
  apply in_map, filter_In. split; auto. unfold dict_mem. now rewrite Hd.
Qed.

Lemma traverse_raises_apply {W} (self : Seelie W) mode verbose merge selectors
    (s s' : io W) e :
  traverse self mode verbose merge selectors s = (Raise e, s') ->
  Seelie_apply self mode verbose merge selectors s = (Raise e, s').
Proof. intros H. unfold Seelie_apply, bind. now rewrite H. Qed.

(** ** Looking names up *)

Lemma dict_get_set {V} k k' (v : V) d :
  dict_get k (dict_set k' v d)
  = if opt_str_eqb k k' then Some v else dict_get k d.
Proof.
  induction d as [|[k0 v0] d IH]; simpl.
  - reflexivity.
  - destruct (opt_str_eqb_spec k' k0) as [<-|Hne]; simpl.
    + destruct (opt_str_eqb k k'); reflexivity.
    + rewrite IH. destruct (opt_str_eqb_spec k k0) as [->|Hne'].
      * destruct (opt_str_eqb_spec k0 k'); congruence.
      * reflexivity.
Qed.

Lemma dict_get_fold {V} k (pairs : list (option string * V)) : forall d,
  dict_get k (fold_left (fun d kv => dict_set (fst kv) (snd kv) d) pairs d)
  = match assoc_last k pairs with
    | Some v => Some v
    | None => dict_get k d
    end.
Proof.
  induction pairs as [|[k0 v0] pairs IH]; intros d; simpl.
  - reflexivity.
  - rewrite IH. destruct (assoc_last k pairs); auto.
    simpl. rewrite dict_get_set. destruct (opt_str_eqb k k0); reflexivity.
Qed.

Lemma dict_get_pop_other {V} k k' (d : dict V) :
  opt_str_eqb k k' = false -> dict_get k (dict_pop k' d) = dict_get k d.
Proof.
  intros Hne. induction d as [|[k0 v0] d IH]; simpl; auto.
  destruct (opt_str_eqb_spec k' k0) as [<-|Hne0]; simpl.
  - now rewrite Hne.
  - now rewrite IH.
Qed.

Lemma names_get {W} (sy : dict (Sync W)) projs a :
  dict_get (Some a) (names (Seelie_of_projects sy projs))
  = assoc_last (Some a) (combine (map name projs) (seq 0 (List.length projs))).
Proof.
  simpl.
  assert (H : forall d : dict nat,
            dict_get (Some a) (if dict_mem None d then dict_pop None d else d)
            = dict_get (Some a) d).
  { intros d. destruct (dict_mem None d); auto.
    now apply dict_get_pop_other. }
  rewrite H. unfold dict_of. rewrite dict_get_fold.
  destruct (assoc_last _ _); reflexivity.
Qed.

Lemma assoc_last_combine_inv k (ks : list (option string)) : forall m v,
  assoc_last k (combine ks (seq m (List.length ks))) = Some v ->
  exists i, v = m + i /\ nth_error ks i = Some k.
Proof.
  induction ks as [|k0 ks IH]; intros m v; simpl; [discriminate|].
  destruct (assoc_last k (combine ks (seq (S m) (List.length ks)))) eqn:E.
  - intros H. inversion H; subst. destruct (IH _ _ E) as (i & -> & Hi).
    exists (S i). split; [lia|exact Hi].
  - destruct (opt_str_eqb_spec k k0) as [->|Hne]; [|discriminate].
    intros H. inversion H; subst. exists 0. split; [lia|reflexivity].
Qed.

Lemma assoc_last_combine k (ks : list (option string)) : forall m i,
  (forall i j, nth_error ks i = Some k -> nth_error ks j = Some k -> i = j) ->
  nth_error ks i = Some k ->
  assoc_last k (combine ks (seq m (List.length ks))) = Some (m + i).
Proof.
  induction ks as [|k0 ks IH]; intros m i Huniq Hi; [destruct i; discriminate|].
  simpl.
  destruct (assoc_last k (combine ks (seq (S m) (List.length ks)))) eqn:E.
  - destruct (assoc_last_combine_inv _ _ _ E) as (i' & -> & Hi').
    assert (i = S i') by (apply Huniq; auto). subst i. f_equal. lia.
  - destruct i as [|i].
    + simpl in Hi. inversion Hi; subst.
      destruct (opt_str_eqb_spec k k); [f_equal; lia|congruence].
    + simpl in Hi. rewrite (IH (S m) i) in E; [discriminate| |exact Hi].
      intros a b Ha Hb. assert (S a = S b) by (apply Huniq; auto). lia.
Qed.

Lemma names_of_distinct {W} (sy : dict (Sync W)) projs a i :
  distinct_names projs ->
  (dict_get (Some a) (names (Seelie_of_projects sy projs)) = Some i
   <-> exists p, nth_error projs i = Some p /\ name p = Some a).
Proof.
  intros Hd. rewrite names_get. rewrite <- (length_map name). split.
  - intros H. apply assoc_last_combine_inv in H.
    destruct H as (i' & -> & Hi). simpl.
    rewrite nth_error_map in Hi.
    destruct (nth_error projs i') as [p|]; [|discriminate].
    exists p. split; auto. simpl in Hi. congruence.
  - intros (p & Hp & Hn).
    assert (Hi : nth_error (map name projs) i = Some (Some a)).
    { rewrite nth_error_map, Hp. simpl. congruence. }
    apply (assoc_last_combine (map name projs) 0) in Hi; auto.
    intros x y. apply Hd.
Qed.

Lemma lookup_autos (d : dict nat) (projs : list SeelieProject) : forall m,
  (forall i p, nth_error projs i = Some p -> auto p = true ->
     dict_get (name p) d = Some (m + i)) ->
  lookup_all d (map name (filter auto projs)) = Some (auto_from m projs).
Proof.
  induction projs as [|p projs IH]; intros m H; simpl; auto.
  assert (IH' : lookup_all d (map name (filter auto projs))
                = Some (auto_from (S m) projs)).
  { apply IH. intros i q Hq Ha. rewrite (H (S i) q); auto. f_equal. lia. }
  destruct (auto p) eqn:Ha; simpl; auto.
  rewrite (H 0 p eq_refl Ha), IH'. f_equal. f_equal. lia.
Qed.

(** ** The first item of the first requested project *)

Lemma select_state {W} (self : Seelie W) selectors (s : io W) :
  snd (select self selectors s) = s.
Proof.
  destruct selectors as [l|].
  - now rewrite select_Some.
  - rewrite select_None. now destruct (lookup_all _ _).
Qed.

Lemma nth_error_repeat_lt {A} (x : A) n i :
  i < n -> nth_error (repeat x n) i = Some x.
Proof.
  revert i. induction n; intros [|i] H; simpl; try lia; auto.
  apply IHn. lia.
Qed.

Lemma traverse_first_item {W} (self : Seelie W) mode verbose merge selectors
    (s : io W) i ps unk p it rest e :
  fst (select self selectors s) = Ok (i :: ps, unk) ->
  nth_error (projects self) i = Some p ->
  items p = it :: rest ->
  (forall st any (s1 : io W), visited_paths st = [] ->
     wp (apply_item self mode verbose merge
           (apply_project self mode verbose merge (List.length (projects self)))
           (st, any) it)
        (fun _ _ => False) (fun e' _ => e' = e) (fun _ _ => False) s1) ->
  exists s', traverse self mode verbose merge selectors s = (Raise e, s').
Proof.
  intros Hsel Hp Hitems Hitem.
  assert (Hi : i < List.length (projects self)).
  { apply nth_error_Some. congruence. }
  assert (Hwp : wp (traverse self mode verbose merge selectors)
                  (fun _ _ => False) (fun e' _ => e' = e) (fun _ _ => False) s).
  { unfold traverse. apply wp_bind. unfold wp at 1.
    rewrite (surjective_pairing (select self selectors s)), Hsel, select_state.
    cbn [foldM]. apply wp_bind, wp_bind, wp_bind.
    unfold depth. cbn [apply_project].
    apply wp_bind, wp_index.
    2:{ intros Hn. exfalso. apply nth_error_None in Hn. simpl in Hn.
        rewrite repeat_length in Hn. lia. }
    intros v Hv. simpl in Hv. rewrite nth_error_repeat_lt in Hv by auto.
    inversion Hv; subst v.
    apply wp_bind, wp_tell, wp_bind, wp_store.
    2:{ intros Hn. exfalso. simpl in Hn. rewrite repeat_length in Hn. lia. }
    intros _.
    match goal with
    | |- wp (bind (when _ _) ?k) ?Q ?E ?O _ =>
        assert (Hrest : forall s2 : io W, wp (k tt) Q E O s2)
    end.
    2:{ apply wp_bind, wp_when; intros _; [|apply Hrest].
        apply wp_bind, wp_index; [intros p' _|congruence].
        apply wp_lift_returns; [auto with returns|].
        intros [] y. apply Hrest. }
    intros s2. cbv beta.
    apply wp_bind, wp_index; [|congruence].
    intros p' Hp'. assert (p' = p) by congruence. subst p'.
    rewrite Hitems. cbn [foldM]. apply wp_bind, wp_bind.
    eapply wp_mono; [apply Hitem; reflexivity| | |]; cbv beta; tauto. }
  unfold wp in Hwp.
  destruct (traverse self mode verbose merge selectors s) as [[a|e'|x] s'];
    try contradiction.
  subst e'. eauto.
Qed.

Lemma all_some_None l : In None l -> all_some l = None.
Proof.
  induction l as [|[x|] l IH]; simpl; intros H; auto.
  - destruct H.
  - destruct H as [H|H]; [discriminate|]. now rewrite IH.
Qed.

Lemma rsync_call_None {W} (os : OS W) v args y :
  In None args -> rsync_call os v args y = (Raise TypeError, y).
Proof.
  intros H. unfold rsync_call, try_OSError, bind, subprocess_call.
  now rewrite (all_some_None _ H).
Qed.

Lemma RSync_update_None {W} (os : OS W) p m v y :
  fst (RSync_update os p None m v y) = Raise TypeError.
Proof.
  unfold RSync_update, bind.
  destruct (when v _ y) as [[[]|e|[]] y1] eqn:E.
  - rewrite rsync_call_None; [reflexivity|simpl; tauto].
  - destruct v; discriminate E.
Qed.

Lemma RSync_push_None {W} (os : OS W) p v y :
  fst (RSync_push os p None v y) = Raise TypeError.
Proof.
  unfold RSync_push, bind.
  destruct (when v _ y) as [[[]|e|[]] y1] eqn:E.
  - rewrite rsync_call_None; [reflexivity|simpl; tauto].
  - destruct v; discriminate E.
Qed.

Lemma set_add_path_in (x : SeeliePath) l : In x (set_add VPath x l).
Proof.
  unfold set_add. destruct (py_in (VPath x) (map VPath l)) eqn:E.
  - now apply py_in_path.
  - apply in_app_iff. simpl. auto.
Qed.

Lemma GitSync_update_unreachable {W} (os : OS W) q src m v y here w' :
  getcwd os (world y) = Some here ->
  chdir os (expanduser os q) (world y) = None ->
  chdir os here (world y) = Some w' ->
  fst (GitSync_update os q src m v y) = Ok true.
Proof.
  intros Hcwd Hgone Hback.
  unfold GitSync_update, bind at 1, getcwdM. rewrite Hcwd.
  unfold bind at 1, chdir_or_error, try_OSError, bind at 1, chdirM.
  rewrite Hgone.
  destruct v, m; cbn; unfold bind; cbn; rewrite Hback; reflexivity.
Qed.

Lemma RSync_update_OSError {W} (os : OS W) q src m v y msg w' :
  call os ["rsync"; rsync_flags v; "--delete"; src; q] (world y) = (inr msg, w') ->
  fst (RSync_update os q (Some src) m v y) = Ok true.
Proof.
  intros Hcall. unfold RSync_update, rsync_call, try_OSError, subprocess_call.
  destruct v; cbn in *; unfold bind; cbn; rewrite Hcall; reflexivity.
Qed.

(** ** Reading a project element *)

Lemma last_name_snoc done c :
  last_name (done ++ [c])
  = if is_name_child c then el_text c else last_name done.
Proof.
  unfold last_name. rewrite filter_app. simpl.
  destruct (is_name_child c).
  - now rewrite rev_app_distr.
  - now rewrite app_nil_r.
Qed.

Section ProjectFacts.

Variable W : Type.
Variable os : OS W.
Variable verbose : Z.
Variable i : nat.

Lemma wp_print values sp en f (Q : unit -> sys W -> Prop) E O y :
  Q tt (mkSys (world y) (out y ++ [(f, cat (join_with sp values) en)])) ->
  wp (print values sp en f) Q E O y.
Proof. auto. Qed.

Lemma SeelieProject_child_spec self c (y : sys W) :
  wp (SeelieProject_child os verbose i self c)
    (fun r y' =>
       fst r = (if is_name_child c then el_text c else fst self) /\
       world y' = world y /\
       (truthy verbose = false -> out y' = out y))
    (fun _ _ => lower (el_tag c) = "path" /\ el_text c = None)
    (fun _ _ => False) y.
Proof.
  destruct self as [nm its]. unfold SeelieProject_child, is_name_child.
  destruct (String.eqb (lower (el_tag c)) "name") eqn:Hname.
  { apply wp_bind, wp_when; intros Hv.
    - apply wp_print, wp_ret. simpl. repeat split.
      intros Hf. rewrite Hf in Hv. discriminate.
    - apply wp_ret. simpl. auto. }
  destruct (String.eqb_spec (lower (el_tag c)) "path") as [Hpath|Hpath].
  { apply wp_bind. unfold SeeliePath_init.
    destruct (el_text c) as [t|].
    - apply wp_bind. unfold wp, isdirM. apply wp_ret, wp_ret. simpl. auto.
    - apply wp_raise. auto. }
  destruct (String.eqb (lower (el_tag c)) "reference").
  { apply wp_ret. simpl. auto. }
  apply wp_bind, wp_when; intros Hv.
  - apply wp_print, wp_ret. simpl. repeat split.
    intros Hf. unfold truthy in *. congruence.
  - apply wp_ret. simpl. auto.
Qed.

Lemma SeelieProject_init_spec node (y : sys W) :
  wp (SeelieProject_init os node verbose i)
    (fun p y' =>
       name p = last_name (el_children node) /\
       world y' = world y /\
       (truthy verbose = false -> out y' = out y))
    (fun _ _ =>
       exists c, In c (el_children node) /\
                 lower (el_tag c) = "path" /\ el_text c = None)
    (fun _ _ => False) y.
Proof.
  unfold SeelieProject_init. apply wp_bind.
  eapply wp_mono;
    [apply (wp_foldM
              (fun _ _ =>
                 exists c, In c (el_children node) /\
                           lower (el_tag c) = "path" /\ el_text c = None)
              (fun _ _ => False)
              (SeelieProject_child os verbose i)
              (fun done r y' =>
                 fst r = last_name done /\ world y' = world y /\
                 (truthy verbose = false -> out y' = out y))
              (el_children node) [] (None, []) y)
    | | |]; cbv beta; auto.
  - intros done c rest self y1 Hch (H1 & H2 & H3). simpl in Hch.
    eapply wp_mono; [apply SeelieProject_child_spec| | |auto]; cbv beta.
    + intros r y2 (R1 & R2 & R3). rewrite last_name_snoc, R1, H1.
      repeat split; auto; try congruence.
      intros Hv. rewrite R3, H3; auto.
    + intros _ _ (P1 & P2). exists c. repeat split; auto.
      rewrite Hch. apply in_app_iff. simpl. auto.
  - intros [nm its] y1 (H1 & H2 & H3). simpl in H1.
    apply wp_bind, wp_when; intros Hv.
    + apply wp_print, wp_ret. simpl. repeat split; auto.
      intros Hf. rewrite Hf in Hv. discriminate.
    + apply wp_ret. simpl. auto.
Qed.

End ProjectFacts.

(** ** Normalized paths *)

Lemma cat_nil_r a : cat a "" = a.
Proof. unfold cat. induction a; simpl; congruence. Qed.

Lemma endswith_sep_cat a b :
  b <> "" -> endswith_sep (cat a b) = endswith_sep b.
Proof.
  intros Hb. unfold cat. induction a as [|c a IH]; simpl; auto.
  destruct (String.append a b) eqn:E; auto.
  destruct a; simpl in E; congruence.
Qed.

Lemma cat_not_nil a b : b <> "" -> cat a b <> "".
Proof. unfold cat. destruct a; simpl; congruence. Qed.

Lemma split_sep_ends s :
  Forall (fun c => endswith_sep c = false) (split_sep s).
Proof.
  induction s as [|c s IH]; simpl.
  - constructor; auto.
  - destruct (Ascii.eqb c "/") eqn:E.
    + constructor; auto.
    + destruct (split_sep s) as [|h t]; inversion IH; subst;
        constructor; auto.
      simpl. destruct h; auto.
Qed.

Lemma Forall_removelast {A} (P : A -> Prop) l :
  Forall P l -> Forall P (removelast l).
Proof.
  induction l as [|x l IH]; simpl; auto.
  intros H. inversion H; subst. destruct l; auto.
Qed.

Lemma normpath_step_ok n comps c :
  Forall comp_ok comps -> endswith_sep c = false ->
  Forall comp_ok (normpath_step n comps c).
Proof.
  intros Hc Hend. unfold normpath_step.
  destruct (String.eqb_spec c ""); simpl; auto.
  destruct (String.eqb c "."); simpl; auto.
  match goal with |- Forall _ (if ?b then _ else _) => destruct b end.
  - apply Forall_app. split; auto. constructor; [split|]; auto.
  - destruct comps; auto. now apply Forall_removelast.
Qed.

Lemma normpath_fold_ok n cs : forall comps,
  Forall comp_ok comps -> Forall (fun c => endswith_sep c = false) cs ->
  Forall comp_ok (fold_left (normpath_step n) cs comps).
Proof.
  induction cs as [|c cs IH]; intros comps H1 H2; simpl; auto.
  inversion H2; subst. apply IH; auto. now apply normpath_step_ok.
Qed.

Lemma join_ok comps :
  Forall comp_ok comps -> comps <> [] ->
  comp_ok (join_with sep comps).
Proof.
  induction comps as [|c comps IH]; intros H Hne; [congruence|].
  inversion H as [|? ? [Hc1 Hc2] Hrest]; subst.
  unfold join_with in *. simpl. destruct comps as [|c' comps]; [split; auto|].
  assert (Hj : comp_ok (String.concat sep (c' :: comps))).
  { apply IH; auto. discriminate. }
  destruct Hj as [Hj1 Hj2].
  change (comp_ok (cat c (cat sep (String.concat sep (c' :: comps))))).
  split.
  - apply cat_not_nil, cat_not_nil, Hj1.
  - rewrite endswith_sep_cat by (apply cat_not_nil, Hj1).
    rewrite endswith_sep_cat by exact Hj1. exact Hj2.
Qed.

Lemma normpath_ends p :
  normpath p <> "" /\
  (endswith_sep (normpath p) = true -> normpath p = "/" \/ normpath p = "//").
Proof.
  unfold normpath. destruct (String.eqb p ""); [split; [discriminate|discriminate]|].
  set (n := if String.prefix sep p
            then if String.prefix "//" p && negb (String.prefix "///" p)
                 then 2 else 1
            else 0).
  assert (Hok : Forall comp_ok (fold_left (normpath_step n) (split_sep p) [])).
  { apply normpath_fold_ok; [constructor|apply split_sep_ends]. }
  destruct (fold_left (normpath_step n) (split_sep p) []) as [|c cs].
  - unfold join_with. simpl.
    destruct n as [|[|n]]; simpl; split; try discriminate; auto.
  - assert (Hj : comp_ok (join_with sep (c :: cs))).
    { apply join_ok; auto. discriminate. }
    destruct Hj as [Hj1 Hj2].
    set (j := join_with sep (c :: cs)) in *.
    assert (Hr : forall pre, cat pre j <> "" /\ endswith_sep (cat pre j) = false).
    { intros pre. split; [now apply cat_not_nil|now rewrite endswith_sep_cat]. }
    destruct n as [|[|n]].
    + destruct (String.eqb_spec j ""); [congruence|]. split; auto.
      intros H. congruence.
    + destruct (Hr "/") as [R1 R2].
      destruct (String.eqb_spec (cat "/" j) ""); [congruence|]. split; auto.
      intros H. congruence.
    + destruct (Hr "//") as [R1 R2].
      destruct (String.eqb_spec (cat "//" j) ""); [congruence|]. split; auto.
      intros H. congruence.
Qed.

Lemma path_join_ends a : a <> "" -> endswith_sep (path_join a "") = true.
Proof.
  intros Ha. unfold path_join. simpl.
  destruct (String.eqb_spec a ""); [congruence|]. simpl.
  destruct (endswith_sep a) eqn:E.
  - now rewrite cat_nil_r.
  - rewrite endswith_sep_cat; [reflexivity|discriminate].
Qed.

Lemma bind_Ok {X S A B} (m : M X S A) (k : A -> M X S B) s a s' r :
  m s = (Ok a, s') -> k a s' = r -> bind m k s = r.
Proof. intros Hm Hk. unfold bind. now rewrite Hm. Qed.

(** ** What the report writes *)

Lemma emit_nil {W} (s : io W) : emit s [] = s.
Proof. destruct s as [[w o] t]. unfold emit. simpl. now rewrite app_nil_r. Qed.

Lemma emit_emit {W} (s : io W) a b : emit (emit s a) b = emit s (a ++ b).
Proof. unfold emit. simpl. now rewrite app_assoc. Qed.

Lemma lift_color_print {W} x color code f (s : io W) :
  color_code color = inl code ->
  lift (color_print [x] color " " nl f) s
  = (Ok tt, emit s (colored code f (cat x nl))).
Proof.
  intros Hc. unfold lift, color_print. rewrite Hc.
  unfold bind, print, write, emit, colored. simpl.
  repeat rewrite <- app_assoc. rewrite cat_nil_r. reflexivity.
Qed.

Lemma forM_color_print {W A} (g : A -> string) color code f l : forall s : io W,
  color_code color = inl code ->
  forM_ l (fun x => lift (color_print [g x] color " " nl f)) s
  = (Ok tt, emit s (flat_map (fun x => colored code f (cat (g x) nl)) l)).
Proof.
  unfold forM_. induction l as [|x l IH]; intros s Hc; simpl.
  - now rewrite emit_nil.
  - unfold bind at 1. rewrite lift_color_print with (code := code) by auto.
    rewrite IH by auto. now rewrite emit_emit.
Qed.

Lemma all_some_map l us : all_some l = Some us -> l = map Some us.
Proof.
  revert us. induction l as [|[x|] l IH]; simpl; intros us H.
  - inversion H. reflexivity.
  - destruct (all_some l) as [r|]; [|discriminate].
    inversion H; subst. simpl. f_equal. now apply IH.
  - discriminate.
Qed.

Lemma flat_map_map {A B C} (f : B -> list C) (g : A -> B) l :
  flat_map f (map g l) = flat_map (fun x => f (g x)) l.
Proof. induction l; simpl; congruence. Qed.

Lemma sorted_str_nil l : sorted_str l = [] <-> l = [].
Proof.
  unfold sorted_str. split; intros H.
  - pose proof (StringSort.Permuted_sort l) as P. rewrite H in P.
    now apply Permutation_sym, Permutation_nil in P.
  - subst. reflexivity.
Qed.

Section ReportLines.

Variable W : Type.
Variable self : Seelie W.

Lemma report_unknown_lines st us (s : io W) :
  all_some (unknown_projects st) = Some us ->
  report_unknown st s
  = (Ok tt, emit s (listing purple Stdout "unknown projects or references:"
                      (sorted_str us))).
Proof.
  intros Hus. unfold report_unknown, sorted_names. rewrite Hus.
  rewrite (all_some_map _ Hus). unfold listing.
  destruct us as [|u us].
  - simpl. now rewrite emit_nil.
  - cbn [map]. destruct (sorted_str (u :: us)) as [|x l] eqn:E.
    { apply (proj1 (sorted_str_nil _)) in E. discriminate E. }
    cbv iota. unfold bind at 1. unfold unknown_print.
    rewrite lift_color_print with (code := purple) by reflexivity.
    rewrite forM_color_print
      with (g := fun n => cat tab (str_of_opt n)) (code := purple)
      by reflexivity.
    rewrite emit_emit, flat_map_map. reflexivity.
Qed.

Lemma report_errors_lines errors (s : io W) :
  report_errors errors s
  = (Ok tt, emit s (listing red Stderr "projects with errors:" errors)).
Proof.
  unfold report_errors, listing. destruct errors as [|x l].
  - simpl. now rewrite emit_nil.
  - unfold bind at 1. unfold error_print.
    rewrite lift_color_print with (code := red) by reflexivity.
    rewrite forM_color_print with (g := fun n => cat tab n) (code := red)
      by reflexivity.
    now rewrite emit_emit.
Qed.

Lemma report_paths_lines st (s : io W) :
  report_paths st s
  = (Ok tt, emit s (listing red Stderr "repositories with errors:"
                      (sorted_str (map path (error_paths st))))).
Proof.
  unfold report_paths, listing. destruct (error_paths st) as [|q l] eqn:E.
  - simpl. now rewrite emit_nil.
  - destruct (sorted_str (map path (q :: l))) as [|x l'] eqn:E'.
    { apply (proj1 (sorted_str_nil _)) in E'. discriminate E'. }
    unfold bind at 1. unfold error_print.
    rewrite lift_color_print with (code := red) by reflexivity.
    rewrite forM_color_print with (g := fun n => cat tab n) (code := red)
      by reflexivity.
    now rewrite emit_emit.
Qed.

Lemma errors_of_None_loop st ps : forall acc (s : io W),
  wf self st ->
  Forall (fun i => i < List.length (projects self)) ps ->
  foldM (fun acc i =>
           e <- index (error_projects st) i ;;
           if e : bool then
             p <- index (projects self) i ;;
             ret (acc ++ [str_or (name p)
                            (cat "seelie project #" (str_of_nat (i + 1)))])
           else ret acc) ps acc s
  = ((Ok (acc ++ failing_projects self ps st), s)
     : outcome unit (list string) * io W).
Proof.
  induction ps as [|i ps IH]; intros acc s Hwf Hps.
  - unfold failing_projects. simpl. now rewrite app_nil_r.
  - inversion Hps as [|? ? Hi Hrest]; subst.
    destruct (nth_error (projects self) i) as [p|] eqn:Hp.
    2:{ apply nth_error_None in Hp. lia. }
    destruct (nth_error (error_projects st) i) as [e|] eqn:He.
    2:{ apply nth_error_None in He. destruct Hwf. lia. }
    assert (Hf : failed st i = e).
    { unfold failed. now apply nth_error_nth. }
    cbn [foldM]. apply bind_Ok with
      (a := acc ++ if e then [display_name self i] else []) (s' := s).
    + unfold bind, index. rewrite He. destruct e.
      * rewrite Hp. unfold display_name. rewrite Hp. reflexivity.
      * unfold ret. now rewrite app_nil_r.
    + rewrite IH by auto. unfold failing_projects. cbn [filter].
      rewrite Hf. destruct e; cbn [map]; rewrite <- app_assoc; reflexivity.
Qed.

Lemma errors_of_Some_loop st l : forall acc (s : io W),
  foldM (fun acc n =>
           if py_in (VStr n) (map VProject (projects self)) then
             j <- lookup (names self) (Some n) ;;
             e <- index (error_projects st) j ;;
             if e : bool then ret (acc ++ [n]) else ret acc
           else ret acc) l acc s
  = ((Ok acc, s) : outcome unit (list string) * io W).
Proof.
  induction l as [|n l IH]; intros acc s; simpl; auto.
  unfold bind at 1. rewrite py_in_str_projects. unfold ret at 1. apply IH.
Qed.

End ReportLines.

(** ** Paths that raise *)

Lemma wp_raises_fst {X S A} (m : M X S A) e s :
  wp m (fun _ _ => False) (fun e' _ => e' = e) (fun _ _ => False) s ->
  fst (m s) = Raise e.
Proof.
  unfold wp. destruct (m s) as [[a|e'|x] s']; simpl; intros H;
    try contradiction. now subst.
Qed.

Lemma error_paths_add_fresh {W} st (s : io W) it :
  log_inv st s -> ~ In (path it) (visited_paths st) ->
  set_add VPath it (error_paths st) = error_paths st ++ [it].
Proof.
  intros (_ & _ & _ & _ & I5 & _) Hin. apply set_add_path_fresh.
  intros Hx. apply Hin, I5, Hx.
Qed.

Section PathRaises.

Variable W : Type.
Variable self : Seelie W.
Variable mode : string.
Variable verbose : Z.
Variable merge : bool.

Lemma apply_item_path_raises visit it st any (s : io W) e :
  fst (apply_path self mode verbose merge it st s) = Raise e ->
  wp (apply_item self mode verbose merge visit (st, any) (IPath it))
    (fun _ _ => False) (fun e' _ => e' = e) (fun _ _ => False) s.
Proof.
  intros H. unfold apply_item. apply wp_bind. unfold wp.
  destruct (apply_path self mode verbose merge it st s) as [[a|e'|x] s'];
    simpl in H; congruence.
Qed.

(** The path branch up to the lookup of the synchronizer. *)
Lemma wp_apply_path_head it (s : io W)
    (k : Sync W -> Eng W (state * bool))
    (Q : state * bool -> io W -> Prop) E O :
  (forall y sy0, dict_get (tool it) (sync self) = Some sy0 ->
     wp (k sy0) Q E O (mkIo y (trace s))) ->
  (dict_get (tool it) (sync self) = None ->
   forall y, E KeyError (mkIo y (trace s))) ->
  wp (when (verbose =? 1)%Z
        (lift (path_print [tab; path it] "" "" Stdout ;;;
               project_print ["... "] "" "" Stdout)) ;;;
      sy0 <- lookup (sync self) (tool it) ;; k sy0) Q E O s.
Proof.
  intros Hk Hnone.
  apply wp_bind, wp_when_print; [auto with returns|]. intros y0.
  apply wp_bind, wp_lookup; auto.
Qed.

Lemma apply_path_KeyError it st (s : io W) :
  ~ In (path it) (visited_paths st) ->
  dict_get (tool it) (sync self) = None ->
  fst (apply_path self mode verbose merge it st s) = Raise KeyError.
Proof.
  intros Hin Hnone. apply wp_raises_fst. unfold apply_path.
  apply py_in_str_false in Hin. rewrite Hin.
  apply wp_apply_path_head; auto. intros y sy0 Hsy0. congruence.
Qed.

Lemma apply_path_resolve it st (s : io W) sy0 :
  mode = "resolve" ->
  ~ In (path it) (visited_paths st) ->
  dict_get (tool it) (sync self) = Some sy0 ->
  (forall q v, resolve sy0 q v = raise NotImplementedError) ->
  fst (apply_path self mode verbose merge it st s) = Raise NotImplementedError.
Proof.
  intros Hmode Hin Hsy Hres. apply wp_raises_fst. unfold apply_path.
  apply py_in_str_false in Hin. rewrite Hin. subst mode.
  apply wp_apply_path_head; [|congruence].
  intros y sy1 Hsy1. assert (sy1 = sy0) by congruence. subst sy1.
  cbn [String.eqb Ascii.eqb Bool.eqb].
  apply wp_bind, wp_bind, wp_tell, wp_lift; intros a y' Hy;
    rewrite Hres in Hy; inversion Hy; reflexivity.
Qed.

Lemma apply_path_rsync_None (os : OS W) it st (s : io W) :
  mode = "update" \/ mode = "push" ->
  ~ In (path it) (visited_paths st) ->
  dict_get (tool it) (sync self) = Some (RSync os) ->
  origin it = None ->
  fst (apply_path self mode verbose merge it st s) = Raise TypeError.
Proof.
  intros Hmode Hin Hsy Horigin. apply wp_raises_fst. unfold apply_path.
  apply py_in_str_false in Hin. rewrite Hin.
  apply wp_apply_path_head; [|congruence].
  intros y sy1 Hsy1. assert (sy1 = RSync os) by congruence. subst sy1.
  apply wp_bind. rewrite Horigin.
  destruct Hmode as [-> | ->]; cbn [String.eqb Ascii.eqb Bool.eqb];
    apply wp_bind, wp_tell, wp_lift; cbn [update push RSync];
    intros a y' Hy; apply (f_equal fst) in Hy;
    rewrite ?RSync_update_None, ?RSync_push_None in Hy;
    simpl in Hy; congruence.
Qed.

End PathRaises.

Lemma first_path_raises {W} (self : Seelie W) mode verbose merge selectors
    (s : io W) i ps unk p it rest e :
  fst (select self selectors s) = Ok (i :: ps, unk) ->
  nth_error (projects self) i = Some p ->
  items p = IPath it :: rest ->
  (forall st (s1 : io W), ~ In (path it) (visited_paths st) ->
     fst (apply_path self mode verbose merge it st s1) = Raise e) ->
  exists s', Seelie_apply self mode verbose merge selectors s = (Raise e, s').
Proof.
  intros Hsel Hp Hitems Hraise.
  destruct (@traverse_first_item W self mode verbose merge selectors s
              i ps unk p (IPath it) rest e Hsel Hp Hitems)
    as (s' & Hs'); [|exists s'; now apply traverse_raises_apply].
  intros st any s1 Hvp. apply apply_item_path_raises, Hraise.
  rewrite Hvp. intros [].
Qed.

(** ** Reading the configuration *)

Lemma warned_refl {W} v (y : sys W) : warned v y y.
Proof.
  split; auto. exists []. rewrite app_nil_r. auto.
Qed.

Lemma warned_trans {W} v (y1 y2 y3 : sys W) :
  warned v y1 y2 -> warned v y2 y3 -> warned v y1 y3.
Proof.
  intros (A1 & l1 & A2 & A3 & A4) (B1 & l2 & B2 & B3 & B4).
  split; [congruence|]. exists (l1 ++ l2).
  rewrite B2, A2, app_assoc. repeat split; auto.
  - apply Forall_app; auto.
  - intros Hv. rewrite A4, B4; auto.
Qed.

(** A warning is written on the error stream, and only in verbose mode. *)
Lemma wp_warning {W} v (c : bool) values (y : sys W)
    (Q : unit -> sys W -> Prop) E O :
  (c = true -> truthy v = true) ->
  (forall y', warned v y y' -> Q tt y') ->
  wp (when c (print values " " nl Stderr)) Q E O y.
Proof.
  intros Hc HQ. apply wp_when; intros Hb.
  - apply wp_print, HQ. split; auto. simpl. eexists. split; [reflexivity|].
    split; [constructor; auto|].
    intros Hf. rewrite Hc in Hf by auto. discriminate.
  - apply HQ, warned_refl.
Qed.

Lemma collect_In_None {A} (l : list (option A)) :
  In None l -> collect l = None.
Proof.
  induction l as [|[x|] l IH]; simpl; intros H; auto.
  - destruct H.
  - destruct H as [H|H]; [discriminate|]. now rewrite IH.
Qed.

Lemma collect_snoc {A} (l : list (option A)) r x :
  collect l = Some r -> collect (l ++ [Some x]) = Some (r ++ [x]).
Proof.
  revert r. induction l as [|[a|] l IH]; simpl; intros r H.
  - inversion H. reflexivity.
  - destruct (collect l) as [r0|]; [|discriminate].
    inversion H; subst. now rewrite (IH r0 eq_refl).
  - discriminate.
Qed.

Lemma collect_map_Some {A} (l : list (option A)) r :
  collect l = Some r <-> l = map Some r.
Proof.
  revert r. induction l as [|[a|] l IH]; simpl; intros r.
  - split; intros H; [inversion H; reflexivity|].
    destruct r; [reflexivity|discriminate].
  - destruct (collect l) as [r0|] eqn:E.
    + split; intros H.
      * inversion H; subst. simpl. f_equal. now apply IH.
      * destruct r as [|b r]; [discriminate|]. simpl in H.
        inversion H; subst. f_equal. f_equal.
        assert (Some r0 = Some r) by (apply IH; auto). congruence.
    + split; intros H; [discriminate|].
      destruct r as [|b r]; [discriminate|]. simpl in H. inversion H; subst.
      assert (None = Some r) by (apply IH; auto). discriminate.
  - split; intros H; [discriminate|].
    destruct r; simpl in H; discriminate.
Qed.

Section LoadFacts.

Variable W : Type.
Variable os : OS W.
Variable verbose : Z.

Lemma SeelieProject_child_full i self c (y : sys W) :
  wp (SeelieProject_child os verbose i self c)
    (fun r y' =>
       textless_path c = false /\
       r = ((if is_name_child c then el_text c else fst self),
            snd self ++ items_of os (world y) c) /\
       warned verbose y y')
    (fun e y' => e = TypeError /\ textless_path c = true /\ y' = y)
    (fun _ _ => False) y.
Proof.
  destruct self as [nm its].
  unfold SeelieProject_child, is_name_child, textless_path, items_of,
    is_path_child, is_reference_child.
  destruct (String.eqb_spec (lower (el_tag c)) "name") as [Hname|Hname].
  { rewrite Hname. cbn [String.eqb Ascii.eqb Bool.eqb andb].
    apply wp_bind, wp_warning with (v := verbose).
    - intros H. apply andb_true_iff in H. tauto.
    - intros y' Hw. apply wp_ret. rewrite app_nil_r. auto. }
  destruct (String.eqb_spec (lower (el_tag c)) "path") as [Hpath|Hpath].
  { apply wp_bind. unfold SeeliePath_init.
    destruct (el_text c) as [t|]; cbn [is_some negb andb].
    - apply wp_bind. unfold wp, isdirM. apply wp_ret, wp_ret.
      cbn [fst snd]. repeat split. apply warned_refl.
    - apply wp_raise. auto. }
  cbn [andb].
  destruct (String.eqb (lower (el_tag c)) "reference").
  { apply wp_ret. cbn [fst snd]. repeat split. apply warned_refl. }
  apply wp_bind, wp_warning with (v := verbose); [auto|].
  intros y' Hw. apply wp_ret. cbn [fst snd]. rewrite app_nil_r. auto.
Qed.

Lemma existsb_snoc {A} (f : A -> bool) l x :
  existsb f (l ++ [x]) = existsb f l || f x.
Proof. rewrite existsb_app. simpl. now rewrite orb_false_r. Qed.

Lemma SeelieProject_init_full node i (y : sys W) :
  wp (SeelieProject_init os node verbose i)
    (fun p y' =>
       project_of os (world y) node = Some p /\ warned verbose y y')
    (fun e y' =>
       e = TypeError /\ project_of os (world y) node = None /\
       warned verbose y y')
    (fun _ _ => False) y.
Proof.
  unfold SeelieProject_init, project_of. apply wp_bind.
  eapply wp_mono;
    [apply (wp_foldM
              (fun e y' =>
                 e = TypeError /\
                 (if existsb textless_path (el_children node)
                  then None
                  else Some (mkProject (last_name (el_children node))
                               (flat_map (items_of os (world y))
                                  (el_children node))
                               (auto_of node))) = None /\
                 warned verbose y y')
              (fun _ _ => False)
              (SeelieProject_child os verbose i)
              (fun done r y' =>
                 existsb textless_path done = false /\
                 r = (last_name done, flat_map (items_of os (world y)) done) /\
                 warned verbose y y')
              (el_children node) [] (None, []) y)
    | | |]; cbv beta; auto.
  - repeat split. apply warned_refl.
  - intros done c rest self y1 Hch (H1 & H2 & H3). simpl in Hch.
    eapply wp_mono; [apply SeelieProject_child_full| | |auto]; cbv beta.
    + intros r y2 (R1 & R2 & R3). subst self r. cbn [fst snd].
      rewrite existsb_snoc, H1, R1, last_name_snoc, flat_map_app.
      cbn [flat_map]. rewrite app_nil_r.
      assert (Hw : world y1 = world y) by apply H3. rewrite Hw.
      split; [reflexivity|]. split; [reflexivity|].
      eapply warned_trans; eauto.
    + intros e y2 (-> & P1 & ->). split; auto. split; auto.
      rewrite Hch, existsb_app. cbn [existsb]. rewrite P1.
      now rewrite orb_true_r.
  - intros [nm its] y1 (H1 & H2 & H3). cbn [app] in *.
    inversion H2; subst nm its. rewrite H1.
    apply wp_bind, wp_warning with (v := verbose).
    + intros H. apply andb_true_iff in H. tauto.
    + intros y' Hw. apply wp_ret. split.
      * unfold auto_of. cbn [fst snd].
        destruct (attrib_get "auto" (el_attrib node)) as [v|];
          [destruct (_ || _)|]; reflexivity.
      * eapply warned_trans; eauto.
Qed.

Lemma xml_to_projects_full root (y : sys W) :
  wp (xml_to_projects os root verbose)
    (fun projs y' =>
       load_projects os (world y) root = Some projs /\ warned verbose y y')
    (fun e y' =>
       e = TypeError /\ load_projects os (world y) root = None /\
       warned verbose y y')
    (fun _ _ => False) y.
Proof.
  unfold xml_to_projects, load_projects. apply wp_bind.
  eapply wp_mono;
    [apply (wp_foldM
              (fun e y' =>
                 e = TypeError /\
                 collect (map (project_of os (world y))
                            (filter is_project_child (el_children root)))
                 = None /\
                 warned verbose y y')
              (fun _ _ => False)
              (xml_to_projects_step os verbose)
              (fun done acc y' =>
                 collect (map (project_of os (world y))
                            (filter is_project_child done))
                 = Some (snd acc) /\
                 warned verbose y y')
              (el_children root) [] (0, []) y)
    | | |]; cbv beta; auto.
  - split; [reflexivity|apply warned_refl].
  - intros done c rest [i projs] y1 Hch (H1 & H2). simpl in Hch.
    cbn [snd] in H1.
    unfold xml_to_projects_step. rewrite filter_app. cbn [filter].
    fold (is_project_child c).
    destruct (is_project_child c) eqn:Hc; cbn [negb].
    + apply wp_bind.
      eapply wp_mono; [apply SeelieProject_init_full| | |auto]; cbv beta.
      * intros p y2 (P1 & P2). apply wp_ret. cbn [snd].
        destruct H2 as [Hw H2']. rewrite Hw in P1. split.
        -- rewrite map_app. cbn [map]. rewrite P1.
           now apply collect_snoc.
        -- eapply warned_trans; eauto. split; auto.
      * intros e y2 (-> & P1 & P2). split; auto.
        destruct H2 as [Hw H2']. rewrite Hw in P1. split.
        -- apply collect_In_None. rewrite <- P1. apply in_map.
           apply filter_In. split; auto.
           rewrite Hch. apply in_app_iff. simpl. auto.
        -- eapply warned_trans; eauto. split; auto.
    + apply wp_bind, wp_warning with (v := verbose); [auto|].
      intros y2 Hw. apply wp_ret. cbn [snd]. rewrite app_nil_r.
      split; auto. eapply warned_trans; eauto.
Qed.

Lemma Seelie_init_full root sy (y : sys W) :
  wp (Seelie_init os root sy verbose)
    (fun r y' =>
       lower (el_tag root) = "seelie" /\
       (exists projs,
          load_projects os (world y) root = Some projs /\
          r = Seelie_of_projects
                (match sy with Some d => d | None => default_sync os end)
                projs) /\
       warned verbose y y')
    (fun e y' =>
       e = TypeError /\
       (lower (el_tag root) <> "seelie" /\ y' = y \/
        lower (el_tag root) = "seelie" /\
        load_projects os (world y) root = None) /\
       warned verbose y y')
    (fun _ _ => False) y.
Proof.
  unfold Seelie_init.
  destruct (String.eqb_spec (lower (el_tag root)) "seelie") as [Ht|Ht];
    cbn [negb].
  - apply wp_bind.
    eapply wp_mono; [apply xml_to_projects_full| | |auto]; cbv beta.
    + intros projs y' (H1 & H2). apply wp_ret. repeat split; eauto; apply H2.
    + intros e y' (-> & H1 & H2). repeat split; auto; apply H2.
  - apply wp_raise. repeat split; auto.
    exists []. rewrite app_nil_r. auto.
Qed.

End LoadFacts.

Lemma load_projects_None {W} (os : OS W) w root :
  load_projects os w root = None
  <-> existsb broken_project (el_children root) = true.
Proof.
  unfold load_projects, broken_project.
  induction (el_children root) as [|c l IH]; simpl.
  - split; discriminate.
  - destruct (is_project_child c); simpl; [|exact IH].
    unfold project_of at 1.
    destruct (existsb textless_path (el_children c)); simpl.
    + tauto.
    + destruct (collect _); intuition congruence.
Qed.

Lemma items_of_length {W} (os : OS W) w c :
  textless_path c = false ->
  List.length (items_of os w c)
  = if is_path_child c || is_reference_child c then 1 else 0.
Proof.
  unfold textless_path, items_of.
  destruct (is_path_child c); simpl.
  - destruct (el_text c); simpl; [reflexivity|discriminate].
  - destruct (is_reference_child c); reflexivity.
Qed.

Lemma items_of_count {W} (os : OS W) w l :
  existsb textless_path l = false ->
  List.length (flat_map (items_of os w) l)
  = List.length (filter (fun c => is_path_child c || is_reference_child c) l).
Proof.
  induction l as [|c l IH]; simpl; intros H; auto.
  apply orb_false_iff in H. destruct H as [H1 H2].
  rewrite length_app, (items_of_length os w c H1), (IH H2).
  destruct (is_path_child c || is_reference_child c); reflexivity.
Qed.

Lemma Seelie_init_fst {W} (os : OS W) root sy verbose (y : sys W) :
  fst (Seelie_init os root sy verbose y)
  = if String.eqb (lower (el_tag root)) "seelie" then
      match load_projects os (world y) root with
      | Some projs =>
          Ok (Seelie_of_projects
                (match sy with Some d => d | None => default_sync os end)
                projs)
      | None => Raise TypeError
      end
    else Raise TypeError.
Proof.
  pose proof (Seelie_init_full os verbose root sy y) as H. unfold wp in H.
  destruct (Seelie_init os root sy verbose y) as [[r|e|[]] y']; cbn [fst].
  - destruct H as (Ht & (projs & Hl & ->) & _).
    rewrite Ht, Hl. reflexivity.
  - destruct H as (-> & [(Ht & _)|(Ht & Hl)] & _).
    + destruct (String.eqb_spec (lower (el_tag root)) "seelie"); congruence.
    + rewrite Ht, Hl. reflexivity.
Qed.

(** ** Keys of a dictionary *)

Lemma dict_get_not_in {V} k (d : dict V) :
  ~ In k (map fst d) -> dict_get k d = None.
Proof.
  induction d as [|[k0 v0] d IH]; simpl; intros H; auto.
  destruct (opt_str_eqb_spec k k0) as [->|Hne]; [tauto|].
  apply IH. tauto.
Qed.

Lemma dict_get_in {V} k (d : dict V) :
  In k (map fst d) -> dict_get k d <> None.
Proof.
  induction d as [|[k0 v0] d IH]; simpl; intros H; [tauto|].
  destruct (opt_str_eqb_spec k k0) as [->|Hne]; [discriminate|].
  apply IH. destruct H; congruence.
Qed.

Lemma dict_set_keys {V} k (v : V) d :
  map fst (dict_set k v d)
  = if dict_mem k d then map fst d else map fst d ++ [k].
Proof.
  unfold dict_mem. induction d as [|[k0 v0] d IH]; simpl; auto.
  destruct (opt_str_eqb k k0); simpl; auto.
  rewrite IH. destruct (dict_get k d); reflexivity.
Qed.

Lemma dict_set_nodup {V} k (v : V) d :
  NoDup (map fst d) -> NoDup (map fst (dict_set k v d)).
Proof.
  intros H. rewrite dict_set_keys. unfold dict_mem.
  destruct (dict_get k d) eqn:E; auto.
  apply NoDup_snoc; auto. intros Hin. now apply dict_get_in in Hin.
Qed.

Lemma dict_of_nodup {V} (pairs : list (option string * V)) :
  NoDup (map fst (dict_of pairs)).
Proof.
  unfold dict_of.
  assert (H : forall d : dict V, NoDup (map fst d) ->
            NoDup (map fst (fold_left
                     (fun d kv => dict_set (fst kv) (snd kv) d) pairs d))).
  { induction pairs as [|kv pairs IH]; intros d Hd; simpl; auto.
    apply IH. now apply dict_set_nodup. }
  apply H. constructor.
Qed.

Lemma dict_get_pop_same {V} k (d : dict V) :
  NoDup (map fst d) -> dict_get k (dict_pop k d) = None.
Proof.
  induction d as [|[k0 v0] d IH]; simpl; intros H; auto.
  inversion H as [|? ? Hk0 Hd]; subst.
  destruct (opt_str_eqb_spec k k0) as [->|Hne].
  - now apply dict_get_not_in.
  - simpl. destruct (opt_str_eqb_spec k k0); [congruence|auto].
Qed.

(** [None] is never a key of the name map. *)
Lemma names_None {W} (sy : dict (Sync W)) projs :
  dict_get None (names (Seelie_of_projects sy projs)) = None.
Proof.
  cbn [names Seelie_of_projects].
  destruct (dict_mem None _) eqn:E.
  - apply dict_get_pop_same, dict_of_nodup.
  - unfold dict_mem in E. destruct (dict_get None _); [discriminate|auto].
Qed.

(** ** The last project of a name *)

Lemma assoc_last_combine_some k (ks : list (option string)) : forall m j,
  nth_error ks j = Some k ->
  assoc_last k (combine ks (seq m (List.length ks))) <> None.
Proof.
  induction ks as [|k0 ks IH]; intros m j Hj; [destruct j; discriminate|].
  simpl. destruct j as [|j]; simpl in Hj.
  - inversion Hj; subst.
    destruct (assoc_last k (combine ks (seq (S m) (List.length ks))));
      [discriminate|].
    destruct (opt_str_eqb_spec k k); [discriminate|congruence].
  - pose proof (IH (S m) j Hj) as H.
    destruct (assoc_last k (combine ks (seq (S m) (List.length ks))));
      [discriminate|congruence].
Qed.

Lemma assoc_last_combine_last k (ks : list (option string)) : forall m v,
  assoc_last k (combine ks (seq m (List.length ks))) = Some v <->
  exists i, v = m + i /\ nth_error ks i = Some k /\
            forall j, i < j -> nth_error ks j <> Some k.
Proof.
  induction ks as [|k0 ks IH]; intros m v; simpl.
  - split; [discriminate|]. intros (i & _ & Hi & _). destruct i; discriminate.
  - destruct (assoc_last k (combine ks (seq (S m) (List.length ks)))) as [v'|]
      eqn:E.
    + apply IH in E. destruct E as (i & -> & Hi & Hlast). split.
      * intros H. inversion H; subst. exists (S i).
        split; [lia|]. split; [exact Hi|].
        intros [|j] Hj; [lia|]. simpl. apply Hlast. lia.
      * intros (i' & -> & Hi' & Hlast'). f_equal.
        destruct i' as [|i'].
        -- exfalso. apply (Hlast' (S i)); [lia|exact Hi].
        -- simpl in Hi'.
           destruct (Nat.lt_trichotomy i i') as [Hlt|[->|Hgt]]; [| lia |].
           ++ exfalso. apply (Hlast i'); auto.
           ++ exfalso. apply (Hlast' (S i)); [lia|exact Hi].
    + split.
      * destruct (opt_str_eqb_spec k k0) as [->|Hne]; [|discriminate].
        intros H. inversion H; subst. exists 0.
        split; [lia|]. split; [reflexivity|].
        intros [|j] Hj; [lia|]. simpl. intros Hk.
        eapply assoc_last_combine_some; [exact Hk|exact E].
      * intros (i & -> & Hi & Hlast). destruct i as [|i]; simpl in Hi.
        -- inversion Hi; subst.
           destruct (opt_str_eqb_spec k k); [f_equal; lia|congruence].
        -- exfalso. eapply assoc_last_combine_some; [exact Hi|exact E].
Qed.

Lemma names_last {W} (sy : dict (Sync W)) projs k j :
  dict_get k (names (Seelie_of_projects sy projs)) = Some j
  <-> k <> None /\ nth_error (map name projs) j = Some k /\
      forall j', j < j' -> nth_error (map name projs) j' <> Some k.
Proof.
  destruct k as [a|].
  - rewrite names_get, <- (length_map name), assoc_last_combine_last.
    cbn [Nat.add]. split.
    + intros (i & -> & H1 & H2). split; [discriminate|auto].
    + intros (_ & H1 & H2). eauto.
  - rewrite names_None. split; [discriminate|]. intros [H _]. congruence.
Qed.

Lemma names_has {W} (sy : dict (Sync W)) projs a :
  In (Some a) (map name projs) ->
  exists j, dict_get (Some a) (names (Seelie_of_projects sy projs)) = Some j.
Proof.
  intros Hin. apply In_nth_error in Hin. destruct Hin as (i & Hi).
  rewrite names_get, <- (length_map name).
  pose proof (assoc_last_combine_some (map name projs) 0 i Hi) as H.
  destruct (assoc_last _ _) as [j|]; [eauto|congruence].
Qed.

(** ** Looking up a list of names *)

Lemma lookup_all_None {V} (d : dict V) ks k :
  In k ks -> dict_get k d = None -> lookup_all d ks = None.
Proof.
  induction ks as [|k0 ks IH]; simpl; intros Hin Hk; [tauto|].
  destruct Hin as [->|Hin].
  - now rewrite Hk.
  - rewrite IH by auto. now destruct (dict_get k0 d).
Qed.

Lemma lookup_all_Some {V} (d : dict V) ks :
  (forall k, In k ks -> dict_get k d <> None) ->
  exists vs, lookup_all d ks = Some vs /\
             map (fun k => dict_get k d) ks = map Some vs.
Proof.
  induction ks as [|k ks IH]; simpl; intros H.
  - exists []. auto.
  - destruct IH as (vs & Hvs & Hmap); [auto|].
    destruct (dict_get k d) as [v|] eqn:Hk.
    + exists (v :: vs). rewrite Hvs. simpl. now rewrite Hmap.
    + exfalso. apply (H k); auto.
Qed.

Lemma unnamed_auto {projs : list SeelieProject} :
  existsb (fun p => auto p && negb (is_some (name p))) projs = true
  <-> In None (map name (filter auto projs)).
Proof.
  rewrite existsb_exists, in_map_iff. split.
  - intros (p & Hp & H). apply andb_true_iff in H. destruct H as [Ha Hn].
    exists p. split.
    + destruct (name p); [discriminate|reflexivity].
    + apply filter_In. auto.
  - intros (p & Hn & Hp). apply filter_In in Hp. destruct Hp as [Hp Ha].
    exists p. split; auto. rewrite Ha, Hn. reflexivity.
Qed.

(** ** The synchronizers, call by call *)

(** Unfolding a synchronizer down to the answers of the oracle. *)
Ltac backend :=
  unfold GitSync_update, GitSync_push, RSync_update, RSync_push, rsync_call,
    git_status, commit_message, getcwdM, chdir_or_error, try_OSError, chdirM,
    or_call, subprocess_call, error_print, color_print, when, print, write,
    bind, ret, raise, ran, events;
  cbn.

(** One more answer of the oracle. *)
Ltac oracle :=
  match goal with
  | |- context [getcwd ?os ?w] => destruct (getcwd os w) eqn:?
  | |- context [chdir ?os ?p ?w] => destruct (chdir os p w) eqn:?
  | |- context [call ?os ?a ?w] =>
      destruct (call os a w) as [[?code|?msg] ?w] eqn:?
  | |- context [check_output ?os ?a ?w] =>
      destruct (check_output os a w) as [[?o| |] ?w] eqn:?
  | |- context [(?c =? 0)%Z] => destruct (Z.eqb_spec c 0); subst
  | |- context [String.eqb ?o ""] => destruct (String.eqb_spec o ""); subst
  end; cbn.

(** Lists built by appending, compared. *)
Ltac record := cbn; rewrite <- ?app_assoc, ?app_nil_r; reflexivity.

(** The status of the child process that was started. *)
Ltac status_of_call :=
  match goal with H : call _ _ _ = (?r, _) |- _ => exists r end.

(** One of the ways a run can go: the record first, which settles the
    values the other parts speak of. *)
Ltac shape :=
  repeat match goal with |- exists _, _ => eexists end;
  split;
  [record
  |repeat split; auto;
   solve [congruence
         |rewrite (proj2 (Z.eqb_neq _ _)) by assumption; reflexivity]].

Ltac choose := first [ solve [shape] | left; solve [shape] | right; choose ].

(** ** Invariants of the traversal, in general *)

Lemma wp_conj {X S A} (m : M X S A) (Q1 Q2 : A -> S -> Prop)
    (E1 E2 : exn -> S -> Prop) (O1 O2 : X -> S -> Prop) s :
  wp m Q1 E1 O1 s -> wp m Q2 E2 O2 s ->
  wp m (fun a s' => Q1 a s' /\ Q2 a s') (fun e s' => E1 e s' /\ E2 e s')
    (fun x s' => O1 x s' /\ O2 x s') s.
Proof. unfold wp. destruct (m s) as [[a|e|x] s']; auto. Qed.

Lemma path_post_flags {W} (self : Seelie W) mode it st (s : io W) r s' :
  path_post self mode it st s r s' ->
  visited_projects (fst r) = visited_projects st /\
  error_projects (fst r) = error_projects st.
Proof.
  intros [(_ & -> & _)|(_ & _ & _ & _ & ->)]; [auto|].
  destruct (after_path_flags it st (snd r)) as (F1 & F2 & _). auto.
Qed.

Section Frame.

Variable W : Type.
Variable self : Seelie W.
Variable mode : string.
Variable verbose : Z.
Variable merge : bool.

(** What is kept along a run, and what holds when the run raises. *)
Variable P : state -> io W -> Prop.
Variable PE : io W -> Prop.

Hypothesis P_exn : forall st s, P st s -> PE s.
Hypothesis P_mark : forall i st s,
  P st s -> nth_error (visited_projects st) i = Some false ->
  P (set_visited_projects st (upd i true (visited_projects st)))
    (mkIo (io_sys s) (trace s ++ [MVisit i])).
Hypothesis P_write : truthy verbose = true ->
  forall st s lines, P st s -> P st (emit s lines).
Hypothesis P_path : forall i p it st s,
  visited st i = true -> nth_error (projects self) i = Some p ->
  In (IPath it) (items p) -> P st s ->
  wp (apply_path self mode verbose merge it st)
    (fun r s' => P (fst r) s') (fun _ s' => PE s') (fun _ _ => False) s.
Hypothesis P_unknown : forall st s n,
  P st s ->
  P (set_unknown_projects st (set_add VOpt n (unknown_projects st))) s.
Hypothesis P_done : forall i st s any,
  P st s -> visited st i = true -> i < List.length (error_projects st) ->
  P (set_error_projects st (upd i any (error_projects st))) s.

Lemma apply_item_frame (visit : nat -> state -> Eng W (state * bool))
    i p (st0 : state) :
  nth_error (projects self) i = Some p ->
  visited st0 i = true ->
  (forall j st s, P st s -> vis_le st0 st ->
     wp (visit j st)
       (fun r s' => P (fst r) s' /\ vis_le st (fst r))
       (fun _ s' => PE s') (fun _ _ => False) s) ->
  forall acc it s, In it (items p) -> P (fst acc) s -> vis_le st0 (fst acc) ->
    wp (apply_item self mode verbose merge visit acc it)
      (fun r s' => P (fst r) s' /\ vis_le st0 (fst r))
      (fun _ s' => PE s') (fun _ _ => False) s.
Proof.
  intros Hp Hi Hvisit [st any] it s Hin HP Hle. cbn [fst] in HP, Hle.
  unfold apply_item. apply wp_bind.
  destruct it as [q|r].
  - eapply wp_mono;
      [apply wp_conj;
        [eapply P_path; [|exact Hp|exact Hin|exact HP]; apply Hle; exact Hi
        |apply apply_path_spec]
      | | |]; cbv beta.
    + intros [st' e] s' [H1 H2]. apply wp_ret. cbn [fst] in *.
      split; auto. apply path_post_flags in H2. cbn [fst] in H2.
      destruct H2 as [F1 F2]. destruct Hle as [L1 L2].
      split; [congruence|]. intros j Hj. unfold visited. rewrite F1.
      now apply L2.
    + intros e s' [H _]. exact H.
    + intros x s' [[] _].
  - destruct (dict_mem (ref_name r) (names self)).
    + apply wp_bind, wp_lookup.
      * intros j _. eapply wp_mono; [apply Hvisit; auto| | |auto].
        -- intros [st' e] s' [H1 H2]. apply wp_ret. cbn [fst] in *.
           split; auto. eapply vis_le_trans; eauto.
        -- auto.
      * intros _. eapply P_exn; eauto.
    + apply wp_ret. apply wp_ret. cbn [fst]. split; auto.
Qed.

Lemma apply_project_frame fuel : forall i st s,
  P st s -> unvisited st < fuel ->
  wp (apply_project self mode verbose merge fuel i st)
    (fun r s' => P (fst r) s' /\ vis_le st (fst r))
    (fun _ s' => PE s') (fun _ _ => False) s.
Proof.
  induction fuel as [|fuel IH]; intros i st s HP Hfuel; [lia|].
  simpl. apply wp_bind, wp_index.
  2:{ intros _. eapply P_exn; eauto. }
  intros [|] Hv.
  { apply wp_bind, wp_index.
    - intros e _. apply wp_ret. simpl. split; auto. apply vis_le_refl.
    - intros _. eapply P_exn; eauto. }
  destruct (nth_error_nth_default _ _ false Hv) as [Hlt Hnth].
  apply wp_bind, wp_tell, wp_bind, wp_store; [intros _|lia].
  set (st1 := set_visited_projects st (upd i true (visited_projects st))).
  set (s1 := mkIo (io_sys s) (trace s ++ [MVisit i])).
  assert (Hle1 : vis_le st st1).
  { split; simpl; [apply length_upd|].
    intros j Hj. unfold visited in *. simpl.
    destruct (Nat.eq_dec i j) as [<-|Hij]; [congruence|].
    now rewrite nth_upd_other. }
  assert (Hi1 : visited st1 i = true).
  { unfold visited. simpl. now apply nth_upd_same. }
  assert (HP1 : P st1 s1) by (apply P_mark; auto).
  assert (Hfuel1 : unvisited st1 < fuel).
  { unfold unvisited in *. simpl.
    pose proof (count_false_upd _ Hlt Hnth). lia. }
  clearbody st1 s1.
  assert (Hprint : forall (Q : unit -> io W -> Prop),
    (forall s2, P st1 s2 -> Q tt s2) ->
    wp (when (truthy verbose)
          (p <- index (projects self) i ;;
           lift (project_print
                   [str_or (name p) (cat "project #" (str_of_nat (i + 1)))]
                   " " nl Stdout)))
      Q (fun _ s' => PE s') (fun _ _ => False) s1).
  { intros Q HQ. apply wp_when; intros Hverb; [|apply HQ; auto].
    apply wp_bind, wp_index.
    - intros p _. unfold wp, project_print.
      rewrite lift_color_print with (code := cat esc "[0m") by reflexivity.
      apply HQ, P_write; auto.
    - intros _. eapply P_exn; eauto. }
  apply wp_bind, Hprint. intros s2 HP2.
  apply wp_bind, wp_index.
  2:{ intros _. eapply P_exn; eauto. }
  intros p Hp. apply wp_bind.
  eapply wp_mono;
    [apply (wp_foldM (fun _ s' => PE s') (fun _ _ => False)
              (apply_item self mode verbose merge
                 (apply_project self mode verbose merge fuel))
              (fun _ r s' => P (fst r) s' /\ vis_le st1 (fst r))
              (items p) [] (st1, false) s2)
    | | |]; simpl; auto.
  - split; auto. apply vis_le_refl.
  - intros done x rest b s3 Hitems [H1 H2].
    apply apply_item_frame with (i := i) (p := p); auto.
    + intros j st' s' HP' Hle'. apply IH; auto.
      pose proof (vis_le_unvisited Hle'). lia.
    + rewrite Hitems. apply in_app_iff. simpl. auto.
  - intros [st3 any] s3 [H1 H2]. simpl in *.
    apply wp_bind, wp_store.
    + intros Hlen. apply wp_ret. simpl. split.
      * apply P_done; auto. apply H2. exact Hi1.
      * eapply vis_le_trans; [exact Hle1|]. exact H2.
    + intros _. eapply P_exn; eauto.
Qed.

Lemma traverse_frame selectors (s : io W) :
  (forall unk, P (set_unknown_projects (initial_state self) unk) s) ->
  wp (traverse self mode verbose merge selectors)
    (fun r s' => P (snd r) s') (fun _ s' => PE s') (fun _ _ => False) s.
Proof.
  intros Hinit. unfold traverse. apply wp_bind, wp_select.
  2:{ eapply P_exn, (Hinit []). }
  intros [ps unk] _. apply wp_bind.
  set (st0 := set_unknown_projects (initial_state self) unk).
  eapply wp_mono;
    [apply (wp_foldM (fun _ s' => PE s') (fun _ _ => False)
              (fun st i =>
                 r <- apply_project self mode verbose merge (depth self) i st ;;
                 ret (fst r))
              (fun _ st s' => P st s' /\ vis_le (initial_state self) st)
              ps [] st0 s)
    | | |]; cbv beta; auto.
  - split; [apply Hinit|]. split; auto.
  - intros done i rest st s1 _ [H1 H2]. apply wp_bind.
    eapply wp_mono; [apply apply_project_frame; auto| | |auto]; cbv beta; auto.
    + pose proof (vis_le_unvisited H2). rewrite unvisited_initial in *.
      unfold depth. lia.
    + intros [st' e] s' [H3 H4]. apply wp_ret. split; auto.
      eapply vis_le_trans; eauto.
  - intros st s1 [H _]. apply wp_ret. exact H.
Qed.

End Frame.

(** ** Quiet synchronizers *)

Lemma GitSync_quiet {W} (os : OS W) : quiet_sync (GitSync os).
Proof.
  intros p o m [w out0]. cbn [update push resolve GitSync].
  split; [|split]; [| |reflexivity].
  - backend. destruct o as [src|], m; cbn; repeat oracle; reflexivity.
  - backend. destruct o as [dest|]; cbn; repeat oracle; reflexivity.
Qed.

Lemma RSync_quiet {W} (os : OS W) : quiet_sync (RSync os).
Proof.
  intros p o m [w out0]. cbn [update push resolve RSync].
  split; [|split]; [| |reflexivity].
  - backend. destruct o as [src|]; cbn; repeat oracle; reflexivity.
  - backend. destruct o as [dest|]; cbn; repeat oracle; reflexivity.
Qed.

Lemma default_sync_quiet {W} (os : OS W) k sy :
  dict_get k (default_sync os) = Some sy -> quiet_sync sy.
Proof.
  intros H. apply dict_get_vals in H. cbn in H.
  destruct H as [<-|[<-|[<-|[]]]];
    auto using GitSync_quiet, RSync_quiet.
Qed.

Section Quiet.

Variable W : Type.
Variable self : Seelie W.
Variable mode : string.
Variable merge : bool.
Hypothesis Hquiet : forall k sy, dict_get k (sync self) = Some sy -> quiet_sync sy.

Lemma apply_path_quiet it st (s : io W) :
  wp (apply_path self mode 0 merge it st)
    (fun _ s' => out (io_sys s') = out (io_sys s))
    (fun _ s' => out (io_sys s') = out (io_sys s))
    (fun _ _ => False) s.
Proof.
  unfold apply_path.
  destruct (py_in (VStr (path it)) (map VStr (visited_paths st)));
    [apply wp_ret; reflexivity|].
  cbn [Z.eqb Z.ltb Z.compare truthy negb when].
  apply wp_bind, wp_ret, wp_bind, wp_lookup; [|reflexivity].
  intros sy Hsy. destruct (Hquiet _ Hsy (path it) (origin it) merge (io_sys s))
    as (Q1 & Q2 & Q3).
  apply wp_bind.
  destruct (String.eqb mode "update"); [|destruct (String.eqb mode "push");
    [|destruct (String.eqb mode "resolve")]];
    try (apply wp_bind, wp_tell, wp_lift; cbn [io_sys trace];
         [intros error y Hy;
          assert (Hout : out y = out (io_sys s))
            by (first [rewrite <- Q1, Hy|rewrite <- Q2, Hy|rewrite <- Q3, Hy];
                reflexivity);
          destruct error; exact Hout
         |intros e y Hy; cbn [io_sys];
          first [rewrite <- Q1, Hy|rewrite <- Q2, Hy|rewrite <- Q3, Hy];
          reflexivity]).
  apply wp_raise. reflexivity.
Qed.

Lemma traverse_quiet selectors (s : io W) :
  wp (traverse self mode 0 merge selectors)
    (fun _ s' => out (io_sys s') = out (io_sys s))
    (fun _ s' => out (io_sys s') = out (io_sys s))
    (fun _ _ => False) s.
Proof.
  apply traverse_frame
    with (P := fun (_ : state) (s' : io W) => out (io_sys s') = out (io_sys s))
         (PE := fun s' : io W => out (io_sys s') = out (io_sys s)); auto.
  - discriminate.
  - intros i p it st s1 _ _ _ Hs1. rewrite <- Hs1. apply apply_path_quiet.
Qed.

End Quiet.

(** ** Backend calls and visited paths *)

Lemma set_add_path_inv (x q : SeeliePath) l :
  In q (set_add VPath x l) -> q = x \/ In q l.
Proof.
  unfold set_add. destruct (py_in (VPath x) (map VPath l)); auto.
  intros H. apply in_app_iff in H. destruct H as [H|[<-|[]]]; auto.
Qed.

Lemma owned_mono {W} (self : Seelie W) st st' x :
  (forall j, visited st j = true -> visited st' j = true) ->
  owned self st x -> owned self st' x.
Proof.
  intros Hle (j & p & q & H1 & H2 & H3 & H4). exists j, p, q. auto.
Qed.

Section SyncLog.

Variable W : Type.
Variable self : Seelie W.
Variable mode : string.
Variable verbose : Z.
Variable merge : bool.

Lemma sync_inv_path i p it st (s : io W) :
  visited st i = true -> nth_error (projects self) i = Some p ->
  In (IPath it) (items p) -> sync_inv self st s ->
  wp (apply_path self mode verbose merge it st)
    (fun r s' => sync_inv self (fst r) s') (fun _ _ => True)
    (fun _ _ => False) s.
Proof.
  intros Hi Hp Hit (K1 & K2 & K3 & K4).
  eapply wp_mono; [apply apply_path_spec| | |auto]; cbv beta; [|auto].
  intros [st' e] s' [(_ & Hr & ->)|(Hin & _ & _ & Ht & Hr)]; cbn [fst snd] in *.
  - inversion Hr; subst. exact (conj K1 (conj K2 (conj K3 K4))).
  - subst st'.
    destruct (after_path_flags it st e) as (F1 & F2 & F3 & F4).
    assert (Hvis : forall j, visited (after_path it st e) j = visited st j).
    { intros j. unfold visited. now rewrite F1. }
    assert (Hown : owned self (after_path it st e) (path it)).
    { exists i, p, it. rewrite Hvis. auto. }
    split; [|split; [|split]].
    + rewrite Ht, sync_log_app, F4, K1. reflexivity.
    + intros j. unfold failed. rewrite F2, Hvis. apply K2.
    + intros x Hx. rewrite F4 in Hx. apply in_app_iff in Hx.
      destruct Hx as [Hx|[<-|[]]]; auto.
      eapply owned_mono; [|apply K3; exact Hx].
      intros j. now rewrite Hvis.
    + intros q Hq. rewrite F4.
      assert (Hcase : q = it \/ In q (error_paths st)).
      { unfold after_path in Hq. destruct e; cbn in Hq; auto.
        now apply set_add_path_inv. }
      destruct Hcase as [->|Hq'].
      * split; [apply in_app_iff; simpl; auto|].
        exists i, p. rewrite Hvis. auto.
      * destruct (K4 q Hq') as (A1 & j & p' & A2 & A3 & A4).
        split; [apply in_app_iff; auto|].
        exists j, p'. rewrite Hvis. auto.
Qed.

Lemma traverse_sync_inv selectors (y : sys W) :
  wp (traverse self mode verbose merge selectors)
    (fun r s' => sync_inv self (snd r) s') (fun _ _ => True)
    (fun _ _ => False) (mkIo y []).
Proof.
  apply traverse_frame
    with (P := sync_inv self) (PE := fun _ : io W => True); auto.
  - intros i st s (K1 & K2 & K3 & K4) Hv.
    assert (Hle : forall j, visited st j = true ->
              visited (set_visited_projects st
                         (upd i true (visited_projects st))) j = true).
    { intros j Hj. unfold visited in *. cbn.
      destruct (Nat.eq_dec i j) as [Heq|Hij].
      - subst j. apply nth_error_nth with (d := false) in Hv. congruence.
      - now rewrite nth_upd_other. }
    split; [|split; [|split]]; cbn [trace visited_paths error_paths
                                     set_visited_projects].
    + rewrite sync_log_app. cbn. now rewrite app_nil_r.
    + intros j Hj. apply Hle, K2, Hj.
    + intros x Hx. eapply owned_mono; [exact Hle|auto].
    + intros q Hq. destruct (K4 q Hq) as (A1 & j & p & A2 & A3 & A4).
      split; auto. exists j, p. auto.
  - intros i p it st s. apply sync_inv_path.
  - intros i st s any (K1 & K2 & K3 & K4) Hi Hlt.
    split; [exact K1|]. split; [|split; [exact K3|exact K4]].
    intros j. unfold failed. cbn.
    destruct (Nat.eq_dec i j) as [Heq|Hij]; [subst j; auto|].
    rewrite nth_upd_other by auto. apply K2.
  - intros unk. split; [reflexivity|]. split; [|split]; cbn.
    + intros j Hj. unfold failed in Hj. cbn in Hj.
      rewrite nth_repeat in Hj. discriminate.
    + intros x [].
    + intros q [].
Qed.

End SyncLog.

(** ** Colour names *)

Lemma lower_ascii_idem c : lower_ascii (lower_ascii c) = lower_ascii c.
Proof. destruct c as [[] [] [] [] [] [] [] []]; reflexivity. Qed.

Lemma lower_idem s : lower (lower s) = lower s.
Proof.
  induction s as [|c s IH]; simpl; [reflexivity|].
  now rewrite lower_ascii_idem, IH.
Qed.

(** ** An unknown mode *)

Lemma traverse_no_mode {W} (self : Seelie W) mode verbose merge selectors
    (y : sys W) :
  is_mode mode = false ->
  wp (traverse self mode verbose merge selectors)
    (fun _ s' => sync_log (trace s') = [])
    (fun _ s' => sync_log (trace s') = [])
    (fun _ _ => False) (mkIo y []).
Proof.
  intros Hmode.
  apply traverse_frame
    with (P := fun (_ : state) (s' : io W) => sync_log (trace s') = [])
         (PE := fun s' : io W => sync_log (trace s') = []); auto.
  - intros i st s Hs _. cbn [trace]. rewrite sync_log_app, Hs. reflexivity.
  - intros i p it st s _ _ _ Hs.
    eapply wp_mono; [apply apply_path_spec| | |auto]; cbv beta.
    + intros r s' [(_ & _ & ->)|(_ & Hm & _)]; [exact Hs|congruence].
    + intros e s' (_ & [(_ & _ & Ht)|[(_ & _ & _ & Ht)|(Hm & _)]]);
        [now rewrite Ht|now rewrite Ht|congruence].
Qed.

(** ** Paths that are normal already *)

Lemma split_sep_free c s :
  sep_free c = true ->
  split_sep (cat c (String "/" s)) = c :: split_sep s.
Proof.
  unfold cat. induction c as [|a c IH]; simpl; intros H; auto.
  apply andb_true_iff in H. destruct H as [Ha Hc].
  apply negb_true_iff in Ha. rewrite Ha, (IH Hc). reflexivity.
Qed.

Lemma split_sep_free_nil c :
  sep_free c = true -> split_sep c = [c].
Proof.
  induction c as [|a c IH]; simpl; intros H; auto.
  apply andb_true_iff in H. destruct H as [Ha Hc].
  apply negb_true_iff in Ha. rewrite Ha, (IH Hc). reflexivity.
Qed.

Lemma plain_sep_free c : plain c = true -> sep_free c = true.
Proof. unfold plain. intros H. apply andb_true_iff in H. tauto. Qed.

Lemma split_join comps :
  Forall (fun c => plain c = true) comps -> comps <> [] ->
  split_sep (join_with sep comps) = comps.
Proof.
  unfold join_with.
  induction comps as [|c comps IH]; intros H Hne; [congruence|].
  inversion H as [|? ? Hc Hrest]; subst. apply plain_sep_free in Hc.
  destruct comps as [|c' comps].
  - simpl. now apply split_sep_free_nil.
  - change (String.concat sep (c :: c' :: comps))
      with (cat c (String "/" (String.concat sep (c' :: comps)))).
    rewrite split_sep_free by auto. f_equal. apply IH; auto. discriminate.
Qed.

Lemma normpath_step_plain n acc c :
  plain c = true -> normpath_step n acc c = acc ++ [c].
Proof.
  unfold plain, normpath_step. intros H.
  repeat (apply andb_true_iff in H; destruct H as [H ?]).
  apply negb_true_iff in H. rewrite H.
  destruct (String.eqb c "."); [discriminate|].
  destruct (String.eqb c ".."); [discriminate|]. reflexivity.
Qed.

Lemma normpath_fold_plain n cs : forall acc,
  Forall (fun c => plain c = true) cs ->
  fold_left (normpath_step n) cs acc = acc ++ cs.
Proof.
  induction cs as [|c cs IH]; intros acc H; simpl.
  - now rewrite app_nil_r.
  - inversion H; subst. rewrite normpath_step_plain by auto.
    rewrite IH by auto. now rewrite <- app_assoc.
Qed.

Lemma join_plain_head comps :
  Forall (fun c => plain c = true) comps -> comps <> [] ->
  exists a r, join_with sep comps = String a r /\ Ascii.eqb a "/" = false.
Proof.
  unfold join_with. intros H Hne. destruct comps as [|c comps]; [congruence|].
  inversion H as [|? ? Hc _]; subst. unfold plain in Hc.
  destruct c as [|a c]; [discriminate|]. cbn [sep_free] in Hc.
  exists a. destruct comps as [|c' comps]; simpl.
  - exists c. split; auto.
    repeat (apply andb_true_iff in Hc; destruct Hc as [Hc ?]).
    repeat match goal with H : _ && _ = true |- _ =>
      apply andb_true_iff in H; destruct H end.
    now apply negb_true_iff.
  - eexists. split; [reflexivity|].
    repeat (apply andb_true_iff in Hc; destruct Hc as [Hc ?]).
    repeat match goal with H : _ && _ = true |- _ =>
      apply andb_true_iff in H; destruct H end.
    now apply negb_true_iff.
Qed.

Lemma plain_comp_ok c : plain c = true -> comp_ok c.
Proof.
  intros H. split.
  - intros ->. discriminate.
  - apply plain_sep_free in H. clear -H.
    induction c as [|a c IH]; simpl in *; auto.
    apply andb_true_iff in H. destruct H as [Ha Hc].
    destruct c; [now apply negb_true_iff|auto].
Qed.

(** A relative path of plain components is normal. *)
Lemma normpath_plain_relative comps :
  Forall (fun c => plain c = true) comps -> comps <> [] ->
  normpath (join_with sep comps) = join_with sep comps.
Proof.
  intros H Hne.
  destruct (join_plain_head H Hne) as (a & r & Hj & Ha).
  assert (Hpre : String.prefix sep (join_with sep comps) = false).
  { rewrite Hj. cbn [String.prefix sep].
    destruct (ascii_dec "/" a) as [Hx|_]; [subst a; discriminate|auto]. }
  assert (Hnil : String.eqb (join_with sep comps) "" = false).
  { rewrite Hj. reflexivity. }
  unfold normpath. rewrite Hnil, Hpre, split_join by auto.
  rewrite normpath_fold_plain by auto. cbn [app]. now rewrite Hnil.
Qed.

(** An absolute path of plain components is normal. *)
Lemma normpath_plain_absolute comps :
  Forall (fun c => plain c = true) comps ->
  normpath (cat "/" (join_with sep comps)) = cat "/" (join_with sep comps).
Proof.
  intros H. destruct comps as [|c comps]; [reflexivity|].
  assert (Hne : c :: comps <> []) by discriminate.
  destruct (join_plain_head H Hne) as (a & r & Hj & Ha).
  assert (Hs : split_sep (cat "/" (join_with sep (c :: comps)))
               = "" :: c :: comps).
  { change (split_sep (cat "/" (join_with sep (c :: comps))))
      with ("" :: split_sep (join_with sep (c :: comps))).
    now rewrite split_join. }
  assert (Hf : forall n,
            fold_left (normpath_step n) ("" :: c :: comps) [] = c :: comps).
  { intros n.
    change (fold_left (normpath_step n) ("" :: c :: comps) [])
      with (fold_left (normpath_step n) (c :: comps) []).
    now rewrite normpath_fold_plain. }
  revert Hs. rewrite Hj. intros Hs.
  unfold normpath. rewrite Hs, Hf.
  cbn [cat String.append String.eqb String.prefix sep].
  destruct (ascii_dec "/" "/") as [_|Hx]; [|congruence].
  destruct (ascii_dec "/" a) as [Hx|_]; [subst a; discriminate|].
  cbn [andb]. rewrite Hj. reflexivity.
Qed.

Lemma join_plain_ends comps :
  Forall (fun c => plain c = true) comps -> comps <> [] ->
  endswith_sep (join_with sep comps) = false.
Proof.
  intros H Hne. apply join_ok; auto.
  eapply Forall_impl; [|exact H]. intros c. apply plain_comp_ok.
Qed.

Lemma path_join_nil a :
  a <> "" -> path_join a "" = if endswith_sep a then a else cat a "/".
Proof.
  intros Ha. unfold path_join. cbn [String.prefix sep].
  destruct (String.eqb_spec a ""); [congruence|]. cbn [orb].
  destruct (endswith_sep a); [apply cat_nil_r|reflexivity].
Qed.

(** ** The path branch, run *)

Section PathRun.

Variable W : Type.
Variable self : Seelie W.
Variable mode : string.
Variable verbose : Z.
Variable merge : bool.

Lemma announce_run it (s : io W) :
  when (Z.eqb verbose 1)
    (lift (path_print [tab; path it] "" "" Stdout ;;;
           project_print ["... "] "" "" Stdout)) s
  = (Ok tt, mkIo (announced verbose it (io_sys s)) (trace s)).
Proof.
  unfold announced. destruct (Z.eqb verbose 1); [|destruct s; reflexivity].
  assert (Hc : color_code (Some "blue") = inl blue) by reflexivity.
  unfold when, lift, path_print, project_print, color_print.
  rewrite Hc. unfold bind, print, write, colored, blue. cbn.
  rewrite ?cat_nil_r, <- ?app_assoc. reflexivity.
Qed.

(** After the call: the verdict is printed and recorded. *)
Lemma verdict_run it st error (s1 : io W) :
  exists y'',
    world y'' = world (io_sys s1) /\
    (truthy verbose = false -> y'' = io_sys s1) /\
    (when (Z.ltb 1 verbose)
       (lift (path_print [tab; path it; " "] "" "" Stdout)) ;;;
     if error : bool then
       let st' :=
         set_error_paths
           (set_visited_paths st (visited_paths st ++ [path it]))
           (set_add VPath it
              (error_paths
                 (set_visited_paths st (visited_paths st ++ [path it])))) in
       when (truthy verbose) (lift (error_print ["failed!"] " " nl Stdout)) ;;;
       ret (st', true)
     else
       when (truthy verbose) (lift (success_print ["ok"] " " nl Stdout)) ;;;
       ret (set_visited_paths st (visited_paths st ++ [path it]), false)) s1
    = (Ok (after_path it st error, error), mkIo y'' (trace s1)).
Proof.
  assert (Hb : color_code (Some "blue") = inl blue) by reflexivity.
  assert (Hr : color_code (Some "red") = inl red) by reflexivity.
  assert (Hg : color_code (Some "green") = inl (cat esc "[92m"))
    by reflexivity.
  destruct s1 as [[w o] t].
  unfold truthy, path_print, error_print, success_print, color_print.
  rewrite Hb, Hr, Hg.
  destruct (Z.ltb_spec 1 verbose), (Z.eqb_spec verbose 0), error;
    try lia;
    cbn; eexists; (split; [|split; [|reflexivity]]); cbn;
    solve [reflexivity | discriminate | intros _; reflexivity].
Qed.

(** What the path branch does with a path it has not seen, given what the
    synchronizer does. *)
Lemma apply_path_run it st (s : io W) sy0 b :
  ~ In (path it) (visited_paths st) ->
  dict_get (tool it) (sync self) = Some sy0 ->
  backend_call sy0 mode merge verbose it = Some b ->
  match b (announced verbose it (io_sys s)) with
  | (Ok error, y') =>
      exists y'',
        world y'' = world y' /\
        (truthy verbose = false -> y'' = y') /\
        apply_path self mode verbose merge it st s
        = (Ok (after_path it st error, error),
           mkIo y'' (trace s ++ [MSync (tool it) mode (path it)]))
  | (Raise e, y') =>
      apply_path self mode verbose merge it st s
      = (Raise e, mkIo y' (trace s ++ [MSync (tool it) mode (path it)]))
  | (Stop _, _) => False
  end.
Proof.
  intros Hin Hsy Hb.
  assert (Hcall :
    (if String.eqb mode "update" then
       tell (MSync (tool it) mode (path it)) ;;;
       lift (update sy0 (path it) (origin it) merge (Z.ltb 1 verbose))
     else if String.eqb mode "push" then
       tell (MSync (tool it) mode (path it)) ;;;
       lift (push sy0 (path it) (origin it) (Z.ltb 1 verbose))
     else if String.eqb mode "resolve" then
       tell (MSync (tool it) mode (path it)) ;;;
       lift (resolve sy0 (path it) (Z.ltb 1 verbose))
     else raise ValueError)
    = (tell (MSync (tool it) mode (path it)) ;;; lift b : Eng W bool)).
  { revert Hb. unfold backend_call.
    destruct (String.eqb mode "update"); [now intros [= <-]|].
    destruct (String.eqb mode "push"); [now intros [= <-]|].
    destruct (String.eqb mode "resolve"); [now intros [= <-]|discriminate]. }
  unfold apply_path.
  rewrite (proj2 (py_in_str_false _ _) Hin).
  rewrite (set_add_str_fresh _ _ Hin).
  destruct (b (announced verbose it (io_sys s))) as [[error|e|[]] y'] eqn:Eb.
  - destruct (verdict_run it st error
                (mkIo y' (trace s ++ [MSync (tool it) mode (path it)])))
      as (y'' & V1 & V2 & V3).
    exists y''. split; [exact V1|]. split; [exact V2|].
    eapply bind_Ok; [apply announce_run|].
    eapply bind_Ok; [unfold lookup; rewrite Hsy; reflexivity|].
    cbv beta. rewrite Hcall.
    eapply bind_Ok;
      [eapply bind_Ok; [reflexivity|];
       unfold lift; cbn [io_sys trace]; rewrite Eb; reflexivity|].
    exact V3.
  - eapply bind_Ok; [apply announce_run|].
    eapply bind_Ok; [unfold lookup; rewrite Hsy; reflexivity|].
    cbv beta. rewrite Hcall. unfold bind, tell, lift. cbn [io_sys trace].
    rewrite Eb. reflexivity.
Qed.

End PathRun.

(** ** Invariants of the traversal, and what it raises *)

Lemma wp_select_raise {W} (self : Seelie W) selectors
    (Q : list nat * list (option string) -> io W -> Prop)
    (E : exn -> io W -> Prop) O s :
  (forall r, fst (select self selectors s) = Ok r -> Q r s) ->
  (fst (select self selectors s) = Raise KeyError -> E KeyError s) ->
  wp (select self selectors) Q E O s.
Proof.
  intros HQ HE. unfold wp. destruct selectors as [l|].
  - rewrite select_Some in *. apply HQ. reflexivity.
  - rewrite select_None in *.
    destruct (lookup_all (names self) (autos self)); auto.
Qed.

Section Handlers.

Variable W : Type.
Variable self : Seelie W.
Variable mode : string.
Variable verbose : Z.
Variable merge : bool.
Hypothesis Hnames : names_ok self.

(** What is kept along a run, and what holds of an exception and the state
    it is raised in.  The state is well formed throughout, so the engine
    itself raises nothing once the selection is made. *)
Variable P : state -> io W -> Prop.
Variable PE : exn -> io W -> Prop.

Hypothesis P_wf : forall st s, P st s -> wf self st.
Hypothesis P_mark : forall i st s,
  P st s -> nth_error (visited_projects st) i = Some false ->
  P (set_visited_projects st (upd i true (visited_projects st)))
    (mkIo (io_sys s) (trace s ++ [MVisit i])).
Hypothesis P_write : truthy verbose = true ->
  forall st s lines, P st s -> P st (emit s lines).
Hypothesis P_path : forall i p it st s,
  visited st i = true -> nth_error (projects self) i = Some p ->
  In (IPath it) (items p) -> P st s ->
  wp (apply_path self mode verbose merge it st)
    (fun r s' => P (fst r) s') PE (fun _ _ => False) s.
Hypothesis P_unknown : forall st s n,
  P st s ->
  P (set_unknown_projects st (set_add VOpt n (unknown_projects st))) s.
Hypothesis P_done : forall i st s any,
  P st s -> visited st i = true -> i < List.length (error_projects st) ->
  P (set_error_projects st (upd i any (error_projects st))) s.

Lemma apply_item_rule (visit : nat -> state -> Eng W (state * bool))
    i p (st0 : state) :
  nth_error (projects self) i = Some p ->
  visited st0 i = true ->
  (forall j st s, j < List.length (projects self) -> P st s -> vis_le st0 st ->
     wp (visit j st)
       (fun r s' => P (fst r) s' /\ vis_le st (fst r))
       PE (fun _ _ => False) s) ->
  forall acc it s, In it (items p) -> P (fst acc) s -> vis_le st0 (fst acc) ->
    wp (apply_item self mode verbose merge visit acc it)
      (fun r s' => P (fst r) s' /\ vis_le st0 (fst r))
      PE (fun _ _ => False) s.
Proof.
  intros Hp Hi Hvisit [st any] it s Hin HP Hle. cbn [fst] in HP, Hle.
  unfold apply_item. apply wp_bind.
  destruct it as [q|r].
  - eapply wp_mono;
      [apply wp_conj;
        [eapply P_path; [|exact Hp|exact Hin|exact HP]; apply Hle; exact Hi
        |apply apply_path_spec]
      | | |]; cbv beta.
    + intros [st' e] s' [H1 H2]. apply wp_ret. cbn [fst] in *.
      split; auto. apply path_post_flags in H2. cbn [fst] in H2.
      destruct H2 as [F1 F2]. destruct Hle as [L1 L2].
      split; [congruence|]. intros j Hj. unfold visited. rewrite F1.
      now apply L2.
    + intros e s' [H _]. exact H.
    + intros x s' [[] _].
  - unfold dict_mem, lookup.
    destruct (dict_get (ref_name r) (names self)) as [j|] eqn:Hj.
    + apply wp_bind, wp_ret.
      eapply wp_mono; [apply Hvisit; eauto| | |auto]; cbv beta; auto.
      intros [st' e] s' [H1 H2]. apply wp_ret. cbn [fst] in *.
      split; auto. eapply vis_le_trans; eauto.
    + apply wp_ret. apply wp_ret. cbn [fst]. split; auto.
Qed.

Lemma apply_project_rule fuel : forall i st s,
  i < List.length (projects self) ->
  P st s -> unvisited st < fuel ->
  wp (apply_project self mode verbose merge fuel i st)
    (fun r s' => P (fst r) s' /\ vis_le st (fst r))
    PE (fun _ _ => False) s.
Proof.
  induction fuel as [|fuel IH]; intros i st s Hi HP Hfuel; [lia|].
  simpl. destruct (P_wf HP) as [Hw1 Hw2].
  destruct (nth_error (visited_projects st) i) as [v|] eqn:Hv.
  2:{ apply nth_error_None in Hv. lia. }
  apply wp_bind, wp_index; [|congruence].
  intros v' Hv'. assert (v' = v) by congruence. subst v'. destruct v.
  { apply wp_bind, wp_index.
    - intros e _. apply wp_ret. simpl. split; auto. apply vis_le_refl.
    - intros Hn. apply nth_error_None in Hn. lia. }
  clear Hv'.
  destruct (nth_error_nth_default _ _ false Hv) as [Hlt Hnth].
  apply wp_bind, wp_tell, wp_bind, wp_store; [intros _|lia].
  set (st1 := set_visited_projects st (upd i true (visited_projects st))).
  set (s1 := mkIo (io_sys s) (trace s ++ [MVisit i])).
  assert (Hle1 : vis_le st st1).
  { split; simpl; [apply length_upd|].
    intros j Hj. unfold visited in *. simpl.
    destruct (Nat.eq_dec i j) as [<-|Hij]; [congruence|].
    now rewrite nth_upd_other. }
  assert (Hi1 : visited st1 i = true).
  { unfold visited. simpl. now apply nth_upd_same. }
  assert (HP1 : P st1 s1) by (apply P_mark; auto).
  assert (Hfuel1 : unvisited st1 < fuel).
  { unfold unvisited in *. simpl.
    pose proof (count_false_upd _ Hlt Hnth). lia. }
  clearbody st1 s1.
  destruct (nth_error (projects self) i) as [p|] eqn:Hp.
  2:{ apply nth_error_None in Hp. lia. }
  assert (Hprint : forall (Q : unit -> io W -> Prop),
    (forall s2, P st1 s2 -> Q tt s2) ->
    wp (when (truthy verbose)
          (p <- index (projects self) i ;;
           lift (project_print
                   [str_or (name p) (cat "project #" (str_of_nat (i + 1)))]
                   " " nl Stdout)))
      Q PE (fun _ _ => False) s1).
  { intros Q HQ. apply wp_when; intros Hverb; [|apply HQ; auto].
    apply wp_bind, wp_index; [|congruence].
    intros p' _. unfold wp, project_print.
    rewrite lift_color_print with (code := cat esc "[0m") by reflexivity.
    apply HQ, P_write; auto. }
  apply wp_bind, Hprint. intros s2 HP2.
  apply wp_bind, wp_index; [|congruence].
  intros p' Hp'. assert (p' = p) by congruence. subst p'. clear Hp'.
  apply wp_bind.
  eapply wp_mono;
    [apply (wp_foldM PE (fun _ _ => False)
              (apply_item self mode verbose merge
                 (apply_project self mode verbose merge fuel))
              (fun _ r s' => P (fst r) s' /\ vis_le st1 (fst r))
              (items p) [] (st1, false) s2)
    | | |]; simpl; auto.
  - split; auto. apply vis_le_refl.
  - intros done x rest b s3 Hitems [H1 H2].
    apply apply_item_rule with (i := i) (p := p); auto.
    + intros j st' s' Hj HP' Hle'. apply IH; auto.
      pose proof (vis_le_unvisited Hle'). lia.
    + rewrite Hitems. apply in_app_iff. simpl. auto.
  - intros [st3 any] s3 [H1 H2]. simpl in *.
    destruct (P_wf H1) as [_ Hw3].
    apply wp_bind, wp_store; [|lia].
    intros Hlen. apply wp_ret. simpl. split.
    + apply P_done; auto. apply H2. exact Hi1.
    + eapply vis_le_trans; [exact Hle1|]. exact H2.
Qed.

Lemma traverse_rule selectors (s : io W) :
  (forall unk, P (set_unknown_projects (initial_state self) unk) s) ->
  (fst (select self selectors s) = Raise KeyError -> PE KeyError s) ->
  wp (traverse self mode verbose merge selectors)
    (fun r s' => P (snd r) s') PE (fun _ _ => False) s.
Proof.
  intros Hinit Hkey. unfold traverse. apply wp_bind, wp_select_raise; auto.
  intros [ps unk] Hsel. apply wp_bind.
  set (st0 := set_unknown_projects (initial_state self) unk).
  eapply wp_mono;
    [apply (wp_foldM PE (fun _ _ => False)
              (fun st i =>
                 r <- apply_project self mode verbose merge (depth self) i st ;;
                 ret (fst r))
              (fun _ st s' => P st s' /\ vis_le (initial_state self) st)
              ps [] st0 s)
    | | |]; cbv beta; auto.
  - split; [apply Hinit|]. split; auto.
  - intros done i rest st s1 Hps [H1 H2]. apply wp_bind.
    assert (Hi : i < List.length (projects self)).
    { destruct (@select_in_names W self selectors s ps unk i Hsel) as (k & Hk).
      - cbn [app] in Hps. rewrite Hps. apply in_app_iff. simpl. auto.
      - eauto. }
    eapply wp_mono; [apply apply_project_rule; auto| | |auto]; cbv beta; auto.
    + pose proof (vis_le_unvisited H2). rewrite unvisited_initial in *.
      unfold depth. lia.
    + intros [st' e] s' [H3 H4]. apply wp_ret. split; auto.
      eapply vis_le_trans; eauto.
  - intros st s1 [H _]. apply wp_ret. exact H.
Qed.

End Handlers.

(** ** Who is blamed for a failing path *)

Lemma keep_refl st : keep st st.
Proof. split; [apply vis_le_refl|auto]. Qed.

Lemma keep_trans st1 st2 st3 : keep st1 st2 -> keep st2 st3 -> keep st1 st3.
Proof.
  intros [V1 F1] [V2 F2]. split; [eapply vis_le_trans; eauto|].
  intros j Hj. rewrite F2, F1; auto. now apply V1.
Qed.

Lemma keep_flags st st' :
  visited_projects st' = visited_projects st ->
  error_projects st' = error_projects st -> keep st st'.
Proof.
  intros H1 H2. unfold keep, vis_le, visited, failed. rewrite H1, H2. auto.
Qed.

Lemma blamed_keep {W} (self : Seelie W) st0 st st' q :
  keep st st' -> blamed self st0 st q -> blamed self st0 st' q.
Proof.
  intros [[_ V] F] (j & p & H1 & H2 & H3 & H4 & H5).
  exists j, p. repeat split; auto. rewrite F; auto.
Qed.

Lemma blamed_earlier {W} (self : Seelie W) st0 st st' q :
  vis_le st0 st -> blamed self st st' q -> blamed self st0 st' q.
Proof.
  intros [_ V] (j & p & H1 & H2 & H3 & H4 & H5).
  exists j, p. repeat split; auto.
  destruct (visited st0 j) eqn:E; auto. apply V in E. congruence.
Qed.

Section Blame.

Variable W : Type.
Variable self : Seelie W.
Variable mode : string.
Variable verbose : Z.
Variable merge : bool.

Lemma apply_item_blame (visit : nat -> state -> Eng W (state * bool))
    p (st1 : state) :
  (forall j st s,
     wp (visit j st) (fun r _ => visit_post self st r)
       (fun _ _ => True) (fun _ _ => True) s) ->
  forall acc it s, In it (items p) -> body_post self p st1 acc ->
    wp (apply_item self mode verbose merge visit acc it)
      (fun r _ => body_post self p st1 r)
      (fun _ _ => True) (fun _ _ => True) s.
Proof.
  intros Hvisit [st any] it s Hin [K B]. cbn [fst snd] in K, B.
  unfold apply_item. apply wp_bind.
  assert (Hfin : forall st' e,
    keep st st' ->
    (forall q, In q (error_paths st') ->
       In q (error_paths st) \/
       (e = true /\ (blamed self st st' q \/ In (IPath q) (items p)))) ->
    body_post self p st1 (st', any || e)).
  { intros st' e K' B'. split; cbn [fst snd].
    - eapply keep_trans; eauto.
    - intros q Hq. destruct (B' q Hq) as [Hold|(-> & Hnew)].
      + destruct (B q Hold) as [H|(-> & [H|H])]; auto.
        right. split; auto. left. eapply blamed_keep; eauto.
      + right. split; [apply orb_true_r|].
        destruct Hnew as [H|H]; auto.
        left. eapply blamed_earlier; [apply K|exact H]. }
  destruct it as [q|r].
  - eapply wp_mono; [apply apply_path_spec| | |]; cbv beta; auto.
    + intros [st' e] s' Hpost. apply wp_ret.
      destruct Hpost as [(_ & Heq & _)|(_ & _ & _ & _ & Hr)].
      * inversion Heq; subst. apply Hfin; [apply keep_refl|auto].
      * cbn [fst snd] in Hr. subst st'.
        destruct (after_path_flags q st e) as (F1 & F2 & _).
        apply Hfin; [now apply keep_flags|].
        intros x Hx. unfold after_path in Hx. destruct e; cbn in Hx; auto.
        apply set_add_path_inv in Hx. destruct Hx as [->|Hx]; auto.
  - destruct (dict_mem (ref_name r) (names self)).
    + apply wp_bind. unfold wp, lookup.
      destruct (dict_get (ref_name r) (names self)) as [j|]; cbn; auto.
      eapply wp_mono; [apply Hvisit| | |]; cbv beta; auto.
      intros [st' e] s' [K' B']. apply wp_ret. cbn [fst snd] in *.
      apply Hfin; auto.
      intros x Hx. destruct (B' x Hx) as [H|[H1 H2]]; auto.
    + apply wp_ret, wp_ret. apply Hfin; [now apply keep_flags|auto].
Qed.

Lemma apply_project_blame fuel : forall i st s,
  wp (apply_project self mode verbose merge fuel i st)
    (fun r _ => visit_post self st r) (fun _ _ => True) (fun _ _ => True) s.
Proof.
  induction fuel as [|fuel IH]; intros i st s; [exact I|].
  simpl. apply wp_bind, wp_index; [|auto].
  intros [|] Hv.
  { apply wp_bind, wp_index; [|auto].
    intros e _. apply wp_ret. split; [apply keep_refl|auto]. }
  destruct (nth_error_nth_default _ _ false Hv) as [Hlt Hnth].
  apply wp_bind, wp_tell, wp_bind, wp_store; [intros _|auto].
  set (st1 := set_visited_projects st (upd i true (visited_projects st))).
  assert (Hv1 : forall j,
    visited st1 j = if Nat.eqb i j then true else visited st j).
  { intros j. unfold visited, st1. simpl.
    destruct (Nat.eqb_spec i j) as [<-|Hij].
    - now apply nth_upd_same.
    - now apply nth_upd_other. }
  assert (Hvi : visited st i = false) by exact Hnth.
  assert (K1 : keep st st1).
  { split; [split|]; [apply length_upd| |reflexivity].
    intros j Hj. rewrite Hv1. destruct (Nat.eqb i j); auto. }
  apply wp_bind.
  unfold wp at 1.
  destruct (when (truthy verbose) _ _) as [[[]|e|x] s2]; auto.
  apply wp_bind, wp_index; [|auto].
  intros p Hp. apply wp_bind.
  eapply wp_mono;
    [apply (wp_foldM (fun _ _ => True) (fun _ _ => True)
              (apply_item self mode verbose merge
                 (apply_project self mode verbose merge fuel))
              (fun _ r (_ : io W) => body_post self p st1 r)
              (items p) [] (st1, false) s2)
    | | |]; cbv beta; auto.
  - split; [apply keep_refl|auto].
  - intros done x rest b s3 Hitems HB.
    apply apply_item_blame; auto.
    cbn [app] in Hitems. rewrite Hitems. apply in_app_iff. simpl. auto.
  - intros [st3 any] s3 [K3 B3]. cbn [fst snd] in *.
    apply wp_bind, wp_store; [|auto].
    intros Hlen. apply wp_ret. cbn [fst snd].
    set (st4 := set_error_projects st3 (upd i any (error_projects st3))).
    assert (Hf4 : forall j,
      failed st4 j = if Nat.eqb i j then any else failed st3 j).
    { intros j. unfold failed, st4. simpl.
      destruct (Nat.eqb_spec i j) as [<-|Hij].
      - now apply nth_upd_same.
      - now apply nth_upd_other. }
    assert (Hi3 : visited st3 i = true).
    { apply K3. rewrite Hv1, Nat.eqb_refl. reflexivity. }
    split.
    + split.
      * eapply vis_le_trans; [apply K1|]. apply K3.
      * intros j Hj. rewrite Hf4.
        destruct (Nat.eqb_spec i j) as [<-|Hij]; [congruence|].
        destruct K3 as [_ F3]. rewrite F3; [reflexivity|].
        rewrite Hv1. destruct (Nat.eqb i j); auto.
    + intros q Hq. destruct (B3 q Hq) as [H|(-> & [H|H])]; auto; right;
        (split; [reflexivity|]).
      * destruct H as (j & p' & H1 & H2 & H3 & H4 & H5).
        rewrite Hv1 in H3.
        destruct (Nat.eqb_spec i j) as [<-|Hij]; [discriminate|].
        exists j, p'. repeat split; auto.
        rewrite Hf4. destruct (Nat.eqb_spec i j); [congruence|auto].
      * exists i, p. repeat split; auto.
        rewrite Hf4, Nat.eqb_refl. reflexivity.
Qed.

Lemma traverse_blame selectors (s : io W) :
  wp (traverse self mode verbose merge selectors)
    (fun r _ => forall q, In q (error_paths (snd r)) -> flagged self (snd r) q)
    (fun _ _ => True) (fun _ _ => True) s.
Proof.
  unfold traverse. apply wp_bind, wp_select; [|auto].
  intros [ps unk] _. apply wp_bind.
  eapply wp_mono;
    [apply (wp_foldM (fun _ _ => True) (fun _ _ => True)
              (fun st i =>
                 r <- apply_project self mode verbose merge (depth self) i st ;;
                 ret (fst r))
              (fun _ st (_ : io W) =>
                 forall q, In q (error_paths st) -> flagged self st q)
              ps [] (set_unknown_projects (initial_state self) unk) s)
    | | |]; cbv beta; auto.
  - intros q [].
  - intros done i rest st s1 _ HT. apply wp_bind.
    eapply wp_mono; [apply apply_project_blame| | |]; cbv beta; auto.
    intros [st' e] s' [[[_ V] F] B]. apply wp_ret. cbn [fst snd] in *.
    intros q Hq. destruct (B q Hq) as [H|[_ H]].
    + destruct (HT q H) as (j & p & H1 & H2 & H3 & H4).
      exists j, p. repeat split; auto. rewrite F; auto.
    + destruct H as (j & p & H1 & H2 & H3 & H4 & H5).
      exists j, p. auto.
Qed.

End Blame.

(** ** What a run raises, and what it has handed over when it returns *)

Lemma backend_call_mode {W} (sy0 : Sync W) mode merge verbose it :
  is_mode mode = true ->
  exists b, backend_call sy0 mode merge verbose it = Some b.
Proof.
  unfold is_mode, backend_call.
  destruct (String.eqb mode "update"); [eauto|].
  destruct (String.eqb mode "push"); [eauto|].
  destruct (String.eqb mode "resolve"); [eauto|discriminate].
Qed.

Lemma held_mono {W} (self : Seelie W) st st' q :
  (forall j, visited st j = true -> visited st' j = true) ->
  held self st q -> held self st' q.
Proof. intros V (j & p & H1 & H2 & H3). exists j, p. auto. Qed.

Lemma handed_ok_mono {W} (self : Seelie W) bad st st' :
  (forall j, visited st j = true -> visited st' j = true) ->
  visited_paths st' = visited_paths st ->
  error_paths st' = error_paths st ->
  handed_ok self bad st -> handed_ok self bad st'.
Proof.
  intros V E1 E2 [H1 H2]. unfold handed_ok. rewrite E1, E2. split.
  - intros x Hx. destruct (H1 x Hx) as (q & A & B & C).
    exists q. split; [eapply held_mono; eauto|auto].
  - intros q Hq. destruct (H2 q Hq) as [A B].
    split; [eapply held_mono; eauto|auto].
Qed.

Lemma visited_upd st i j :
  nth_error (visited_projects st) i = Some false ->
  visited st j = true ->
  visited (set_visited_projects st (upd i true (visited_projects st))) j
  = true.
Proof.
  intros Hv Hj. unfold visited in *. cbn.
  destruct (Nat.eq_dec i j) as [Heq|Hij].
  - subst j. apply nth_error_nth with (d := false) in Hv. congruence.
  - now rewrite nth_upd_other.
Qed.

Section Handed.

Variable W : Type.
Variable self : Seelie W.
Variable mode : string.
Variable verbose : Z.
Variable merge : bool.

(** Items whose processing never returns. *)
Variable bad : SeeliePath -> Prop.
Hypothesis Hbad : forall q st (s : io W) r s',
  bad q -> ~ In (path q) (visited_paths st) ->
  apply_path self mode verbose merge q st s <> (Ok r, s').

Lemma traverse_handed selectors (s : io W) :
  wp (traverse self mode verbose merge selectors)
    (fun r _ => handed_ok self bad (snd r))
    (fun _ _ => True) (fun _ _ => False) s.
Proof.
  apply traverse_frame
    with (P := fun (st : state) (_ : io W) => handed_ok self bad st)
         (PE := fun _ : io W => True).
  - auto.
  - intros i st s0 H Hv. apply handed_ok_mono with (st := st); auto.
    intros j. now apply visited_upd.
  - auto.
  - intros i p it st s0 Hi Hp Hit [H1 H2].
    pose proof (apply_path_spec self mode verbose merge it st s0) as Hs.
    unfold wp in *.
    destruct (apply_path self mode verbose merge it st s0)
      as [[[st' e]|e|x] s'] eqn:E; auto.
    destruct Hs as [(_ & Heq & _)|(Hin & _ & _ & _ & Hr)].
    + inversion Heq; subst. split; auto.
    + cbn [fst snd] in *. subst st'.
      destruct (after_path_flags it st e) as (F1 & F2 & F3 & F4).
      assert (V : forall j, visited st j = true ->
                visited (after_path it st e) j = true).
      { intros j. unfold visited. now rewrite F1. }
      assert (Hgood : ~ bad it).
      { intros Hb. eapply Hbad; eauto. }
      assert (Hheld : held self (after_path it st e) it).
      { exists i, p. auto. }
      split.
      * intros x Hx. rewrite F4 in Hx. apply in_app_iff in Hx.
        destruct Hx as [Hx|[<-|[]]]; [|eauto].
        destruct (H1 x Hx) as (q & A & B & C).
        exists q. split; [eapply held_mono; eauto|auto].
      * intros q Hq.
        assert (Hcase : q = it \/ In q (error_paths st)).
        { unfold after_path in Hq. destruct e; cbn in Hq; auto.
          now apply set_add_path_inv. }
        destruct Hcase as [->|Hq']; auto.
        destruct (H2 q Hq') as [A B].
        split; [eapply held_mono; eauto|auto].
  - intros st s0 n H. apply handed_ok_mono with (st := st); auto.
  - intros i st s0 any H _ _. apply handed_ok_mono with (st := st); auto.
  - intros unk. split; intros ? [].
Qed.

End Handed.

Section Verdict.

Variable W : Type.
Variable self : Seelie W.
Variable mode : string.
Variable verbose : Z.
Variable merge : bool.
Variable verdict : string -> bool.
Hypothesis Hreports : reports self mode merge verbose verdict.

Lemma traverse_verdict selectors (s : io W) :
  wp (traverse self mode verbose merge selectors)
    (fun r _ =>
       map path (error_paths (snd r))
       = filter verdict (visited_paths (snd r)))
    (fun _ _ => True) (fun _ _ => False) s.
Proof.
  apply traverse_frame
    with (P := fun (st : state) (_ : io W) =>
                 map path (error_paths st) = filter verdict (visited_paths st))
         (PE := fun _ : io W => True); auto.
  intros i p it st s0 Hi Hp Hit HP.
  pose proof (apply_path_spec self mode verbose merge it st s0) as Hs.
  unfold wp in *.
  destruct (apply_path self mode verbose merge it st s0)
    as [[[st' e]|e|x] s'] eqn:E; auto.
  destruct Hs as [(_ & Heq & _)|(Hin & Hm & Hsy & _ & Hr)].
  { inversion Heq; subst. exact HP. }
  cbn [fst snd] in *. subst st'.
  destruct (dict_get (tool it) (sync self)) as [sy0|] eqn:Hsy0; [|congruence].
  destruct (@backend_call_mode W sy0 mode merge verbose it Hm) as (b & Hb).
  pose proof (@apply_path_run W self mode verbose merge it st s0 sy0 b
                Hin Hsy0 Hb) as Hrun.
  destruct (b (announced verbose it (io_sys s0))) as [[error|e'|[]] y'] eqn:Eb.
  2:{ congruence. }
  destruct Hrun as (y'' & _ & _ & Hrun). rewrite Hrun in E.
  assert (He : error = e) by congruence. subst error.
  assert (Hv : e = verdict (path it)).
  { eapply Hreports; eauto. exists i, p. auto. }
  destruct (after_path_flags it st e) as (_ & _ & _ & F4).
  rewrite F4, filter_app. cbn [filter]. rewrite <- Hv.
  unfold after_path. destruct e; cbn [error_paths set_error_paths
                                       set_visited_paths].
  - rewrite set_add_path_fresh.
    + rewrite map_app, HP. reflexivity.
    + intros Hx. apply Hin.
      assert (Hp' : In (path it) (map path (error_paths st)))
        by now apply in_map.
      rewrite HP in Hp'. apply filter_In in Hp'. tauto.
  - now rewrite app_nil_r.
Qed.

End Verdict.

Section Raises.

Variable W : Type.
Variable self : Seelie W.
Variable mode : string.
Variable verbose : Z.
Variable merge : bool.
Hypothesis Hnames : names_ok self.

(** [apply] has no handler: what a run raises is the [KeyError] of the
    selection, before anything is done, or what the processing of a path
    raised, in the state it was raised in. *)
Lemma traverse_raises selectors (s : io W) :
  wp (traverse self mode verbose merge selectors)
    (fun _ _ => True)
    (fun e s' =>
       (e = KeyError /\ s' = s /\
        fst (select self selectors s) = Raise KeyError) \/
       raised_by_path self mode verbose merge e s')
    (fun _ _ => False) s.
Proof.
  eapply wp_mono;
    [apply traverse_rule
       with (P := fun (st : state) (_ : io W) => wf self st)
            (PE := fun e s' =>
                     (e = KeyError /\ s' = s /\
                      fst (select self selectors s) = Raise KeyError) \/
                     raised_by_path self mode verbose merge e s')
    | | |]; auto.
  - intros i st s0 [H1 H2] _. split; cbn; [now rewrite length_upd|auto].
  - intros i p it st s0 Hi Hp Hit Hwf.
    pose proof (apply_path_spec self mode verbose merge it st s0) as Hs.
    unfold wp in *.
    destruct (apply_path self mode verbose merge it st s0)
      as [[[st' e]|e|x] s'] eqn:E; auto.
    + apply path_post_flags in Hs. cbn [fst] in *. destruct Hs as [F1 F2].
      unfold wf. rewrite F1, F2. exact Hwf.
    + right. exists it, st, s0. split; [exists i, p; auto|].
      split; [apply Hs|exact E].
  - intros i st s0 any [H1 H2] _ _. split; cbn; [auto|now rewrite length_upd].
  - intros unk. apply wf_initial.
Qed.

(** In a run that returns, every project the selection reaches was
    visited. *)
Lemma reaches_visited selectors (s : io W) ps st s' j :
  traverse self mode verbose merge selectors s = (Ok (ps, st), s') ->
  reaches self ps j -> visited st j = true.
Proof.
  intros Hrun.
  pose proof (@traverse_done W self mode verbose merge Hnames
                (fun _ => True) (fun _ _ _ _ _ _ => I) selectors s) as H.
  eapply wp_Ok_inv in H; [|exact Hrun].
  destruct H as (unk & _ & _ & Hreq & Hfin). cbn [fst snd] in *.
  induction 1 as [i Hi|i p r j Hreach IH Hp Hr Hj]; auto.
  destruct (Hfin i IH) as [Hf _]. destruct (Hf p Hp) as [Hs _].
  specialize (Hs (IRef r) Hr). unfold settled in Hs. now rewrite Hj in Hs.
Qed.

(** And every path of such a project was handed over. *)
Lemma reaches_settled selectors (s : io W) ps st s' j p q :
  traverse self mode verbose merge selectors s = (Ok (ps, st), s') ->
  reaches self ps j -> nth_error (projects self) j = Some p ->
  In (IPath q) (items p) -> In (path q) (visited_paths st).
Proof.
  intros Hrun Hreach Hp Hq.
  pose proof (@reaches_visited selectors s ps st s' j Hrun Hreach) as Hj.
  pose proof (@traverse_done W self mode verbose merge Hnames
                (fun _ => True) (fun _ _ _ _ _ _ => I) selectors s) as H.
  eapply wp_Ok_inv in H; [|exact Hrun].
  destruct H as (unk & _ & _ & _ & Hfin). cbn [fst snd] in *.
  destruct (Hfin j Hj) as [Hf _]. destruct (Hf p Hp) as [Hs _].
  apply (Hs (IPath q) Hq).
Qed.

End Raises.

Section Escape.

Variable W : Type.
Variable self : Seelie W.
Variable mode : string.
Variable verbose : Z.
Variable merge : bool.
Hypothesis Hnames : names_ok self.
Variable bad : SeeliePath -> Prop.
Hypothesis Hbad : forall q st (s : io W) r s',
  bad q -> ~ In (path q) (visited_paths st) ->
  apply_path self mode verbose merge q st s <> (Ok r, s').

(** A run whose selection reaches an item that cannot be processed, and
    whose path no other item can stand in for, raises. *)
Lemma traverse_escapes selectors (s : io W) ps unk j p q :
  fst (select self selectors s) = Ok (ps, unk) ->
  reaches self ps j -> nth_error (projects self) j = Some p ->
  In (IPath q) (items p) -> bad q ->
  (forall q', item_of self q' -> path q' = path q -> bad q') ->
  exists e s',
    Seelie_apply self mode verbose merge selectors s = (Raise e, s') /\
    raised_by_path self mode verbose merge e s'.
Proof.
  intros Hsel Hreach Hp Hq Hb Honly.
  pose proof (@traverse_handed W self mode verbose merge bad Hbad
                selectors s) as HH.
  pose proof (@traverse_raises W self mode verbose merge Hnames selectors s)
    as HR.
  pose proof (@traverse_done W self mode verbose merge Hnames
                (fun _ => True) (fun _ _ _ _ _ _ => I) selectors s) as HD.
  unfold wp in HH, HR, HD.
  destruct (traverse self mode verbose merge selectors s)
    as [[[ps' st]|e|x] s'] eqn:Hrun; [|exists e, s'|destruct HH].
  - exfalso. destruct HD as (unk' & Hsel' & _). cbn [fst] in Hsel'.
    assert (ps' = ps) by congruence. subst ps'.
    pose proof (@reaches_settled W self mode verbose merge Hnames selectors
                  s ps st s' j p q Hrun Hreach Hp Hq) as Hin.
    destruct HH as [H1 _]. destruct (H1 _ Hin) as (q' & (j' & p' & _ & A & B) & C & D).
    apply D, Honly; auto. exists j', p'. auto.
  - split; [now apply traverse_raises_apply|].
    destruct HR as [(_ & _ & Hk)|HR]; [congruence|exact HR].
Qed.

End Escape.

(** ** The default synchronizers under [apply] *)

Lemma apply_path_seen {W} (self : Seelie W) mode verbose merge it st
    (s : io W) :
  In (path it) (visited_paths st) ->
  exists b, apply_path self mode verbose merge it st s = (Ok (st, b), s).
Proof.
  intros Hin. unfold apply_path.
  rewrite (proj2 (py_in_str _ _) Hin). eexists. reflexivity.
Qed.

Lemma raises_not_Ok {X S A} (m : M X S A) s e r s' :
  fst (m s) = Raise e -> m s <> (Ok r, s').
Proof. intros H E. rewrite E in H. discriminate. Qed.

Lemma RSync_update_returns {W} (os : OS W) p src m v y :
  exists r y', RSync_update os p (Some src) m v y = (Ok r, y').
Proof.
  destruct y as [w o]. backend.
  destruct v; cbn; (destruct (call os _ w) as [[code|msg] w']; cbn);
    do 2 eexists; reflexivity.
Qed.

Lemma RSync_push_returns {W} (os : OS W) p dest v y :
  exists r y', RSync_push os p (Some dest) v y = (Ok r, y').
Proof.
  destruct y as [w o]. backend.
  destruct v; cbn; (destruct (call os _ w) as [[code|msg] w']; cbn);
    do 2 eexists; reflexivity.
Qed.

Lemma default_sync_cases {W} (os : OS W) k sy0 :
  dict_get k (default_sync os) = Some sy0 ->
  sy0 = GitSync os \/ sy0 = RSync os.
Proof.
  intros H. apply dict_get_vals in H. cbn in H.
  destruct H as [<-|[<-|[<-|[]]]]; auto.
Qed.

(** With the default synchronizers an rsync path raises nothing but the
    [TypeError] of a missing origin. *)
Lemma rsync_path_raises {W} (os : OS W) projs mode verbose merge q st
    (s1 : io W) e s' :
  mode = "update" \/ mode = "push" ->
  tool q = Some "rsync" ->
  apply_path (Seelie_of_projects (default_sync os) projs) mode verbose merge
    q st s1 = (Raise e, s') ->
  e = TypeError.
Proof.
  intros Hmode Htool Hrun.
  set (self := Seelie_of_projects (default_sync os) projs) in *.
  destruct (in_dec string_dec (path q) (visited_paths st)) as [Hin|Hin].
  { destruct (@apply_path_seen W self mode verbose merge q st s1 Hin)
      as (b & Hb).
    congruence. }
  assert (Hsy : dict_get (tool q) (sync self) = Some (RSync os)).
  { rewrite Htool. reflexivity. }
  destruct (origin q) as [src|] eqn:Ho.
  - exfalso.
    assert (Hb : exists b,
              backend_call (RSync os) mode merge verbose q = Some b /\
              forall y, exists r y', b y = (Ok r, y')).
    { unfold backend_call. rewrite Ho.
      destruct Hmode as [-> | ->]; cbn [String.eqb Ascii.eqb Bool.eqb];
        eexists; (split; [reflexivity|]); intros y0; cbn [update push RSync];
        [apply RSync_update_returns|apply RSync_push_returns]. }
    destruct Hb as (b & Hb & Hret).
    pose proof (@apply_path_run W self mode verbose merge q st s1 (RSync os) b
                  Hin Hsy Hb) as H.
    destruct (Hret (announced verbose q (io_sys s1))) as (r & y' & Hy).
    rewrite Hy in H. destruct H as (y'' & _ & _ & H). congruence.
  - pose proof (@apply_path_rsync_None W self mode verbose merge os q st s1
                  Hmode Hin Hsy Ho) as H.
    rewrite Hrun in H. cbn in H. congruence.
Qed.

(** With the default synchronizers no path is resolved. *)
Lemma resolve_path_raises {W} (os : OS W) projs verbose merge q st
    (s1 : io W) :
  ~ In (path q) (visited_paths st) ->
  fst (apply_path (Seelie_of_projects (default_sync os) projs) "resolve"
         verbose merge q st s1) = Raise KeyError
  \/ fst (apply_path (Seelie_of_projects (default_sync os) projs) "resolve"
            verbose merge q st s1) = Raise NotImplementedError.
Proof.
  intros Hin.
  set (self := Seelie_of_projects (default_sync os) projs) in *.
  destruct (dict_get (tool q) (sync self)) as [sy0|] eqn:Hsy.
  - right. eapply apply_path_resolve; eauto.
    destruct (default_sync_cases _ _ Hsy) as [-> | ->]; reflexivity.
  - left. now apply apply_path_KeyError.
Qed.

(* ================================================================= *)
(** * The claims *)

(** C1 holds in its first half and fails in its second.  In every run the
    backend is handed each path string at most once.  But a path seen before
    always counts as a success for the project that meets it again: the
    failure was recorded as the path object, and the later test looks for
    the path string.  So with two projects that hold [/tmp/x] and a
    [git pull] that exits with status 1, the first project ends in error
    and the second does not. *)
Theorem shared_path_outcome_lost W (self : Seelie W) mode verbose merge
    selectors (y : sys W) :
  match Seelie_apply self mode verbose merge selectors (mkIo y []) with
  | (Stop _, _) => False
  | (_, s') => NoDup (sync_log (trace s'))
  end
  /\ (forall it st (s : io W),
        In (path it) (visited_paths st) ->
        apply_path self mode verbose merge it st s = (Ok (st, false), s))
  /\ (exists st s',
        traverse
          (Seelie_of_projects (default_sync (demo_os 1)) shared_path_projects)
          "update" 0 false None start = (Ok ([0; 1], st), s')
        /\ sync_log (trace s') = ["/tmp/x"]
        /\ error_paths st = [mkPath "/tmp/x" None None]
        /\ failed st 0 = true
        /\ failed st 1 = false).
Proof.
  split; [|split].
  - pose proof (apply_inv self mode verbose merge selectors y) as H.
    unfold wp in H.
    destruct (Seelie_apply self mode verbose merge selectors (mkIo y []))
      as [[a|e|x] s']; auto; apply H.
  - intros it st s Hin. unfold apply_path.
    apply py_in_str in Hin. rewrite Hin, py_in_str_paths. reflexivity.
  - eexists _, _. vm_compute. repeat split.
Qed.

(** C2.  Whatever the reference graph, cycles and diamonds included, [apply]
    terminates (the embedding never runs out of fuel), the body of the
    per-project visit is entered at most once per project index in a run,
    whether the run returns or raises, and a visit of a project already
    marked returns its recorded error flag at once, state and output as
    they were. *)
Theorem apply_terminates_visits_once W (self : Seelie W) mode verbose merge
    selectors (y : sys W) :
  match Seelie_apply self mode verbose merge selectors (mkIo y []) with
  | (Stop _, _) => False
  | (_, s') => NoDup (visit_log (trace s'))
  end
  /\ forall fuel i st e (s : io W),
       nth_error (visited_projects st) i = Some true ->
       nth_error (error_projects st) i = Some e ->
       apply_project self mode verbose merge (S fuel) i st s = (Ok (st, e), s).
Proof.
  split.
  - pose proof (apply_inv self mode verbose merge selectors y) as H.
    unfold wp in H.
    destruct (Seelie_apply self mode verbose merge selectors (mkIo y []))
      as [[a|e|x] s']; auto; apply H.
  - intros fuel i st e s Hv He. simpl. unfold bind, index.
    rewrite Hv. simpl. rewrite He. reflexivity.
Qed.

Lemma apply_terminates_visits_once_witness :
  apply_project
    (Seelie_of_projects (default_sync (demo_os 0)) cycle_projects)
    "update" 0 false 1 0 (mkState [] [true; false] [] [false; false] []) start
  = (Ok (mkState [] [true; false] [] [false; false] [], false), start).
Proof.
  apply (proj2 (apply_terminates_visits_once
                  (Seelie_of_projects (default_sync (demo_os 0)) cycle_projects)
                  "update" 0 false None (mkSys tt []))); reflexivity.
Defined.

(** The cycle of the claim, run: [A] references [B] references [A]; both
    bodies are entered once and the run returns. *)
Lemma cycle_run :
  exists st s',
    traverse (Seelie_of_projects (default_sync (demo_os 0)) cycle_projects)
      "update" 0 false None start = (Ok ([0; 1], st), s')
    /\ visit_log (trace s') = [0; 1]
    /\ visited_projects st = [true; true].
Proof. eexists _, _. vm_compute. repeat split. Qed.

(** C3 as the code has it.  The report is written only when the verbosity
    level is not zero; with level zero [apply] ends where the traversal
    ended.  With a level that is not zero and unknown names that are all
    strings, [apply] returns after writing the report at the end of the
    output: the unknown names in order, the requested projects that ended in
    error (for a run without selectors: each automatic project whose flag is
    set, by its name or as seelie project number k), and the failing paths
    in order.  The failing paths are distinct, and the list written is a
    sorted rearrangement of them. *)
Theorem summary_when_verbose W (sy : dict (Sync W)) projs mode verbose merge
    selectors (y : sys W) ps st s1 :
  traverse (Seelie_of_projects sy projs) mode verbose merge selectors
    (mkIo y []) = (Ok (ps, st), s1) ->
  (truthy verbose = false ->
   Seelie_apply (Seelie_of_projects sy projs) mode verbose merge selectors
     (mkIo y []) = (Ok tt, s1))
  /\ (truthy verbose = true ->
      forall us, all_some (unknown_projects st) = Some us ->
      exists errors,
        Seelie_apply (Seelie_of_projects sy projs) mode verbose merge
          selectors (mkIo y [])
        = (Ok tt,
           emit s1 (summary_lines (sorted_str us) errors
                      (sorted_str (map path (error_paths st)))))
        /\ (selectors = None ->
            errors = failing_projects (Seelie_of_projects sy projs) ps st))
  /\ NoDup (map path (error_paths st))
  /\ Sorted (fun a b => String.leb a b = true)
       (sorted_str (map path (error_paths st)))
  /\ Permutation (map path (error_paths st))
       (sorted_str (map path (error_paths st))).
Proof.
  intros Hrun. set (self := Seelie_of_projects sy projs) in *.
  split; [|split; [|split; [|split]]].
  - intros Hv. unfold Seelie_apply. eapply bind_Ok; [exact Hrun|].
    unfold report. cbn [fst snd]. now rewrite Hv.
  - intros Hv us Hus.
    pose proof (@traverse_done W self mode verbose merge
                  (names_ok_of_projects sy projs) (fun _ => True)
                  (fun _ _ _ _ _ _ => I) selectors (mkIo y [])) as H.
    eapply wp_Ok_inv in H; [|exact Hrun].
    destruct H as (unk & Hsel & Hext & _). cbn [fst snd] in *.
    assert (Hwf : wf self st) by apply Hext.
    assert (Hps : Forall (fun i => i < List.length (projects self)) ps).
    { apply Forall_forall. intros i Hi.
      destruct (@select_in_names W self selectors (mkIo y []) ps unk i Hsel Hi)
        as (k & Hk).
      eapply names_ok_of_projects; eauto. }
    destruct selectors as [l|].
    + exists []. split; [|discriminate].
      unfold Seelie_apply. eapply bind_Ok; [exact Hrun|].
      unfold report. cbn [fst snd]. rewrite Hv.
      eapply bind_Ok; [apply report_unknown_lines; exact Hus|].
      eapply bind_Ok; [apply errors_of_Some_loop|].
      eapply bind_Ok; [apply report_errors_lines|].
      rewrite report_paths_lines, !emit_emit. reflexivity.
    + exists (failing_projects self ps st). split; [|reflexivity].
      unfold Seelie_apply. eapply bind_Ok; [exact Hrun|].
      unfold report. cbn [fst snd]. rewrite Hv.
      eapply bind_Ok; [apply report_unknown_lines; exact Hus|].
      eapply bind_Ok;
        [apply (@errors_of_None_loop W self st ps [] _ Hwf Hps)|].
      eapply bind_Ok; [apply report_errors_lines|].
      rewrite report_paths_lines, !emit_emit. reflexivity.
  - pose proof (traverse_inv self mode verbose merge selectors y) as H.
    eapply wp_Ok_inv in H; [|exact Hrun].
    destruct H as [(_ & _ & _ & _ & _ & Hnd) _]. exact Hnd.
  - apply StringSort.Sorted_sort.
  - apply StringSort.Permuted_sort.
Qed.

Lemma summary_when_verbose_witness :
  Seelie_apply
    (Seelie_of_projects (default_sync (demo_os 1)) shared_path_projects)
    "update" 0 false None start
  = (Ok tt,
     mkIo (mkSys tt [])
       [MVisit 0; MSync None "update" "/tmp/x"; MVisit 1]).
Proof.
  refine (proj1 (@summary_when_verbose unit (default_sync (demo_os 1))
                   shared_path_projects "update" 0%Z false None (mkSys tt [])
                   [0; 1]
                   (mkState ["/tmp/x"] [true; true]
                      [mkPath "/tmp/x" None None] [true; false] [])
                   (mkIo (mkSys tt [])
                      [MVisit 0; MSync None "update" "/tmp/x"; MVisit 1]) _) _).
  - vm_compute. reflexivity.
  - reflexivity.
Defined.

(** C3 as stated fails: at verbosity zero a run with a failing project and
    a failing path writes nothing at all. *)
Lemma quiet_run_reports_nothing :
  exists st s',
    traverse
      (Seelie_of_projects (default_sync (demo_os 1)) shared_path_projects)
      "update" 0 false None start = (Ok ([0; 1], st), s')
    /\ error_paths st = [mkPath "/tmp/x" None None]
    /\ failed st 0 = true
    /\ out (io_sys (snd (Seelie_apply
                           (Seelie_of_projects (default_sync (demo_os 1))
                              shared_path_projects)
                           "update" 0 false None start))) = [].
Proof. eexists _, _. vm_compute. repeat split. Qed.

(** C4 as the code has it.  The name of a project is the text of its last
    name child: every name child overwrites the name.  A name child never
    stops the construction, which fails only on a path child without text;
    the warnings are written in verbose mode only and nothing else of the
    world changes. *)
Theorem name_is_last_name_child W (os : OS W) node verbose i (y : sys W) :
  (forall p y',
     SeelieProject_init os node verbose i y = (Ok p, y') ->
     name p = last_name (el_children node) /\
     world y' = world y /\
     (truthy verbose = false -> out y' = out y))
  /\ ((forall c, In c (el_children node) -> lower (el_tag c) = "path" ->
                 el_text c <> None) ->
      exists p y', SeelieProject_init os node verbose i y = (Ok p, y')).
Proof.
  pose proof (SeelieProject_init_spec os verbose i node y) as H.
  unfold wp in H. split.
  - intros p y' Hrun. now rewrite Hrun in H.
  - intros Htext.
    destruct (SeelieProject_init os node verbose i y) as [[p|e|[]] y'].
    + eauto.
    + destruct H as (c & Hc & Hp & Ht). destruct (Htext c Hc Hp Ht).
Qed.

(** C4 as stated fails: of two name children the second gives the name. *)
Lemma later_name_child_wins :
  fst (SeelieProject_init (demo_os 0) two_names 0 1 (mkSys tt []))
    = Ok (mkProject (Some "b") [] true)
  /\ first_name (el_children two_names) = Some "a".
Proof. split; reflexivity. Qed.

(** The warning of the example, written in verbose mode on the error
    stream; the construction goes on. *)
Lemma duplicate_name_warning :
  SeelieProject_init (demo_os 0) two_names 1 1 (mkSys tt [])
  = (Ok (mkProject (Some "b") [] true),
     mkSys tt
       [(Stderr,
         cat "Duplicate name definition for project #1: 'a' and 'b'" nl)]).
Proof. reflexivity. Qed.

(** C5 as the code has it.  With a mode other than update, push and resolve,
    [apply] never runs out of work and never calls a backend, whether it
    returns or raises: no path is handed to a synchronizer.  It returns only
    when no project it visited holds a path: nothing was done.  It raises
    otherwise, and what it raises is the [ValueError] of the mode check, or
    a [KeyError] when a lookup before that check fails (the tool of the
    path, the name of an automatic project). *)
Theorem invalid_mode_raises_at_first_path W (sy : dict (Sync W)) projs mode
    verbose merge selectors (y : sys W) :
  is_mode mode = false ->
  match traverse (Seelie_of_projects sy projs) mode verbose merge selectors
          (mkIo y []) with
  | (Ok (ps, st), s') =>
      visited_paths st = [] /\ sync_log (trace s') = [] /\
      (forall i, In i ps -> visited st i = true) /\
      (forall j p q, visited st j = true -> nth_error projs j = Some p ->
                     ~ In (IPath q) (items p))
  | (Raise e, s') =>
      (e = ValueError \/ e = KeyError) /\
      sync_log (trace s') = [] /\
      Seelie_apply (Seelie_of_projects sy projs) mode verbose merge selectors
        (mkIo y []) = (Raise e, s')
  | (Stop _, _) => False
  end.
Proof.
  intros Hmode.
  set (self := Seelie_of_projects sy projs).
  pose proof (traverse_inv self mode verbose merge selectors y) as H1.
  pose proof (@traverse_no_mode W self mode verbose merge selectors y Hmode)
    as H3.
  assert (HPE : forall it st (s : io W) e s',
            path_exc self mode it st s e s' -> e = ValueError \/ e = KeyError).
  { intros it st s e s' (_ & [(-> & _)|[(-> & _)|(Hm & _)]]); auto.
    congruence. }
  pose proof (@traverse_done W self mode verbose merge
                (names_ok_of_projects sy projs) _ HPE selectors (mkIo y []))
    as H2.
  unfold wp in H1, H2, H3.
  destruct (traverse self mode verbose merge selectors (mkIo y []))
    as [[[ps st]|e|x] s'] eqn:Hrun.
  - destruct H1 as [Hinv _]. destruct H2 as (unk & Hsel & Hext & Hreq & Hfin).
    cbn [fst snd] in *.
    assert (Hvp : visited_paths st = []).
    { destruct Hext as (_ & _ & _ & _ & Hvp & _). now rewrite Hvp. }
    split; [exact Hvp|]. split; [exact H3|split; [exact Hreq|]].
    intros j p q Hj Hp Hq. destruct (Hfin j Hj) as [Hf _].
    destruct (Hf p Hp) as [Hs _]. specialize (Hs _ Hq).
    unfold settled in Hs. rewrite Hvp in Hs. destruct Hs.
  - split; [|split; [exact H3|apply traverse_raises_apply; exact Hrun]].
    destruct H2 as [ -> | [ -> | -> ] ]; auto.
  - destruct H1.
Qed.

Lemma invalid_mode_raises_at_first_path_witness :
  (ValueError = ValueError \/ ValueError = KeyError)
  /\ sync_log [MVisit 0] = []
  /\ Seelie_apply
       (Seelie_of_projects (default_sync (demo_os 0)) shared_path_projects)
       "frobnicate" 0 false None start
     = (Raise ValueError, mkIo (mkSys tt []) [MVisit 0]).
Proof.
  exact (@invalid_mode_raises_at_first_path unit (default_sync (demo_os 0))
           shared_path_projects "frobnicate" 0%Z false None (mkSys tt [])
           eq_refl).
Defined.

(** C5 as stated fails: an unknown mode, a project without paths, and
    [apply] returns as if all were well. *)
Lemma invalid_mode_completes_silently :
  Seelie_apply (Seelie_of_projects (default_sync (demo_os 0)) empty_project)
    "frobnicate" 0 false (Some ["a"]) start
  = (Ok tt, mkIo (mkSys tt []) [MVisit 0]).
Proof. vm_compute. reflexivity. Qed.

(** C6 as the code has it.  When no two projects share a name and every
    automatic project is named, [apply] with no selectors requests exactly
    the automatic projects, in the order of the registry, and with selectors
    it requests the project of each known name, a name standing for the
    project that carries it.  The projects visited in a run that returns are
    the requested ones when the registry holds no reference; references add
    the projects they reach. *)
Theorem auto_selection W (sy : dict (Sync W)) projs mode verbose merge
    (s : io W) :
  distinct_names projs -> auto_named projs ->
  select (Seelie_of_projects sy projs) None s
    = (Ok (auto_from 0 projs, []), s)
  /\ (forall l,
        select (Seelie_of_projects sy projs) (Some l) s
        = (Ok (known (names (Seelie_of_projects sy projs)) l,
               unknown (names (Seelie_of_projects sy projs)) l), s))
  /\ (forall a i,
        dict_get (Some a) (names (Seelie_of_projects sy projs)) = Some i
        <-> exists p, nth_error projs i = Some p /\ name p = Some a)
  /\ (forall selectors ps st s',
        no_references projs ->
        traverse (Seelie_of_projects sy projs) mode verbose merge selectors s
          = (Ok (ps, st), s') ->
        forall j, visited st j = true <-> In j ps).
Proof.
  intros Hd Ha. set (self := Seelie_of_projects sy projs).
  split; [|split; [|split]].
  - rewrite select_None.
    change (autos self) with (map name (filter auto projs)).
    rewrite (lookup_autos (names self) projs 0); auto.
    intros i p Hp Hauto. cbn [Nat.add]. unfold self.
    destruct (name p) as [a|] eqn:Hn.
    + apply names_of_distinct; eauto.
    + exfalso. apply (Ha p); auto. eapply nth_error_In; eauto.
  - intros l. apply select_Some.
  - intros a i. now apply names_of_distinct.
  - intros selectors ps st s' Hnr Hrun j.
    pose proof (@traverse_done W self mode verbose merge
                  (names_ok_of_projects sy projs) (fun _ => True)
                  (fun _ _ _ _ _ _ => I) selectors s) as H.
    eapply wp_Ok_inv in H; [|exact Hrun].
    destruct H as (unk & Hsel & Hext & Hreq & Hfin). cbn [fst snd] in *.
    split; [|apply Hreq].
    intros Hj. destruct (Hfin j Hj) as [_ [Hin|(p & r & Hp & Hr & _)]]; auto.
    destruct (Hnr p r Hp Hr).
Qed.

Lemma auto_selection_witness :
  select (Seelie_of_projects (default_sync (demo_os 0)) ab_projects) None start
  = (Ok (auto_from 0 ab_projects, []), start).
Proof.
  refine (proj1 (@auto_selection unit (default_sync (demo_os 0)) ab_projects
                   "update" 0%Z false start _ _)).
  - intros [|[|[|i]]] [|[|[|j]]] a; simpl; intros H1 H2;
      try discriminate; try reflexivity; congruence.
  - intros p [<-|[<-|[]]]; simpl; congruence.
Defined.

(** C6 as stated fails.  Of two projects named [a] the name map keeps the
    second, so a run without selectors visits the second project, which is
    not automatic, and never the first, which is.  And a reference is
    followed: with [a] automatic and referencing [b], which is not, a run
    without selectors visits both. *)
Lemma null_selectors_miss_the_auto_projects :
  (exists st s',
     traverse (Seelie_of_projects (default_sync (demo_os 0)) twin_projects)
       "update" 0 false None start = (Ok ([1], st), s')
     /\ map auto twin_projects = [true; false]
     /\ visited_projects st = [false; true])
  /\ (exists st s',
        traverse (Seelie_of_projects (default_sync (demo_os 0)) ref_projects)
          "update" 0 false None start = (Ok ([0], st), s')
        /\ map auto ref_projects = [true; false]
        /\ visited_projects st = [true; true]).
Proof. split; eexists _, _; vm_compute; repeat split. Qed.

(** The example of the claim: with [a] automatic and [b] not, no selector
    visits [a] alone and the selector [b] visits [b] alone. *)
Lemma ab_selection :
  exists st1 s1 st2 s2,
    traverse (Seelie_of_projects (default_sync (demo_os 0)) ab_projects)
      "update" 0 false None start = (Ok ([0], st1), s1)
    /\ visited_projects st1 = [true; false]
    /\ traverse (Seelie_of_projects (default_sync (demo_os 0)) ab_projects)
         "update" 0 false (Some ["b"]) start = (Ok ([1], st2), s2)
    /\ visited_projects st2 = [false; true].
Proof. eexists _, _, _, _. vm_compute. repeat split. Qed.

(** C7 as the code has it.  [apply] has no exception handler.

    What a synchronizer reports through its return value is folded into the
    error state.  When the call made for a path not seen before returns,
    the path branch returns that verdict, and the path object is in
    [error_paths] afterwards exactly when the verdict is an error or the
    object was there before; [GitSync] returns an error for a path it cannot
    enter, and [RSync] for a child it cannot start.  In a run that returns,
    every failing path is an item of a visited project that is flagged with
    an error; and when the verdict of the synchronizers depends on the path
    only, the failing paths are exactly the paths handed over whose verdict
    is an error.

    What is raised while a path is processed is raised by [apply].  A run
    raises the [KeyError] of the selection, before anything is done, or what
    the processing of some path raised, in the state it was raised in.  So a
    run that returns has handed over no path whose tool has no backend, and
    no path at all in resolve mode with the default synchronizers.  A run
    whose selection reaches, directly or through references, a path whose
    tool has no backend raises, unless another item with the same path
    string stands in for it; in resolve mode with the default synchronizers
    a run raises [NotImplementedError] or [KeyError] as soon as a reached
    project holds a path.  For the first item of the first requested project
    the exception is the [KeyError] of the tool, or the
    [NotImplementedError] of [resolve].

    The keyword [merge] is the one the wrapper [update] passes; the wrappers
    [push] and [resolve] pass none, and [merge] is not used for them. *)
Theorem failures_folded_or_raised W (os : OS W) (sy : dict (Sync W)) projs
    mode verbose merge selectors (s : io W) :
  let self := Seelie_of_projects sy projs in
  let bad := fun q => dict_get (tool q) sy = None in
  (forall q st (s1 : io W) sy0 b,
     ~ In (path q) (visited_paths st) ->
     dict_get (tool q) sy = Some sy0 ->
     backend_call sy0 mode merge verbose q = Some b ->
     match b (announced verbose q (io_sys s1)) with
     | (Ok error, y') =>
         (exists s2,
            apply_path self mode verbose merge q st s1
            = (Ok (after_path q st error, error), s2)
            /\ world (io_sys s2) = world y')
         /\ (In q (error_paths (after_path q st error))
             <-> error = true \/ In q (error_paths st))
     | (Raise e, y') =>
         apply_path self mode verbose merge q st s1
         = (Raise e, mkIo y' (trace s1 ++ [MSync (tool q) mode (path q)]))
     | (Stop _, _) => False
     end)
  /\ (forall q st (s1 : io W),
        ~ In (path q) (visited_paths st) ->
        (bad q ->
         fst (apply_path self mode verbose merge q st s1) = Raise KeyError)
        /\ (mode = "resolve" ->
            dict_get (tool q) sy = Some (GitSync os) \/
            dict_get (tool q) sy = Some (RSync os) ->
            fst (apply_path self mode verbose merge q st s1)
            = Raise NotImplementedError))
  /\ (forall q st (s1 : io W) st' s2,
        apply_path self mode verbose merge q st s1 = (Ok (st', true), s2) ->
        In q (error_paths st') /\ In (path q) (visited_paths st'))
  /\ (forall q src m v y here w',
        getcwd os (world y) = Some here ->
        chdir os (expanduser os q) (world y) = None ->
        chdir os here (world y) = Some w' ->
        fst (GitSync_update os q src m v y) = Ok true)
  /\ (forall q src m v y msg w',
        call os ["rsync"; rsync_flags v; "--delete"; src; q] (world y)
          = (inr msg, w') ->
        fst (RSync_update os q (Some src) m v y) = Ok true)
  /\ match traverse self mode verbose merge selectors s with
     | (Ok (ps, st), s') =>
         (forall q, In q (error_paths st) -> flagged self st q)
         /\ handed_ok self bad st
         /\ (forall verdict,
               reports self mode merge verbose verdict ->
               map path (error_paths st) = filter verdict (visited_paths st))
         /\ (mode = "resolve" -> sy = default_sync os ->
             visited_paths st = [])
     | (Raise e, s') =>
         Seelie_apply self mode verbose merge selectors s = (Raise e, s')
         /\ ((e = KeyError /\ s' = s /\
              fst (select self selectors s) = Raise KeyError)
             \/ raised_by_path self mode verbose merge e s')
     | (Stop _, _) => False
     end
  /\ (forall ps unk j p q,
        fst (select self selectors s) = Ok (ps, unk) ->
        reaches self ps j -> nth_error projs j = Some p ->
        In (IPath q) (items p) ->
        (bad q ->
         (forall q', item_of self q' -> path q' = path q -> bad q') ->
         exists e s',
           Seelie_apply self mode verbose merge selectors s = (Raise e, s')
           /\ raised_by_path self mode verbose merge e s')
        /\ (mode = "resolve" -> sy = default_sync os ->
            exists e s',
              Seelie_apply self mode verbose merge selectors s
              = (Raise e, s')
              /\ (e = NotImplementedError \/ e = KeyError)))
  /\ (forall i ps unk p it rest,
        fst (select self selectors s) = Ok (i :: ps, unk) ->
        nth_error projs i = Some p ->
        items p = IPath it :: rest ->
        (bad it ->
         exists s',
           Seelie_apply self mode verbose merge selectors s
           = (Raise KeyError, s'))
        /\ (mode = "resolve" ->
            dict_get (tool it) sy = Some (GitSync os) \/
            dict_get (tool it) sy = Some (RSync os) ->
            exists s',
              Seelie_apply self mode verbose merge selectors s
              = (Raise NotImplementedError, s'))).
Proof.
  intros self bad.
  assert (Hkey : forall q st (s1 : io W),
            ~ In (path q) (visited_paths st) -> bad q ->
            fst (apply_path self mode verbose merge q st s1) = Raise KeyError).
  { intros q st s1 Hin Hnone. now apply apply_path_KeyError. }
  assert (Hres : forall q st (s1 : io W),
            ~ In (path q) (visited_paths st) ->
            mode = "resolve" ->
            dict_get (tool q) sy = Some (GitSync os) \/
            dict_get (tool q) sy = Some (RSync os) ->
            fst (apply_path self mode verbose merge q st s1)
            = Raise NotImplementedError).
  { intros q st s1 Hin Hmode [Hsy|Hsy];
      eapply apply_path_resolve; eauto; reflexivity. }
  assert (Hbad : forall q st (s1 : io W) r s',
            bad q -> ~ In (path q) (visited_paths st) ->
            apply_path self mode verbose merge q st s1 <> (Ok r, s')).
  { intros q st s1 r s' Hb Hin. eapply raises_not_Ok. now apply Hkey. }
  assert (Hall : mode = "resolve" -> sy = default_sync os ->
            forall q st (s1 : io W) r s',
              True -> ~ In (path q) (visited_paths st) ->
              apply_path self mode verbose merge q st s1 <> (Ok r, s')).
  { intros -> Hsy q st s1 r s' _ Hin. unfold self. subst sy.
    destruct (@resolve_path_raises W os projs verbose merge q st s1 Hin)
      as [H|H]; eapply raises_not_Ok; exact H. }
  assert (Hnames : names_ok self) by apply names_ok_of_projects.
  split; [|split; [|split; [|split; [|split; [|split; [|split]]]]]].
  - intros q st s1 sy0 b Hin Hsy Hb.
    pose proof (@apply_path_run W self mode verbose merge q st s1 sy0 b
                  Hin Hsy Hb) as H.
    destruct (b (announced verbose q (io_sys s1))) as [[error|e|x] y'];
      auto.
    destruct H as (y'' & H1 & _ & H2). split.
    + eexists. split; [exact H2|exact H1].
    + unfold after_path. destruct error; cbn; split.
      * auto.
      * intros _. apply set_add_path_in.
      * auto.
      * intros [H|H]; [discriminate|exact H].
  - intros q st s1 Hin. split; auto.
  - intros q st s1 st' s2 Hrun.
    pose proof (apply_path_spec self mode verbose merge q st s1) as H.
    eapply wp_Ok_inv in H; [|exact Hrun].
    destruct H as [(_ & Heq & _)|(Hin & _ & _ & _ & Hr)].
    + inversion Heq.
    + cbn [fst snd] in Hr. subst st'. unfold after_path. simpl. split.
      * apply set_add_path_in.
      * apply in_app_iff. simpl. auto.
  - intros q src m v y here w'. apply GitSync_update_unreachable.
  - intros q src m v y msg w'. apply RSync_update_OSError.
  - pose proof (@traverse_handed W self mode verbose merge bad Hbad
                  selectors s) as HH.
    pose proof (@traverse_raises W self mode verbose merge Hnames
                  selectors s) as HR.
    pose proof (traverse_blame self mode verbose merge selectors s) as HB.
    unfold wp in HH, HR, HB.
    destruct (traverse self mode verbose merge selectors s)
      as [[[ps st]|e|x] s'] eqn:Hrun; auto.
    + cbn [snd] in *. split; [exact HB|]. split; [exact HH|]. split.
      * intros verdict Hv.
        pose proof (@traverse_verdict W self mode verbose merge verdict Hv
                      selectors s) as HV.
        eapply wp_Ok_inv in HV; [|exact Hrun]. exact HV.
      * intros Hmode Hsy.
        pose proof (@traverse_handed W self mode verbose merge
                      (fun _ => True) (Hall Hmode Hsy) selectors s) as HT.
        eapply wp_Ok_inv in HT; [|exact Hrun]. cbn [snd] in HT.
        destruct HT as [HT _].
        destruct (visited_paths st) as [|x l]; auto.
        destruct (HT x (or_introl eq_refl)) as (q & _ & _ & Hq).
        destruct Hq. exact I.
    + split; [now apply traverse_raises_apply|exact HR].
  - intros ps unk j p q Hsel Hreach Hp Hq. split.
    + intros Hb Honly.
      eapply traverse_escapes with (bad := bad); eauto.
    + intros Hmode Hsy.
      destruct (@traverse_escapes W self mode verbose merge Hnames
                  (fun _ => True) (Hall Hmode Hsy) selectors s ps unk j p q
                  Hsel Hreach Hp Hq I (fun _ _ _ => I))
        as (e & s' & H1 & H2).
      exists e, s'. split; [exact H1|].
      destruct H2 as (q' & st & s1 & _ & Hin & Hrun).
      subst mode sy.
      destruct (@resolve_path_raises W os projs verbose merge q' st s1 Hin)
        as [H|H]; unfold self in Hrun; rewrite Hrun in H; cbn in H;
        injection H as ->; auto.
  - intros i ps unk p it rest Hsel Hp Hitems. split.
    + intros Hb. eapply first_path_raises; eauto.
    + intros Hmode Hsy. eapply first_path_raises; eauto.
Qed.

Lemma failures_folded_or_raised_witness :
  exists st s',
    traverse
      (Seelie_of_projects (default_sync (demo_os 1)) shared_path_projects)
      "update" 0 false None start = (Ok ([0; 1], st), s')
    /\ visited_paths st = ["/tmp/x"]
    /\ map path (error_paths st) = ["/tmp/x"]
    /\ flagged
         (Seelie_of_projects (default_sync (demo_os 1)) shared_path_projects)
         st (mkPath "/tmp/x" None None).
Proof.
  pose proof (@failures_folded_or_raised unit (demo_os 1)
                (default_sync (demo_os 1)) shared_path_projects
                "update" 0%Z false None start) as H.
  assert (Hrun :
    traverse
      (Seelie_of_projects (default_sync (demo_os 1)) shared_path_projects)
      "update" 0 false None start
    = (Ok ([0; 1],
           mkState ["/tmp/x"] [true; true] [mkPath "/tmp/x" None None]
             [true; false] []),
       mkIo (mkSys tt [])
         [MVisit 0; MSync None "update" "/tmp/x"; MVisit 1]))
    by (vm_compute; reflexivity).
  cbv zeta in H. rewrite Hrun in H.
  destruct H as (_ & _ & _ & _ & _ & (HB & _ & HV & _) & _).
  eexists. eexists. split; [exact Hrun|]. split; [reflexivity|]. split.
  - apply (HV (fun _ => true)).
    intros q sy0 b [[] o] error y' (j & p & Hj & Hq) Hsy Hb Hcall.
    assert (Hq' : q = mkPath "/tmp/x" None None).
    { destruct j as [|[|j]]; simpl in Hj;
        [injection Hj as <-|injection Hj as <-|destruct j; discriminate];
        simpl in Hq; destruct Hq as [Hq|[]]; now injection Hq as <-. }
    subst q. cbn in Hsy. injection Hsy as <-.
    cbn in Hb. injection Hb as <-.
    cbn in Hcall. injection Hcall as <- _. reflexivity.
  - apply HB. simpl. auto.
Defined.

(** C7 as stated fails: in resolve mode the [NotImplementedError] of the
    backend leaves [apply], and so does the [KeyError] of a tool that has no
    backend. *)
Lemma exceptions_leave_apply :
  Seelie_apply
    (Seelie_of_projects (default_sync (demo_os 0)) shared_path_projects)
    "resolve" 0 false None start
  = (Raise NotImplementedError,
     mkIo (mkSys tt []) [MVisit 0; MSync None "resolve" "/tmp/x"])
  /\ Seelie_apply (Seelie_of_projects (default_sync (demo_os 0)) svn_projects)
       "update" 0 false None start
     = (Raise KeyError, mkIo (mkSys tt []) [MVisit 0]).
Proof. split; vm_compute; reflexivity. Qed.

(** C8.  In a run that returns, a visited project that holds a reference to
    a name absent from the registry is marked as erroring, whatever its paths
    did, and the name is in [unknown_projects].  Handling an unknown
    reference or selector raises nothing: the reference only records its
    name and counts as an error of its project, every known selector of the
    request is still visited, and every unknown one is recorded. *)
Theorem unknown_reference_marks_project W (sy : dict (Sync W)) projs mode
    verbose merge selectors (s s' : io W) ps st i p r :
  traverse (Seelie_of_projects sy projs) mode verbose merge selectors s
    = (Ok (ps, st), s') ->
  visited st i = true ->
  nth_error projs i = Some p ->
  In (IRef r) (items p) ->
  dict_get (ref_name r) (names (Seelie_of_projects sy projs)) = None ->
  (failed st i = true /\ In (ref_name r) (unknown_projects st))
  /\ (forall visit st0 any (s0 : io W),
        apply_item (Seelie_of_projects sy projs) mode verbose merge visit
          (st0, any) (IRef r) s0
        = (Ok (set_unknown_projects st0
                 (set_add VOpt (ref_name r) (unknown_projects st0)),
               true), s0))
  /\ (forall l n,
        selectors = Some l -> In n l ->
        match dict_get (Some n) (names (Seelie_of_projects sy projs)) with
        | Some j => visited st j = true
        | None => In (Some n) (unknown_projects st)
        end).
Proof.
  intros Hrun Hvis Hp Hr Hunk.
  set (self := Seelie_of_projects sy projs) in *.
  pose proof (@traverse_done W self mode verbose merge
                (names_ok_of_projects sy projs) (fun _ => True)
                (fun _ _ _ _ _ _ => I) selectors s) as H.
  eapply wp_Ok_inv in H; [|exact Hrun].
  destruct H as (unk & Hsel & Hext & Hreq & Hfin). cbn [fst snd] in *.
  split; [|split].
  - destruct (Hfin i Hvis) as [Hf _]. destruct (Hf p Hp) as [H1 H2]. split.
    + apply H2. exists (IRef r). split; auto. exists r. auto.
    + specialize (H1 _ Hr). unfold settled in H1.
      now rewrite Hunk in H1.
  - intros visit st0 any s0. unfold apply_item, bind, dict_mem.
    rewrite Hunk. unfold ret. destruct any; reflexivity.
  - intros l n -> Hn. rewrite select_Some in Hsel. cbn [fst] in Hsel.
    inversion Hsel; subst.
    destruct (dict_get (Some n) (names self)) as [j|] eqn:Hj.
    + apply Hreq. apply known_in. eauto.
    + destruct Hext as (_ & _ & _ & Hinc & _). apply Hinc.
      cbn [unknown_projects set_unknown_projects]. now apply unknown_in.
Qed.

Lemma unknown_reference_marks_project_witness :
  failed (mkState [] [true] [] [true] [Some "nowhere"]) 0 = true /\
  In (Some "nowhere")
     (unknown_projects (mkState [] [true] [] [true] [Some "nowhere"])).
Proof.
  refine (proj1 (@unknown_reference_marks_project unit
           (default_sync (demo_os 0)) dangling_projects "update" 0%Z false
           None start (mkIo (mkSys tt []) [MVisit 0]) [0]
           (mkState [] [true] [] [true] [Some "nowhere"]) 0
           (mkProject (Some "a") [IRef (mkRef (Some "nowhere"))] true)
           (mkRef (Some "nowhere")) _ _ _ _ _)).
  - vm_compute. reflexivity.
  - reflexivity.
  - reflexivity.
  - simpl. auto.
  - reflexivity.
Defined.

(** C9.  On a system whose root is a directory, [SeeliePath] stores the
    normalized, home-expanded path, followed by one separator when that path
    is a directory at construction time and does not end with one already
    (the root); the stored path ends with a separator exactly when the
    normalized path is a directory.  When the expanded path is made of plain
    names (neither empty nor [.] nor [..]) joined by single separators,
    absolute or relative, it is normal already: what is stored is the
    expanded path itself, with a separator added when it is a directory.  A
    normalized path is never empty, and ends with a separator only when it
    is the root.  Tool and origin are stored as given. *)
Theorem path_ends_with_separator_iff_directory W (os : OS W) p tl orig
    (y : sys W) :
  isdir os "/" (world y) = true ->
  isdir os "//" (world y) = true ->
  let e := expanduser os p in
  let n := normpath e in
  let stored :=
    if isdir os n (world y)
    then (if endswith_sep n then n else cat n "/")
    else n in
  SeeliePath_init os (Some p) tl orig y = (Ok (mkPath stored tl orig), y)
  /\ (endswith_sep stored = true <-> isdir os n (world y) = true)
  /\ (forall comps,
        Forall (fun c => plain c = true) comps -> comps <> [] ->
        e = cat "/" (join_with sep comps) \/ e = join_with sep comps ->
        n = e /\ stored = if isdir os e (world y) then cat e "/" else e)
  /\ n <> ""
  /\ (endswith_sep n = true -> n = "/" \/ n = "//").
Proof.
  intros Hroot Hroot2 e n stored.
  destruct (normpath_ends e) as [Hne Hends]. fold n in Hne, Hends.
  split; [|split; [|split; [|split]]]; auto.
  - unfold SeeliePath_init, bind, isdirM, ret. fold e. fold n.
    unfold stored. destruct (isdir os n (world y)); [|reflexivity].
    now rewrite path_join_nil.
  - unfold stored. split.
    + intros H. destruct (isdir os n (world y)) eqn:E; auto.
      destruct (Hends H) as [Hr|Hr]; rewrite Hr in E; congruence.
    + intros ->. destruct (endswith_sep n) eqn:E; auto.
      rewrite endswith_sep_cat; [reflexivity|discriminate].
  - intros comps Hc Hcne He.
    assert (Hn : n = e).
    { unfold n. destruct He as [-> | ->].
      - now apply normpath_plain_absolute.
      - now apply normpath_plain_relative. }
    split; auto. unfold stored. rewrite Hn.
    assert (Hend : endswith_sep e = false).
    { destruct He as [-> | ->].
      - rewrite endswith_sep_cat; [now apply join_plain_ends|].
        destruct (join_plain_head Hc Hcne) as (a & r & -> & _). discriminate.
      - now apply join_plain_ends. }
    now rewrite Hend.
Qed.

Lemma path_ends_with_separator_iff_directory_witness :
  SeeliePath_init home_os (Some "~/proj") (Some "git") None (mkSys tt [])
  = (Ok (mkPath "/home/u/proj/" (Some "git") None), mkSys tt [])
  /\ SeeliePath_init home_os (Some "/home/u/nope") None None (mkSys tt [])
     = (Ok (mkPath "/home/u/nope" None None), mkSys tt [])
  /\ SeeliePath_init home_os (Some "/home//u/./x/../proj/") None None
       (mkSys tt [])
     = (Ok (mkPath "/home/u/proj/" None None), mkSys tt [])
  /\ SeeliePath_init home_os (Some "/") None None (mkSys tt [])
     = (Ok (mkPath "/" None None), mkSys tt []).
Proof.
  split; [|split; [|split]].
  - exact (proj1 (@path_ends_with_separator_iff_directory unit home_os
                    "~/proj" (Some "git") None (mkSys tt []) eq_refl eq_refl)).
  - exact (proj1 (@path_ends_with_separator_iff_directory unit home_os
                    "/home/u/nope" None None (mkSys tt []) eq_refl eq_refl)).
  - exact (proj1 (@path_ends_with_separator_iff_directory unit home_os
                    "/home//u/./x/../proj/" None None (mkSys tt [])
                    eq_refl eq_refl)).
  - exact (proj1 (@path_ends_with_separator_iff_directory unit home_os
                    "/" None None (mkSys tt []) eq_refl eq_refl)).
Defined.

(** More examples: what [normpath] removes is removed before the test for a
    directory; the root keeps its single separator. *)
Lemma path_examples :
  fst (SeeliePath_init home_os (Some "~/proj") None None (mkSys tt []))
    = Ok (mkPath "/home/u/proj/" None None)
  /\ fst (SeeliePath_init home_os (Some "~/nope") None None (mkSys tt []))
      = Ok (mkPath "~/nope" None None)
  /\ fst (SeeliePath_init home_os (Some "/home//u/./x/../proj/") None None
            (mkSys tt []))
      = Ok (mkPath "/home/u/proj/" None None)
  /\ fst (SeeliePath_init home_os (Some "/home/u/proj/nope/") None None
            (mkSys tt []))
      = Ok (mkPath "/home/u/proj/nope" None None)
  /\ fst (SeeliePath_init home_os (Some "/") None None (mkSys tt []))
      = Ok (mkPath "/" None None).
Proof. repeat split; reflexivity. Qed.

(** C10.  A path with tool [rsync] and no origin, in update or push mode
    with the default synchronizers: [RSync] puts the missing origin, [None],
    in the command tuple; [subprocess.call] refuses it with a [TypeError];
    the handler of [RSync] catches [OSError] only, so the call raises; and
    [apply] has no handler at all.  Wherever such a path is met for the first
    time its processing raises [TypeError] with nothing recorded for it.

    In a run that returns no such path was handed over or recorded as a
    failure: every path handed over, and every failing path, belongs to an
    item of a visited project that has an origin or another tool.  What a
    run raises is the [KeyError] of the selection or what the processing of
    a path raised.  So a run whose selection reaches such a path, directly
    or through references and at any position among the items, raises,
    unless another item with the same path string stands in for it; it
    raises [TypeError] when all paths of the registry are rsync paths, and
    also when the path is the first item of the first requested project. *)
Theorem rsync_without_origin_escapes W (os : OS W) projs mode verbose merge
    selectors (s : io W) :
  mode = "update" \/ mode = "push" ->
  let self := Seelie_of_projects (default_sync os) projs in
  let bad := fun q => tool q = Some "rsync" /\ origin q = None in
  (forall p m v,
     RSync_update os p None m v
     = (when v (print [cat esc "[97m"] "" "" Stdout) ;;;
        rsync_call os v [Some "rsync"; Some (rsync_flags v);
                         Some "--delete"; None; Some p]))
  /\ (forall p v,
        RSync_push os p None v
        = (when v (print [cat esc "[97m"] "" "" Stdout) ;;;
           rsync_call os v [Some "rsync"; Some (rsync_flags v);
                            Some "--delete"; Some p; None]))
  /\ (forall v args y,
        In None args -> rsync_call os v args y = (Raise TypeError, y))
  /\ (forall q st (s1 : io W),
        bad q -> ~ In (path q) (visited_paths st) ->
        fst (apply_path self mode verbose merge q st s1) = Raise TypeError)
  /\ match traverse self mode verbose merge selectors s with
     | (Ok (ps, st), s') => handed_ok self bad st
     | (Raise e, s') =>
         Seelie_apply self mode verbose merge selectors s = (Raise e, s')
         /\ ((e = KeyError /\ s' = s /\
              fst (select self selectors s) = Raise KeyError)
             \/ raised_by_path self mode verbose merge e s')
     | (Stop _, _) => False
     end
  /\ (forall ps unk j p q,
        fst (select self selectors s) = Ok (ps, unk) ->
        reaches self ps j -> nth_error projs j = Some p ->
        In (IPath q) (items p) -> bad q ->
        (forall q', item_of self q' -> path q' = path q -> bad q') ->
        exists e s',
          Seelie_apply self mode verbose merge selectors s = (Raise e, s')
          /\ raised_by_path self mode verbose merge e s'
          /\ ((forall q', item_of self q' -> tool q' = Some "rsync") ->
              e = TypeError))
  /\ (forall i ps unk p it rest,
        fst (select self selectors s) = Ok (i :: ps, unk) ->
        nth_error projs i = Some p ->
        items p = IPath it :: rest -> bad it ->
        exists s',
          Seelie_apply self mode verbose merge selectors s
          = (Raise TypeError, s')).
Proof.
  intros Hmode self bad.
  assert (Hraise : forall q st (s1 : io W),
            bad q -> ~ In (path q) (visited_paths st) ->
            fst (apply_path self mode verbose merge q st s1)
            = Raise TypeError).
  { intros q st s1 [Hq1 Hq2] Hin.
    apply apply_path_rsync_None with (os := os); auto.
    rewrite Hq1. reflexivity. }
  assert (Hbad : forall q st (s1 : io W) r s',
            bad q -> ~ In (path q) (visited_paths st) ->
            apply_path self mode verbose merge q st s1 <> (Ok r, s')).
  { intros q st s1 r s' Hb Hin. eapply raises_not_Ok. now apply Hraise. }
  assert (Hnames : names_ok self) by apply names_ok_of_projects.
  split; [reflexivity|]. split; [reflexivity|].
  split; [intros v args y; apply rsync_call_None|].
  split; [exact Hraise|]. split; [|split].
  - pose proof (@traverse_handed W self mode verbose merge bad Hbad
                  selectors s) as HH.
    pose proof (@traverse_raises W self mode verbose merge Hnames
                  selectors s) as HR.
    unfold wp in HH, HR.
    destruct (traverse self mode verbose merge selectors s)
      as [[[ps st]|e|x] s'] eqn:Hrun; auto.
    split; [now apply traverse_raises_apply|exact HR].
  - intros ps unk j p q Hsel Hreach Hp Hq Hb Honly.
    destruct (@traverse_escapes W self mode verbose merge Hnames bad Hbad
                selectors s ps unk j p q Hsel Hreach Hp Hq Hb Honly)
      as (e & s' & H1 & H2).
    exists e, s'. split; [exact H1|]. split; [exact H2|].
    intros Hall. destruct H2 as (q' & st & s1 & Hitem & _ & Hrun).
    eapply rsync_path_raises; eauto.
  - intros i ps unk p it rest Hsel Hp Hitems Hb.
    eapply first_path_raises; eauto.
Qed.

Lemma rsync_without_origin_escapes_witness :
  exists s',
    Seelie_apply
      (Seelie_of_projects (default_sync (demo_os 0)) rsync_late_projects)
      "update" 0 false None start = (Raise TypeError, s')
    /\ sync_log (trace s') = ["/srv/a"; "/srv/b"; "/data"].
Proof.
  assert (Hitems : forall q',
    item_of (Seelie_of_projects (default_sync (demo_os 0)) rsync_late_projects)
      q' ->
    q' = mkPath "/srv/a" (Some "rsync") (Some "host:/a") \/
    q' = mkPath "/srv/b" (Some "rsync") (Some "host:/b") \/
    q' = mkPath "/data" (Some "rsync") None).
  { intros q' (j & p & Hj & Hq).
    destruct j as [|[|j]]; simpl in Hj;
      [injection Hj as <-|injection Hj as <-|destruct j; discriminate];
      simpl in Hq;
      repeat match goal with
             | H : _ \/ _ |- _ => destruct H
             | H : False |- _ => destruct H
             | H : IPath _ = IPath _ |- _ => injection H as <-
             | H : IRef _ = IPath _ |- _ => discriminate H
             end; auto. }
  destruct (proj1 (proj2 (proj2 (proj2 (proj2 (proj2
              (@rsync_without_origin_escapes unit (demo_os 0)
                 rsync_late_projects "update" 0%Z false None start
                 (or_introl eq_refl)))))))
              [0] [] 1
              (mkProject (Some "side")
                 [IPath (mkPath "/srv/b" (Some "rsync") (Some "host:/b"));
                  IPath (mkPath "/data" (Some "rsync") None)] false)
              (mkPath "/data" (Some "rsync") None))
    as (e & s' & H1 & _ & H3).
  - reflexivity.
  - eapply reaches_reference with (i := 0) (r := mkRef (Some "side"));
      [apply reaches_requested; simpl; auto|reflexivity|simpl; auto
      |reflexivity].
  - reflexivity.
  - simpl. auto.
  - split; reflexivity.
  - intros q' Hq' Hpath.
    destruct (Hitems q' Hq') as [-> |[-> | ->]];
      [discriminate|discriminate|split; reflexivity].
  - exists s'. rewrite H3 in H1.
    + split; [exact H1|].
      vm_compute in H1. injection H1 as <-. reflexivity.
    + intros q' Hq'.
      destruct (Hitems q' Hq') as [-> |[-> | ->]]; reflexivity.
Defined.

(* ================================================================= *)
(** * Further properties of the code *)

(** ** Reading the configuration *)

(** X1.  A project element that is read without error gives its items
    in document order: a path child with text gives one path item (the path
    expanded and normalized, with a trailing separator when it is a
    directory, the tool and the origin taken from the attributes), a
    reference child gives one reference item, and every other child gives
    none.  The automatic flag is off exactly when the [auto] attribute
    lowers to [false] or is [0].  So a project has as many items as its
    element has path and reference children. *)
Theorem project_items_in_document_order W (os : OS W) node verbose i
    (y y' : sys W) p :
  SeelieProject_init os node verbose i y = (Ok p, y') ->
  items p = flat_map (items_of os (world y)) (el_children node)
  /\ auto p = auto_of node
  /\ List.length (items p)
     = List.length (filter (fun c => is_path_child c || is_reference_child c)
                      (el_children node)).
Proof.
  intros Hrun.
  pose proof (SeelieProject_init_full os verbose node i y) as H.
  eapply wp_Ok_inv in H; [|exact Hrun]. destruct H as [H _].
  unfold project_of in H.
  destruct (existsb textless_path (el_children node)) eqn:E; [discriminate|].
  inversion H; subst p. cbn [items auto]. repeat split.
  now apply items_of_count.
Qed.

Lemma project_items_in_document_order_witness :
  items (mkProject (Some "mine")
           [IPath (mkPath "/home/u/proj/" (Some "rsync") (Some "host:/srv"));
            IRef (mkRef (Some "other"))] false)
  = flat_map (items_of home_os tt) (el_children sample_project).
Proof.
  refine (proj1 (@project_items_in_document_order unit home_os sample_project
                   0%Z 1 (mkSys tt []) (mkSys tt []) _ _)).
  reflexivity.
Defined.

(** X2.  When [xml_to_projects] returns, its list holds one project for
    each child of the root whose tag lowers to [project], in document
    order, and each is the project that child stands for; the other
    children of the root are skipped. *)
Theorem projects_in_document_order W (os : OS W) root verbose
    (y y' : sys W) projs :
  xml_to_projects os root verbose y = (Ok projs, y') ->
  map Some projs
  = map (project_of os (world y)) (filter is_project_child (el_children root)).
Proof.
  intros Hrun.
  pose proof (xml_to_projects_full os verbose root y) as H.
  eapply wp_Ok_inv in H; [|exact Hrun]. destruct H as [H _].
  symmetry. now apply collect_map_Some.
Qed.

Lemma projects_in_document_order_witness :
  map Some
    [mkProject (Some "mine")
       [IPath (mkPath "/home/u/proj/" (Some "rsync") (Some "host:/srv"));
        IRef (mkRef (Some "other"))] false;
     mkProject (Some "other") [] true]
  = map (project_of home_os tt)
      (filter is_project_child (el_children sample_config)).
Proof.
  refine (@projects_in_document_order unit home_os sample_config 0%Z
            (mkSys tt []) (mkSys tt []) _ _).
  reflexivity.
Defined.

(** X3.  What [Seelie.__init__] returns or raises depends neither on
    [verbose] nor on what was written before.  Building the object leaves
    the world as it is, writes on the error stream only, and writes nothing
    at all when [verbose] is false. *)
Theorem loading_does_not_depend_on_verbose W (os : OS W) root sy verbose
    (y : sys W) :
  fst (Seelie_init os root sy verbose y)
  = fst (Seelie_init os root sy 0 (mkSys (world y) []))
  /\ warned verbose y (snd (Seelie_init os root sy verbose y)).
Proof.
  split.
  - rewrite !Seelie_init_fst. reflexivity.
  - pose proof (Seelie_init_full os verbose root sy y) as H. unfold wp in H.
    destruct (Seelie_init os root sy verbose y) as [[r|e|[]] y']; cbn [snd];
      apply H.
Qed.

(** X4.  [Seelie.__init__] raises exactly when the tag of the root does
    not lower to [seelie] or some project child of the root has a path
    child without text, and what it raises is a [TypeError].  Otherwise it
    returns an object with one project for each project child of the
    root. *)
Theorem loading_fails_on_root_or_empty_path W (os : OS W) root sy verbose
    (y : sys W) :
  match fst (Seelie_init os root sy verbose y) with
  | Ok r =>
      lower (el_tag root) = "seelie" /\
      existsb broken_project (el_children root) = false /\
      List.length (projects r)
      = List.length (filter is_project_child (el_children root))
  | Raise e =>
      e = TypeError /\
      (lower (el_tag root) <> "seelie" \/
       existsb broken_project (el_children root) = true)
  | Stop _ => False
  end.
Proof.
  rewrite Seelie_init_fst.
  destruct (String.eqb_spec (lower (el_tag root)) "seelie") as [Ht|Ht];
    [|auto].
  destruct (load_projects os (world y) root) as [projs|] eqn:Hl.
  - split; auto. split.
    + destruct (existsb broken_project (el_children root)) eqn:E; auto.
      apply load_projects_None with (os := os) (w := world y) in E.
      congruence.
    + cbn [projects Seelie_of_projects].
      apply collect_map_Some in Hl. apply (f_equal (@List.length _)) in Hl.
      rewrite !length_map in Hl. auto.
  - split; auto. right. now apply load_projects_None in Hl.
Qed.

(** ** Names and selectors *)

(** X5.  The name map of a [Seelie] object sends a name to the index of
    the last project that carries it.  A name is a key of the map exactly
    when some project carries it, and [None], the name of a project without
    a name child, is never a key. *)
Theorem names_keep_the_last_project W (sy : dict (Sync W)) projs :
  (forall k j,
     dict_get k (names (Seelie_of_projects sy projs)) = Some j
     <-> k <> None /\ nth_error (map name projs) j = Some k /\
         forall j', j < j' -> nth_error (map name projs) j' <> Some k)
  /\ (forall a,
        dict_mem (Some a) (names (Seelie_of_projects sy projs)) = true
        <-> exists p, In p projs /\ name p = Some a)
  /\ dict_mem None (names (Seelie_of_projects sy projs)) = false.
Proof.
  split; [|split].
  - intros k j. apply names_last.
  - intros a. unfold dict_mem. split.
    + destruct (dict_get (Some a) _) as [j|] eqn:E; [|discriminate].
      intros _. apply names_last in E. destruct E as (_ & Hj & _).
      rewrite nth_error_map in Hj.
      destruct (nth_error projs j) as [p|] eqn:Hp; [|discriminate].
      exists p. split; [eapply nth_error_In; eauto|].
      simpl in Hj. congruence.
    + intros (p & Hp & Hn).
      destruct (@names_has W sy projs a) as (j & ->); auto.
      rewrite <- Hn. now apply in_map.
  - unfold dict_mem. now rewrite names_None.
Qed.

(** X6.  A run without selectors.  When some automatic project has no
    name, [apply] raises a [KeyError] before anything is visited, written
    or handed to a synchronizer.  Otherwise the run starts from the
    automatic projects in document order, each through the index its name
    maps to, and no name is unknown. *)
Theorem run_without_selectors W (sy : dict (Sync W)) projs mode verbose merge
    (s : io W) :
  if existsb (fun p => auto p && negb (is_some (name p))) projs
  then
    Seelie_apply (Seelie_of_projects sy projs) mode verbose merge None s
    = (Raise KeyError, s)
  else
    exists ps,
      select (Seelie_of_projects sy projs) None s = (Ok (ps, []), s)
      /\ map (fun p => dict_get (name p)
                         (names (Seelie_of_projects sy projs)))
           (filter auto projs)
         = map Some ps.
Proof.
  set (self := Seelie_of_projects sy projs).
  destruct (existsb _ projs) eqn:E.
  - apply traverse_raises_apply. unfold traverse, bind.
    rewrite select_None.
    rewrite (@lookup_all_None _ (names self) (autos self) None);
      [reflexivity| |apply names_None].
    now apply unnamed_auto.
  - rewrite select_None.
    destruct (@lookup_all_Some _ (names self) (autos self)) as (ps & H1 & H2).
    { intros [a|] Hk.
      - destruct (@names_has W sy projs a) as (j & Hj).
        + apply in_map_iff in Hk. destruct Hk as (p & Hn & Hp).
          apply filter_In in Hp. rewrite <- Hn. apply in_map, Hp.
        + unfold self. congruence.
      - apply unnamed_auto in Hk. congruence. }
    exists ps. rewrite H1. split; [reflexivity|].
    rewrite <- H2. unfold self. cbn [autos Seelie_of_projects].
    now rewrite map_map.
Qed.

(** X7.  With an explicit list of selectors the report never lists a
    project with errors: the test [n in self.projects] compares a name with
    the project objects and fails for every selector.  So in a verbose run
    that returns, the report is the unknown names and the failing paths
    only, whatever the error flags of the projects. *)
Theorem explicit_selectors_list_no_failing_project W (self : Seelie W)
    mode verbose merge l ps st (s s1 : io W) us :
  traverse self mode verbose merge (Some l) s = (Ok (ps, st), s1) ->
  truthy verbose = true ->
  all_some (unknown_projects st) = Some us ->
  errors_of self (Some l) ps st s1 = (Ok [], s1)
  /\ Seelie_apply self mode verbose merge (Some l) s
     = (Ok tt,
        emit s1 (summary_lines (sorted_str us) []
                   (sorted_str (map path (error_paths st))))).
Proof.
  intros Hrun Hv Hus. split.
  - apply errors_of_Some_loop.
  - unfold Seelie_apply. eapply bind_Ok; [exact Hrun|].
    unfold report. cbn [fst snd]. rewrite Hv.
    eapply bind_Ok; [apply report_unknown_lines; exact Hus|].
    eapply bind_Ok; [apply errors_of_Some_loop|].
    eapply bind_Ok; [apply report_errors_lines|].
    rewrite report_paths_lines, !emit_emit. reflexivity.
Qed.

Lemma explicit_selectors_list_no_failing_project_witness :
  failed (mkState ["/tmp/x"] [true; false] [mkPath "/tmp/x" None None]
            [true; false] []) 0 = true
  /\ Seelie_apply
       (Seelie_of_projects (default_sync (demo_os 1)) shared_path_projects)
       "update" 1 false (Some ["p1"]) start
     = (Ok tt,
        emit (snd (traverse
                     (Seelie_of_projects (default_sync (demo_os 1))
                        shared_path_projects)
                     "update" 1 false (Some ["p1"]) start))
          (summary_lines [] [] ["/tmp/x"])).
Proof.
  split; [reflexivity|].
  refine (proj2 (@explicit_selectors_list_no_failing_project unit
                   (Seelie_of_projects (default_sync (demo_os 1))
                      shared_path_projects)
                   "update" 1%Z false ["p1"] [0]
                   (mkState ["/tmp/x"] [true; false]
                      [mkPath "/tmp/x" None None] [true; false] [])
                   start _ [] _ _ _)).
  - vm_compute. reflexivity.
  - reflexivity.
  - reflexivity.
Defined.

(** X8.  Selectors that name no project raise nothing and visit
    nothing: the traversal returns at once with every flag unset, no path
    visited and the selectors as the set of unknown names.  With the empty
    list of selectors [apply] returns without any effect. *)
Theorem unknown_selectors_visit_nothing W (self : Seelie W) mode verbose
    merge l (s : io W) :
  (forall n, In n l -> dict_get (Some n) (names self) = None) ->
  traverse self mode verbose merge (Some l) s
  = (Ok ([], set_unknown_projects (initial_state self)
               (unknown (names self) l)), s)
  /\ (l = [] ->
      Seelie_apply self mode verbose merge (Some l) s = (Ok tt, s)).
Proof.
  intros Hl.
  assert (Hk : known (names self) l = []).
  { unfold known. induction l as [|n l IH]; simpl; auto.
    rewrite (Hl n) by (simpl; auto). simpl. apply IH.
    intros m Hm. apply Hl. simpl. auto. }
  assert (Ht : traverse self mode verbose merge (Some l) s
               = (Ok ([], set_unknown_projects (initial_state self)
                            (unknown (names self) l)), s)).
  { unfold traverse. eapply bind_Ok; [apply select_Some|].
    rewrite Hk. reflexivity. }
  split; [exact Ht|].
  intros ->. unfold Seelie_apply. eapply bind_Ok; [exact Ht|].
  unfold report. destruct (truthy verbose); [|reflexivity].
  reflexivity.
Qed.

Lemma unknown_selectors_visit_nothing_witness :
  traverse (Seelie_of_projects (default_sync (demo_os 0)) ab_projects)
    "update" 1 false (Some ["zzz"; "zzz"]) start
  = (Ok ([], mkState [] [false; false] [] [false; false] [Some "zzz"]), start).
Proof.
  refine (proj1 (@unknown_selectors_visit_nothing unit
                   (Seelie_of_projects (default_sync (demo_os 0)) ab_projects)
                   "update" 1%Z false ["zzz"; "zzz"] start _)).
  intros n [<-|[<-|[]]]; reflexivity.
Defined.

(** ** The run as a whole *)

(** X9.  With the default synchronizers and [verbose] false a run of
    [apply] writes nothing on either stream, whatever the projects, the
    mode and the selectors, whether it returns or raises. *)
Theorem quiet_run_writes_nothing W (os : OS W) projs mode merge selectors
    (s : io W) :
  out (io_sys (snd (Seelie_apply (Seelie_of_projects (default_sync os) projs)
                      mode 0 merge selectors s)))
  = out (io_sys s).
Proof.
  set (self := Seelie_of_projects (default_sync os) projs).
  pose proof (@traverse_quiet W self mode merge
                (@default_sync_quiet W os) selectors s) as H.
  unfold wp in H. unfold Seelie_apply, bind.
  destruct (traverse self mode 0 merge selectors s) as [[[ps st]|e|x] s'];
    [exact H|exact H|destruct H].
Qed.

(** X10.  In a run that returns, the paths handed to the synchronizers
    are the visited paths, in that order and without repetition.  Every
    path of every visited project is among them, and each of them is a path
    of some visited project.  A project flagged with an error was visited;
    a failing path was handed to a synchronizer and belongs to a visited
    project. *)
Theorem each_path_synchronized_once W (sy : dict (Sync W)) projs mode verbose
    merge selectors (y : sys W) ps st s' :
  traverse (Seelie_of_projects sy projs) mode verbose merge selectors
    (mkIo y []) = (Ok (ps, st), s') ->
  sync_log (trace s') = visited_paths st
  /\ NoDup (sync_log (trace s'))
  /\ (forall j p q,
        visited st j = true -> nth_error projs j = Some p ->
        In (IPath q) (items p) -> In (path q) (sync_log (trace s')))
  /\ (forall x, In x (sync_log (trace s')) ->
        owned (Seelie_of_projects sy projs) st x)
  /\ (forall j, failed st j = true -> visited st j = true)
  /\ (forall q, In q (error_paths st) ->
        In (path q) (sync_log (trace s')) /\
        exists j p, visited st j = true /\ nth_error projs j = Some p /\
                    In (IPath q) (items p)).
Proof.
  intros Hrun. set (self := Seelie_of_projects sy projs) in *.
  pose proof (traverse_sync_inv self mode verbose merge selectors y) as HK.
  eapply wp_Ok_inv in HK; [|exact Hrun].
  destruct HK as (K1 & K2 & K3 & K4). cbn [snd] in *.
  pose proof (traverse_inv self mode verbose merge selectors y) as HI.
  eapply wp_Ok_inv in HI; [|exact Hrun].
  destruct HI as [(_ & _ & _ & Hnd & _) _]. cbn [snd] in *.
  pose proof (@traverse_done W self mode verbose merge
                (names_ok_of_projects sy projs) (fun _ => True)
                (fun _ _ _ _ _ _ => I) selectors (mkIo y [])) as HD.
  eapply wp_Ok_inv in HD; [|exact Hrun].
  destruct HD as (unk & _ & _ & _ & Hfin). cbn [fst snd] in *.
  split; [exact K1|]. split; [exact Hnd|]. split; [|split; [|split]].
  - intros j p q Hj Hp Hq. rewrite K1.
    destruct (Hfin j Hj) as [Hf _]. destruct (Hf p Hp) as [Hs _].
    apply (Hs (IPath q) Hq).
  - intros x Hx. rewrite K1 in Hx. auto.
  - exact K2.
  - intros q Hq. rewrite K1. apply K4, Hq.
Qed.

Lemma each_path_synchronized_once_witness :
  sync_log [MVisit 0; MSync None "update" "/tmp/x"; MVisit 1] = ["/tmp/x"].
Proof.
  refine (proj1 (@each_path_synchronized_once unit (default_sync (demo_os 1))
                   shared_path_projects "update" 0%Z false None (mkSys tt [])
                   [0; 1]
                   (mkState ["/tmp/x"] [true; true]
                      [mkPath "/tmp/x" None None] [true; false] [])
                   (mkIo (mkSys tt [])
                      [MVisit 0; MSync None "update" "/tmp/x"; MVisit 1]) _)).
  vm_compute. reflexivity.
Defined.

(** ** The synchronizers *)

(** X11.  [GitSync.update], call by call.  When it returns it has run
    either nothing but the return to the directory it started from (the
    repository could not be entered, and the result is an error), or the
    entry into the repository, one [git pull] from the source ([origin] by
    default, with [--rebase] unless [merge] is set) and the return; the
    result is then an error exactly when git could not be started or ended
    with a status other than zero.  What it writes itself is the code for
    white and the reset code when verbose, nothing otherwise.  It raises
    nothing but an [OSError], and then it has run at most the entry and the
    [git pull]. *)
Theorem GitSync_update_commands W (os : OS W) p src m v
    (y : sys (W * list event)) :
  let repo := expanduser os p in
  match GitSync_update (logged os) p src m v y with
  | (Ok error, y') =>
      exists here,
        getcwd os (fst (world y)) = Some here /\
        out y' = out y ++ bracket v /\
        ((ran y y' [Chdir here] /\ error = true /\
          chdir os repo (fst (world y)) = None)
         \/ (exists status,
               ran y y' [Chdir repo; Call (git_pull src m) status; Chdir here]
               /\ error = failed_status status))
  | (Raise e, y') =>
      (exists msg, e = OSError msg) /\
      (ran y y' [] \/
       exists status, ran y y' [Chdir repo; Call (git_pull src m) status])
  | (Stop _, _) => False
  end.
Proof.
  destruct y as [[w lg] o]. backend.
  destruct (getcwd os w) as [here|] eqn:Hcwd; cbn.
  2:{ split; [eauto|left; record]. }
  destruct (chdir os (expanduser os p) w) as [w1|] eqn:Hin; cbn.
  - destruct v, m; cbn;
      (destruct (call os _ w1) as [[code|msg] w2] eqn:Hcall; cbn;
       [destruct (chdir os here w2) as [w3|] eqn:Hback; cbn|]);
      try (exists here; split; [reflexivity|]; split; [record|];
           right; status_of_call; split; [record|reflexivity]);
      try (split; [eauto|right; status_of_call; record]).
  - destruct v, m; cbn;
      (destruct (chdir os here w) as [w3|] eqn:Hback; cbn);
      try (exists here; split; [reflexivity|]; split; [record|];
           left; split; [record|auto]);
      try (split; [eauto|left; record]).
Qed.

(** X12.  [GitSync.push], call by call.  When it returns, what it has
    run is one of six sequences, each closed by the return to the directory
    it started from: nothing (the repository could not be entered); [git
    add --all] with a status other than zero; [git add] and a failing [git
    status --porcelain]; [git add] and a [git status] without output, the
    only sequence without commit that is no error; [git add], [git status]
    and a failing [git commit]; or all of these and [git push] to the
    destination ([origin] by default), an error exactly when the status of
    the push is not zero.  The commit message names the host and the time.
    It raises nothing but an [OSError]. *)
Theorem GitSync_push_commands W (os : OS W) p dest v
    (y : sys (W * list event)) :
  let repo := expanduser os p in
  match GitSync_push (logged os) p dest v y with
  | (Ok error, y') =>
      exists here,
        getcwd os (fst (world y)) = Some here /\
        out y' = out y ++ bracket v /\
        ((ran y y' [Chdir here] /\ error = true /\
          chdir os repo (fst (world y)) = None)
         \/ (exists c,
               ran y y' [Chdir repo; Call git_add (inl c); Chdir here] /\
               c <> 0%Z /\ error = true)
         \/ (ran y y' [Chdir repo; Call git_add (inl 0%Z);
                       CheckOutput git_status_cmd CoCalledProcessError;
                       Chdir here] /\
             error = true)
         \/ (ran y y' [Chdir repo; Call git_add (inl 0%Z);
                       CheckOutput git_status_cmd (CoOutput "");
                       Chdir here] /\
             error = false)
         \/ (exists o host time c,
               ran y y' [Chdir repo; Call git_add (inl 0%Z);
                         CheckOutput git_status_cmd (CoOutput o);
                         Call (git_commit (commit_text host time)) (inl c);
                         Chdir here] /\
               o <> "" /\ c <> 0%Z /\ error = true)
         \/ (exists o host time c,
               ran y y' [Chdir repo; Call git_add (inl 0%Z);
                         CheckOutput git_status_cmd (CoOutput o);
                         Call (git_commit (commit_text host time)) (inl 0%Z);
                         Call (git_push dest) (inl c);
                         Chdir here] /\
               o <> "" /\ error = negb (c =? 0)%Z))
  | (Raise e, y') => exists msg, e = OSError msg
  | (Stop _, _) => False
  end.
Proof.
  destruct y as [[w lg] o]. backend.
  destruct v; cbn; repeat oracle; eauto.
  all: eexists; (split; [reflexivity|]); (split; [record|]).
  all: choose.
Qed.

(** X13.  [RSync.update] and [RSync.push] with a second path given
    always return, after exactly one call of [rsync] with [-au] (or [-auv]
    when verbose) and [--delete]: from the source to the path for an
    update, from the path to the destination for a push.  The result is an
    error exactly when rsync could not be started or ended with a status
    other than zero.  When verbose they write the code for white, and the
    message of the [OSError] in red when rsync could not be started.
    Pushing a path to another is updating the other from the path. *)
Theorem RSync_commands W (os : OS W) p other m v (y : sys (W * list event)) :
  (exists status y',
     RSync_update (logged os) p (Some other) m v y
     = (Ok (failed_status status), y') /\
     ran y y' [Call ["rsync"; rsync_flags v; "--delete"; other; p] status] /\
     out y' = out y ++ rsync_lines v status)
  /\ (exists status y',
        RSync_push (logged os) p (Some other) v y
        = (Ok (failed_status status), y') /\
        ran y y' [Call ["rsync"; rsync_flags v; "--delete"; p; other] status] /\
        out y' = out y ++ rsync_lines v status)
  /\ RSync_push os p (Some other) v = RSync_update os other (Some p) m v.
Proof.
  destruct y as [[w lg] o]. split; [|split; [|reflexivity]]; backend.
  - destruct v; cbn;
      (destruct (call os _ w) as [[code|msg] w'] eqn:Hcall; cbn);
      status_of_call; eexists; (split; [reflexivity|]); split; record.
  - destruct v; cbn;
      (destruct (call os _ w) as [[code|msg] w'] eqn:Hcall; cbn);
      status_of_call; eexists; (split; [reflexivity|]); split; record.
Qed.

(** ** Printing in colour *)

(** X14.  [color_print] on a colour name of the ASCII range does not tell
    upper case from lower case.  When the lowered name is the n-th of black,
    red, green, yellow, blue, purple, cyan and white, it writes the escape
    code 90 + n, the values joined by the separator and followed by the end
    string, and the reset code, all on the given stream; for any other name
    it raises a [ValueError] and writes nothing. *)
Theorem color_print_known_or_nothing W values c sp en f (y : sys W) :
  is_ascii c = true ->
  color_print values (Some (lower c)) sp en f y
  = color_print values (Some c) sp en f y
  /\ match position (lower c) known_colors with
     | Some n =>
         color_print values (Some c) sp en f y
         = (Ok tt,
            mkSys (world y)
              (out y ++ colored (cat esc (cat "[9" (cat (str_of_nat n) "m")))
                          f (cat (join_with sp values) en)))
     | None => color_print values (Some c) sp en f y = (Raise ValueError, y)
     end.
Proof.
  intros _. split.
  - unfold color_print, color_code. now rewrite lower_idem.
  - unfold color_print, color_code, known_colors, position.
    repeat match goal with
           | |- context [String.eqb (lower c) ?a] =>
               destruct (String.eqb (lower c) a)
           end;
      try reflexivity;
      unfold bind, print, write, colored; cbn;
      rewrite <- ?app_assoc; reflexivity.
Qed.

Lemma color_print_known_or_nothing_witness :
  color_print ["two"; "words"] (Some "Blue") " " nl Stderr (mkSys tt [])
  = (Ok tt,
     mkSys tt [(Stderr, cat esc "[94m"); (Stderr, cat "two words" nl);
               (Stderr, cat esc "[0m")])
  /\ color_print ["two"; "words"] (Some "bleu") " " nl Stderr (mkSys tt [])
     = (Raise ValueError, mkSys tt []).
Proof.
  split.
  - exact (proj2 (@color_print_known_or_nothing unit ["two"; "words"] "Blue"
                    " " nl Stderr (mkSys tt []) eq_refl)).
  - exact (proj2 (@color_print_known_or_nothing unit ["two"; "words"] "bleu"
                    " " nl Stderr (mkSys tt []) eq_refl)).
Defined.
